(** * ZapScript parser: a shallow embedding of go-zapscript

    The development follows the Go sources file by file:
    - [symbols.go]      : the symbol table, error values and character classes;
    - [reader.go]       : the [ScriptReader] cursor over a [bufio.Reader],
                          [checkEndOfCmd], [parseEscapeSeq], [parseQuotedArg];
    - [expressions.go]  : [parseExpression] and [ParseExpressions];
    - the argument file : [parseJSONArg], [parseInputMacroArg], [parseAdvArgs],
                          [parseArgs];
    - the parser file   : [parseMediaTitleSyntax], [parseCommand], [ParseScript];
    - the traits file   : [parseTraitsSyntax], [parseTraitValue], [inferType].

    A Go [string] is modelled by the list of its code points (the values that
    [bufio.Reader.ReadRune] hands out one at a time), a [rune] by [Z].
    Every Go [for] loop becomes a [Fixpoint] over a fuel argument; the
    function of the same name runs the loop with one unit of fuel more than
    there are unread code points, and is proved never to run out. *)

From Stdlib Require Import ZArith List Bool Lia String Ascii.
From Stdlib Require Import DecimalString.
From stdpp Require Import gmap.
Import ListNotations.

Local Open Scope Z_scope.

(** ** Runes and strings *)

Abbreviation rune := Z (only parsing).
Abbreviation gostring := (list Z) (only parsing).

Definition chr (a : ascii) : rune := Z.of_N (N_of_ascii a).

Fixpoint runes (s : string) : gostring :=
  match s with
  | EmptyString => []
  | String a s' => chr a :: runes s'
  end.

(** ** symbols.go *)

Inductive error : Type :=
  | ErrUnexpectedEOF
  | ErrInvalidCmdName
  | ErrInvalidAdvArgName
  | ErrEmptyCmdName
  | ErrEmptyZapScript
  | ErrUnmatchedQuote
  | ErrInvalidJSON
  | ErrUnmatchedInputMacroExt
  | ErrUnmatchedExpression
  | ErrBadExpressionReturn
  (* Modelled from the spec: the two trait errors are named by the traits
     file and the tests; their declarations are not in the sources at hand *)
  | ErrUnmatchedArrayBracket
  | ErrInvalidTraitKey
  (* errors.New("rune error"), made by [peek] *)
  | ErrRuneError
  (* fmt.Errorf("failed to unread rune: %w", bufio.ErrInvalidUnreadRune) *)
  | ErrFailedUnread
  (* fmt.Errorf("parse error at %d: %w", pos, err) *)
  | ParseErrorAt (at_pos : Z) (err : error).

Definition error_eqb_head (e k : error) : bool :=
  match e, k with
  | ErrUnexpectedEOF, ErrUnexpectedEOF
  | ErrInvalidCmdName, ErrInvalidCmdName
  | ErrInvalidAdvArgName, ErrInvalidAdvArgName
  | ErrEmptyCmdName, ErrEmptyCmdName
  | ErrEmptyZapScript, ErrEmptyZapScript
  | ErrUnmatchedQuote, ErrUnmatchedQuote
  | ErrInvalidJSON, ErrInvalidJSON
  | ErrUnmatchedInputMacroExt, ErrUnmatchedInputMacroExt
  | ErrUnmatchedExpression, ErrUnmatchedExpression
  | ErrBadExpressionReturn, ErrBadExpressionReturn
  | ErrUnmatchedArrayBracket, ErrUnmatchedArrayBracket
  | ErrInvalidTraitKey, ErrInvalidTraitKey => true
  | _, _ => false
  end.

(** [errors.Is err target] for a sentinel [target]: unwrap the [%w] chain. *)
Fixpoint errors_Is (e target : error) : bool :=
  match e with
  | ParseErrorAt _ e' => errors_Is e' target
  | _ => error_eqb_head e target
  end.

Definition SymCmdStart : rune := Eval cbv in chr "*".
Definition SymCmdSep : rune := Eval cbv in chr "|".
Definition SymEscapeSeq : rune := Eval cbv in chr "^".
Definition SymArgStart : rune := Eval cbv in chr ":".
Definition SymArgSep : rune := Eval cbv in chr ",".
Definition SymArgDoubleQuote : rune := 34.
Definition SymArgSingleQuote : rune := Eval cbv in chr "'".
Definition SymAdvArgStart : rune := Eval cbv in chr "?".
Definition SymAdvArgSep : rune := Eval cbv in chr "&".
Definition SymAdvArgEq : rune := Eval cbv in chr "=".
Definition SymJSONStart : rune := Eval cbv in chr "{".
Definition SymJSONEnd : rune := Eval cbv in chr "}".
Definition SymJSONEscapeSeq : rune := Eval cbv in chr "\".
Definition SymJSONString : rune := 34.
Definition SymInputMacroEscapeSeq : rune := Eval cbv in chr "\".
Definition SymInputMacroExtStart : rune := Eval cbv in chr "{".
Definition SymInputMacroExtEnd : rune := Eval cbv in chr "}".
Definition SymExpressionStart : rune := Eval cbv in chr "[".
Definition SymExpressionEnd : rune := Eval cbv in chr "]".
Definition SymMediaTitleStart : rune := Eval cbv in chr "@".
Definition SymMediaTitleSep : rune := Eval cbv in chr "/".
Definition TokExpStart : gostring := [0xE000].
Definition TokExprEnd : gostring := [0xE001].

Definition eof : rune := 0.

(** [utf8.RuneError], U+FFFD. *)
Definition RuneError : rune := 0xFFFD.

Definition in_range (lo hi ch : rune) : bool := (lo <=? ch) && (ch <=? hi).

Definition isCmdName (ch : rune) : bool :=
  in_range (chr "a") (chr "z") ch || in_range (chr "A") (chr "Z") ch
  || in_range (chr "0") (chr "9") ch || (ch =? chr ".").

Definition isAdvArgName (ch : rune) : bool :=
  in_range (chr "a") (chr "z") ch || in_range (chr "A") (chr "Z") ch
  || in_range (chr "0") (chr "9") ch || (ch =? chr "_").

Definition isWhitespace (ch : rune) : bool :=
  (ch =? 32) || (ch =? 9) || (ch =? 10) || (ch =? 13).

(** Modelled from the spec: the command-name constants are declared in a
    file that is not among the sources at hand.  The spec names the
    [launch.title] command and the auto-launch command; the tests fix the
    four values. *)
Definition ZapScriptCmdLaunch : gostring := Eval cbv in runes "launch".

(** Modelled from the spec: the name of the media-title command. *)
Definition ZapScriptCmdLaunchTitle : gostring := Eval cbv in runes "launch.title".

(** Modelled from the spec: the two commands recognized as keyboard and
    gamepad input. *)
Definition ZapScriptCmdInputKeyboard : gostring := Eval cbv in runes "input.keyboard".
Definition ZapScriptCmdInputGamepad : gostring := Eval cbv in runes "input.gamepad".

(** [a == b] on strings. *)
Fixpoint gostring_eqb (a b : gostring) : bool :=
  match a, b with
  | [], [] => true
  | x :: a', y :: b' => (x =? y) && gostring_eqb a' b'
  | _, _ => false
  end.

Definition isInputMacroCmd (name : gostring) : bool :=
  gostring_eqb name ZapScriptCmdInputKeyboard
  || gostring_eqb name ZapScriptCmdInputGamepad.

(** ** Go's [strings] package, on code points *)

(** [unicode.IsSpace]. *)
Definition unicode_IsSpace (r : rune) : bool :=
  in_range 9 13 r || (r =? 32) || (r =? 0x85) || (r =? 0xA0)
  || (r =? 0x1680) || in_range 0x2000 0x200A r || (r =? 0x2028)
  || (r =? 0x2029) || (r =? 0x202F) || (r =? 0x205F) || (r =? 0x3000).

Fixpoint trimLeft (s : gostring) : gostring :=
  match s with
  | c :: s' => if unicode_IsSpace c then trimLeft s' else s
  | [] => []
  end.

(** [strings.TrimSpace]. *)
Definition TrimSpace (s : gostring) : gostring :=
  rev (trimLeft (rev (trimLeft s))).

(** [strings.ToLower] on the ASCII range; the parser only applies it to
    names made of [isCmdName] or [isAdvArgName] characters. *)
Definition toLowerRune (c : rune) : rune :=
  if in_range (chr "A") (chr "Z") c then c + 32 else c.

Definition ToLower (s : gostring) : gostring := map toLowerRune s.

(** [strings.Index s (string sep)] for a one-rune separator, counted in
    code points; [None] is Go's [-1]. *)
Fixpoint IndexRune (s : gostring) (sep : rune) : option nat :=
  match s with
  | [] => None
  | c :: s' => if c =? sep then Some O else option_map S (IndexRune s' sep)
  end.

Set Warnings "-register-all".

(** ** reader.go: the data model *)

(** A trait value, Go's [any] restricted to what the traits scanner makes.
    A [float64] is carried as its IEEE-754 bit pattern. *)
Inductive TraitValue : Type :=
  | TNil
  | TString (s : list Z)
  | TInt (i : Z)
  | TFloat (bits : Z)
  | TBool (b : bool)
  | TArray (elements : list TraitValue).

(** [AdvArgs] wraps a map that is nil ([None]) until [NewAdvArgs] sets it. *)
Record Command : Type := mkCommand {
  AdvArgs : option (gmap (list Z) (list Z));
  Name : list Z;
  Args : list (list Z)
}.

Record Script : Type := mkScript {
  Traits : option (gmap (list Z) TraitValue);
  Cmds : list Command
}.

Record mediaTitleParseResult : Type := mkMediaTitle {
  mt_advArgs : gmap (list Z) (list Z);
  mt_rawContent : list Z;
  mt_valid : bool
}.

Definition NewAdvArgs (m : gmap (list Z) (list Z)) : option (gmap (list Z) (list Z)) :=
  Some m.

(** ** reader.go: the cursor *)

(** [unread] is the suffix of the input not yet consumed from the
    [bufio.Reader]; [lastRune] is the rune an [UnreadRune] would push back
    ([bufio] keeps it only right after a successful [ReadRune]: a [Peek] and
    a [ReadRune] that hits the end both forget it). *)
Record ScriptReader : Type := mkReader {
  unread_buf : gostring;
  lastRune : option rune;
  pos : Z
}.

Definition NewParser (value : gostring) : ScriptReader :=
  {| unread_buf := value; lastRune := None; pos := 0 |}.

(** [ReadRune] on an in-memory reader fails with [io.EOF] only, which
    [read] turns into the [eof] rune; its error result is always nil and is
    left out. *)
Definition read (sr : ScriptReader) : rune * ScriptReader :=
  match unread_buf sr with
  | [] => (eof, {| unread_buf := []; lastRune := None; pos := pos sr |})
  | ch :: rest =>
      (ch, {| unread_buf := rest; lastRune := Some ch; pos := pos sr + 1 |})
  end.

Definition unread (sr : ScriptReader) : option error * ScriptReader :=
  match lastRune sr with
  | None => (Some ErrFailedUnread, sr)
  | Some ch =>
      (None, {| unread_buf := ch :: unread_buf sr; lastRune := None;
                pos := pos sr - 1 |})
  end.

Definition peek (sr : ScriptReader) : rune * option error * ScriptReader :=
  let sr' := {| unread_buf := unread_buf sr; lastRune := None; pos := pos sr |} in
  match unread_buf sr with
  | [] => (eof, None, sr')
  | r :: _ =>
      if r =? RuneError then (r, Some ErrRuneError, sr') else (r, None, sr')
  end.

Definition skip (sr : ScriptReader) : ScriptReader := snd (read sr).

Definition checkEndOfCmd (ch : rune) (sr : ScriptReader)
  : bool * option error * ScriptReader :=
  if negb (ch =? SymCmdSep) then (false, None, sr)
  else
    let '(next, err, sr) := peek sr in
    match err with
    | Some e => (false, Some e, sr)
    | None =>
        if next =? eof then (true, None, sr)
        else if next =? SymCmdSep then (true, None, skip sr)
        else (false, None, sr)
    end.

(** The error result of [parseEscapeSeq] is that of [read]: always nil. *)
Definition parseEscapeSeq (sr : ScriptReader) : gostring * ScriptReader :=
  let '(ch, sr) := read sr in
  if ch =? eof then ([], sr)
  else if ch =? chr "n" then ([10], sr)
  else if ch =? chr "r" then ([13], sr)
  else if ch =? chr "t" then ([9], sr)
  else if ch =? SymEscapeSeq then ([SymEscapeSeq], sr)
  else if ch =? SymArgDoubleQuote then ([SymArgDoubleQuote], sr)
  else if ch =? SymArgSingleQuote then ([SymArgSingleQuote], sr)
  else ([ch], sr).

(** ** expressions.go *)

Fixpoint parseExpression_loop (fuel : nat) (rawExpr : gostring) (sr : ScriptReader)
  : option (gostring * option error * ScriptReader) :=
  match fuel with
  | O => None
  | S fuel' =>
      let '(ch, sr) := read sr in
      if ch =? eof then Some (rawExpr, Some ErrUnmatchedExpression, sr)
      else if ch =? SymExpressionEnd then
        let '(next, err, sr) := peek sr in
        match err with
        | Some e => Some (rawExpr, Some e, sr)
        | None =>
            if next =? SymExpressionEnd
            then Some (rawExpr ++ TokExprEnd, None, skip sr)
            else parseExpression_loop fuel' (rawExpr ++ [ch]) sr
        end
      else parseExpression_loop fuel' (rawExpr ++ [ch]) sr
  end.

Definition fuel_of (sr : ScriptReader) : nat := S (length (unread_buf sr)).

Definition parseExpression (sr : ScriptReader)
  : option (gostring * option error * ScriptReader) :=
  let rawExpr := TokExpStart in
  let '(next, sr) := read sr in
  if negb (next =? SymExpressionStart) then
    match unread sr with
    | (Some e, sr) => Some (rawExpr, Some e, sr)
    | (None, sr) => Some ([SymExpressionStart], None, sr)
    end
  else parseExpression_loop (fuel_of sr) rawExpr sr.

Fixpoint ParseExpressions_loop (fuel : nat) (result : gostring) (sr : ScriptReader)
  : option (gostring * option error * ScriptReader) :=
  match fuel with
  | O => None
  | S fuel' =>
      let '(ch, sr) := read sr in
      if ch =? eof then Some (result, None, sr)
      else if ch =? SymEscapeSeq then
        let '(next, sr) := parseEscapeSeq sr in
        ParseExpressions_loop fuel' (result ++ next) sr
      else if ch =? SymExpressionStart then
        '(exprValue, err, sr) ← parseExpression sr;
        match err with
        | Some e => Some (result, Some e, sr)
        | None => ParseExpressions_loop fuel' (result ++ exprValue) sr
        end
      else ParseExpressions_loop fuel' (result ++ [ch]) sr
  end.

Definition ParseExpressions (sr : ScriptReader)
  : option (gostring * option error * ScriptReader) :=
  ParseExpressions_loop (fuel_of sr) [] sr.

(** ** reader.go: quoted arguments *)

Fixpoint parseQuotedArg_loop (fuel : nat) (start : rune) (arg : gostring)
    (sr : ScriptReader) : option (gostring * option error * ScriptReader) :=
  match fuel with
  | O => None
  | S fuel' =>
      let '(ch, sr) := read sr in
      if ch =? eof then Some (arg, Some ErrUnmatchedQuote, sr)
      else if ch =? SymEscapeSeq then
        let '(next, sr) := parseEscapeSeq sr in
        parseQuotedArg_loop fuel' start (arg ++ next) sr
      else if ch =? SymExpressionStart then
        '(exprValue, err, sr) ← parseExpression sr;
        match err with
        | Some e => Some (arg, Some e, sr)
        | None => parseQuotedArg_loop fuel' start (arg ++ exprValue) sr
        end
      else if ch =? start then Some (arg, None, sr)
      else parseQuotedArg_loop fuel' start (arg ++ [ch]) sr
  end.

Definition parseQuotedArg (start : rune) (sr : ScriptReader)
  : option (gostring * option error * ScriptReader) :=
  parseQuotedArg_loop (fuel_of sr) start [] sr.

(** ** The argument scanners *)

(** [encoding/json] is outside the repository: the value type that
    [json.Unmarshal] fills in and the two library calls form an interface
    the scanners are parameterised by. *)
Class JSONCodec : Type := {
  jsonValue : Type;
  json_Unmarshal : list Z -> option jsonValue;
  json_Marshal : jsonValue -> option (list Z)
}.

Section Arguments.

Context {codec : JSONCodec}.

Definition json_validate (jsonStr : gostring) : gostring * option error :=
  match json_Unmarshal jsonStr with
  | None => ([], Some ErrInvalidJSON)
  | Some jsonObj =>
      match json_Marshal jsonObj with
      | None => ([], Some ErrInvalidJSON)
      | Some normalizedJSON => (normalizedJSON, None)
      end
  end.

Fixpoint parseJSONArg_loop (fuel : nat) (braceCount : Z) (inString escaped : bool)
    (jsonBuilder : gostring) (sr : ScriptReader)
  : option (gostring * option error * ScriptReader) :=
  match fuel with
  | O => None
  | S fuel' =>
      if negb (braceCount >? 0) then
        let jsonStr := [SymJSONStart] ++ jsonBuilder in
        let '(normalizedJSON, err) := json_validate jsonStr in
        Some (normalizedJSON, err, sr)
      else
        let '(ch, sr) := read sr in
        if ch =? eof then Some ([], Some ErrInvalidJSON, sr)
        else
          let jsonBuilder := jsonBuilder ++ [ch] in
          if escaped then
            parseJSONArg_loop fuel' braceCount inString false jsonBuilder sr
          else if ch =? SymJSONEscapeSeq then
            parseJSONArg_loop fuel' braceCount inString true jsonBuilder sr
          else if ch =? SymJSONString then
            parseJSONArg_loop fuel' braceCount (negb inString) escaped jsonBuilder sr
          else if negb inString then
            if ch =? SymJSONStart then
              parseJSONArg_loop fuel' (braceCount + 1) inString escaped jsonBuilder sr
            else if ch =? SymJSONEnd then
              parseJSONArg_loop fuel' (braceCount - 1) inString escaped jsonBuilder sr
            else parseJSONArg_loop fuel' braceCount inString escaped jsonBuilder sr
          else parseJSONArg_loop fuel' braceCount inString escaped jsonBuilder sr
  end.

Definition parseJSONArg (sr : ScriptReader)
  : option (gostring * option error * ScriptReader) :=
  parseJSONArg_loop (fuel_of sr) 1 false false [] sr.

(** The closure [storeArg] of [parseAdvArgs], on the three variables it
    captures; it returns the updated map (the two strings are reset by the
    caller, as the closure does). *)
Definition storeArg (advArgs : gmap (list Z) (list Z)) (currentArg currentValue : gostring)
  : gmap (list Z) (list Z) :=
  if negb (gostring_eqb currentArg [])
  then <[currentArg := TrimSpace currentValue]> advArgs
  else advArgs.

Definition isQuote (ch : rune) : bool :=
  (ch =? SymArgDoubleQuote) || (ch =? SymArgSingleQuote).

Fixpoint parseAdvArgs_loop (fuel : nat) (advArgs : gmap (list Z) (list Z))
    (inValue : bool) (currentArg currentValue : gostring) (valueStart : Z)
    (buf : gostring) (sr : ScriptReader)
  : option (gmap (list Z) (list Z) * gostring * option error * ScriptReader) :=
  match fuel with
  | O => None
  | S fuel' =>
      let '(ch, sr) := read sr in
      if ch =? eof then
        Some (storeArg advArgs currentArg currentValue, buf, None, sr)
      else
        let buf := buf ++ [ch] in
        (* the statements after the [if inValue { switch ... }] block *)
        let rest_of_body (sr : ScriptReader) :=
          let '(eoc, err, sr) := checkEndOfCmd ch sr in
          match err with
          | Some e => Some (advArgs, buf, Some e, sr)
          | None =>
              if eoc then
                Some (storeArg advArgs currentArg currentValue, buf, None, sr)
              else if ch =? SymAdvArgSep then
                parseAdvArgs_loop fuel' (storeArg advArgs currentArg currentValue)
                  false [] [] valueStart buf sr
              else if (ch =? SymAdvArgEq) && negb inValue then
                parseAdvArgs_loop fuel' advArgs true currentArg currentValue
                  (pos sr) buf sr
              else if inValue then
                if ch =? SymExpressionStart then
                  '(exprValue, err, sr) ← parseExpression sr;
                  match err with
                  | Some e => Some (advArgs, buf, Some e, sr)
                  | None =>
                      parseAdvArgs_loop fuel' advArgs inValue currentArg
                        (currentValue ++ exprValue) valueStart buf sr
                  end
                else
                  parseAdvArgs_loop fuel' advArgs inValue currentArg
                    (currentValue ++ [ch]) valueStart buf sr
              else if negb (isAdvArgName ch) then
                Some (advArgs, buf, Some ErrInvalidAdvArgName, sr)
              else
                parseAdvArgs_loop fuel' advArgs inValue (currentArg ++ [ch])
                  currentValue valueStart buf sr
          end in
        if inValue then
          if (valueStart =? pos sr - 1) && isQuote ch then
            '(quotedValue, parseErr, sr) ← parseQuotedArg ch sr;
            match parseErr with
            | Some e => Some (advArgs, buf, Some e, sr)
            | None =>
                parseAdvArgs_loop fuel' advArgs inValue currentArg quotedValue
                  valueStart buf sr
            end
          else if (ch =? SymJSONStart) && (valueStart =? pos sr - 1) then
            '(jsonValue, parseErr, sr) ← parseJSONArg sr;
            match parseErr with
            | Some e => Some (advArgs, buf, Some e, sr)
            | None =>
                parseAdvArgs_loop fuel' advArgs inValue currentArg jsonValue
                  valueStart buf sr
            end
          else if ch =? SymEscapeSeq then
            let '(nextRaw, peekErr, sr) := peek sr in
            match peekErr with
            | Some e => Some (advArgs, buf, Some e, sr)
            | None =>
                let '(next, sr) := parseEscapeSeq sr in
                if gostring_eqb next [] then
                  parseAdvArgs_loop fuel' advArgs inValue currentArg
                    (currentValue ++ [SymEscapeSeq]) valueStart buf sr
                else
                  parseAdvArgs_loop fuel' advArgs inValue currentArg
                    (currentValue ++ next) valueStart (buf ++ [nextRaw]) sr
            end
          else rest_of_body sr
        else rest_of_body sr
  end.

Definition parseAdvArgs (sr : ScriptReader)
  : option (gmap (list Z) (list Z) * gostring * option error * ScriptReader) :=
  parseAdvArgs_loop (fuel_of sr) ∅ false [] [] (-1) [] sr.

(** The inner [for] of [parseInputMacroArg] that collects [{...}]. *)
Fixpoint inputMacroExt_loop (fuel : nat) (extBuilder : gostring) (sr : ScriptReader)
  : option (gostring * option error * ScriptReader) :=
  match fuel with
  | O => None
  | S fuel' =>
      let '(next, sr) := read sr in
      if next =? eof then Some (extBuilder, Some ErrUnmatchedInputMacroExt, sr)
      else
        let extBuilder := extBuilder ++ [next] in
        if next =? SymInputMacroExtEnd then Some (extBuilder, None, sr)
        else inputMacroExt_loop fuel' extBuilder sr
  end.

Fixpoint parseInputMacroArg_loop (fuel : nat) (args : list (list Z)) (sr : ScriptReader)
  : option (list (list Z) * gmap (list Z) (list Z) * option error * ScriptReader) :=
  match fuel with
  | O => None
  | S fuel' =>
      let '(ch, sr) := read sr in
      if ch =? eof then Some (args, ∅, None, sr)
      else if ch =? SymInputMacroEscapeSeq then
        let '(next, sr) := read sr in
        if next =? eof then Some (args ++ [[SymInputMacroEscapeSeq]], ∅, None, sr)
        else parseInputMacroArg_loop fuel' (args ++ [[next]]) sr
      else
        let '(eoc, err, sr) := checkEndOfCmd ch sr in
        match err with
        | Some e => Some (args, ∅, Some e, sr)
        | None =>
            if eoc then Some (args, ∅, None, sr)
            else if ch =? SymInputMacroExtStart then
              '(extBuilder, err, sr) ← inputMacroExt_loop (fuel_of sr) [] sr;
              match err with
              | Some e => Some (args, ∅, Some e, sr)
              | None =>
                  let extName := [ch] ++ extBuilder in
                  parseInputMacroArg_loop fuel' (args ++ [extName]) sr
              end
            else if ch =? SymAdvArgStart then
              '(newAdvArgs, buf, err, sr) ← parseAdvArgs sr;
              match err with
              | Some e =>
                  if errors_Is e ErrInvalidAdvArgName then
                    parseInputMacroArg_loop fuel'
                      (args ++ map (fun ch => [ch]) ([SymAdvArgStart] ++ buf)) sr
                  else Some (args, ∅, Some e, sr)
              | None => Some (args, newAdvArgs, None, sr)
              end
            else parseInputMacroArg_loop fuel' (args ++ [[ch]]) sr
        end
  end.

Definition parseInputMacroArg (sr : ScriptReader)
  : option (list (list Z) * gmap (list Z) (list Z) * option error * ScriptReader) :=
  parseInputMacroArg_loop (fuel_of sr) [] sr.

(** The statements of [parseArgs] after [argsLoop]. *)
Definition parseArgs_finish (onlyAdvArgs : bool) (args : list (list Z))
    (currentArg : gostring) : list (list Z) :=
  let currentArg := TrimSpace currentArg in
  if negb onlyAdvArgs then args ++ [currentArg]
  else if negb (gostring_eqb currentArg []) then args ++ [currentArg]
  else args.

Fixpoint parseArgs_loop (fuel : nat) (onlyAdvArgs onlyOneArg : bool)
    (args : list (list Z)) (currentArg : gostring) (argStart : Z) (sr : ScriptReader)
  : option (list (list Z) * gmap (list Z) (list Z) * option error * ScriptReader) :=
  match fuel with
  | O => None
  | S fuel' =>
      let '(ch, sr) := read sr in
      if ch =? eof then
        Some (parseArgs_finish onlyAdvArgs args currentArg, ∅, None, sr)
      else if (argStart =? pos sr - 1) && isQuote ch then
        '(quotedArg, quotedErr, sr) ← parseQuotedArg ch sr;
        match quotedErr with
        | Some e => Some (args, ∅, Some e, sr)
        | None =>
            parseArgs_loop fuel' onlyAdvArgs onlyOneArg args quotedArg argStart sr
        end
      else if (argStart =? pos sr - 1) && (ch =? SymJSONStart) then
        '(jsonArg, jsonErr, sr) ← parseJSONArg sr;
        match jsonErr with
        | Some e => Some (args, ∅, Some e, sr)
        | None =>
            parseArgs_loop fuel' onlyAdvArgs onlyOneArg args jsonArg argStart sr
        end
      else if ch =? SymEscapeSeq then
        let '(next, sr) := parseEscapeSeq sr in
        if gostring_eqb next [] then
          parseArgs_loop fuel' onlyAdvArgs onlyOneArg args
            (currentArg ++ [SymEscapeSeq]) argStart sr
        else
          parseArgs_loop fuel' onlyAdvArgs onlyOneArg args (currentArg ++ next)
            argStart sr
      else
        let '(eoc, err, sr) := checkEndOfCmd ch sr in
        match err with
        | Some e => Some (args, ∅, Some e, sr)
        | None =>
            if eoc then
              Some (parseArgs_finish onlyAdvArgs args currentArg, ∅, None, sr)
            else if negb onlyOneArg && (ch =? SymArgSep) then
              parseArgs_loop fuel' onlyAdvArgs onlyOneArg
                (args ++ [TrimSpace currentArg]) [] (pos sr) sr
            else if ch =? SymAdvArgStart then
              '(newAdvArgs, buf, err, sr) ← parseAdvArgs sr;
              match err with
              | Some e =>
                  if errors_Is e ErrInvalidAdvArgName then
                    parseArgs_loop fuel' onlyAdvArgs onlyOneArg args
                      (currentArg ++ [SymAdvArgStart] ++ buf) argStart sr
                  else Some (args, ∅, Some e, sr)
              | None =>
                  Some (parseArgs_finish onlyAdvArgs args currentArg,
                        newAdvArgs, None, sr)
              end
            else if ch =? SymExpressionStart then
              '(exprValue, err, sr) ← parseExpression sr;
              match err with
              | Some e => Some (args, ∅, Some e, sr)
              | None =>
                  parseArgs_loop fuel' onlyAdvArgs onlyOneArg args
                    (currentArg ++ exprValue) argStart sr
              end
            else
              parseArgs_loop fuel' onlyAdvArgs onlyOneArg args
                (currentArg ++ [ch]) argStart sr
        end
  end.

Definition parseArgs (prefix : gostring) (onlyAdvArgs onlyOneArg : bool)
    (sr : ScriptReader)
  : option (list (list Z) * gmap (list Z) (list Z) * option error * ScriptReader) :=
  parseArgs_loop (fuel_of sr) onlyAdvArgs onlyOneArg [] prefix (pos sr) sr.

(** ** The parser file *)

(** The validation at the end of [parseMediaTitleSyntax]. *)
Definition mediaTitle_valid (rawContent : gostring) : bool :=
  match IndexRune rawContent SymMediaTitleSep with
  | None => false
  | Some sepIdx =>
      let systemID := TrimSpace (firstn sepIdx rawContent) in
      let gameName := TrimSpace (skipn (S sepIdx) rawContent) in
      if gostring_eqb systemID [] || gostring_eqb gameName [] then false
      else true
  end.

Definition mediaTitle_finish (advArgs : gmap (list Z) (list Z))
    (content : gostring) : mediaTitleParseResult :=
  let rawContent := TrimSpace content in
  {| mt_advArgs := advArgs; mt_rawContent := rawContent;
     mt_valid := mediaTitle_valid rawContent |}.

Fixpoint parseMediaTitleSyntax_loop (fuel : nat) (content : gostring)
    (sr : ScriptReader)
  : option (option mediaTitleParseResult * option error * ScriptReader) :=
  match fuel with
  | O => None
  | S fuel' =>
      let '(ch, sr) := read sr in
      if ch =? eof then Some (Some (mediaTitle_finish ∅ content), None, sr)
      else if ch =? SymEscapeSeq then
        let '(next, sr) := parseEscapeSeq sr in
        if gostring_eqb next [] then
          parseMediaTitleSyntax_loop fuel' (content ++ [SymEscapeSeq]) sr
        else parseMediaTitleSyntax_loop fuel' (content ++ next) sr
      else
        let '(eoc, checkErr, sr) := checkEndOfCmd ch sr in
        match checkErr with
        | Some e => Some (None, Some e, sr)
        | None =>
            if eoc then Some (Some (mediaTitle_finish ∅ content), None, sr)
            else if ch =? SymAdvArgStart then
              '(parsedAdvArgs, buf, err, sr) ← parseAdvArgs sr;
              match err with
              | Some e =>
                  if errors_Is e ErrInvalidAdvArgName then
                    parseMediaTitleSyntax_loop fuel'
                      (content ++ [SymAdvArgStart] ++ buf) sr
                  else Some (None, Some e, sr)
              | None =>
                  Some (Some (mediaTitle_finish parsedAdvArgs content), None, sr)
              end
            else parseMediaTitleSyntax_loop fuel' (content ++ [ch]) sr
        end
  end.

Definition parseMediaTitleSyntax (sr : ScriptReader)
  : option (option mediaTitleParseResult * option error * ScriptReader) :=
  parseMediaTitleSyntax_loop (fuel_of sr) [] sr.

(** [len(m) > 0] for a map. *)
Definition nonempty_map {V} (m : gmap (list Z) V) : bool :=
  negb (Nat.eqb (size m) 0).

(** The statements of [parseCommand] after [commandLoop]. *)
Definition parseCommand_finish (cmd : Command) (buf : gostring)
  : Command * gostring * option error :=
  if gostring_eqb (Name cmd) [] then (cmd, buf, Some ErrEmptyCmdName)
  else
    ({| AdvArgs := AdvArgs cmd; Name := ToLower (Name cmd); Args := Args cmd |},
     buf, None).

Definition with_args (cmd : Command) (args : list (list Z))
    (advArgs : gmap (list Z) (list Z)) : Command :=
  {| AdvArgs := if nonempty_map advArgs then NewAdvArgs advArgs else AdvArgs cmd;
     Name := Name cmd;
     Args := match args with [] => Args cmd | _ => args end |}.

Fixpoint parseCommand_loop (fuel : nat) (onlyOneArg : bool) (cmd : Command)
    (buf : gostring) (sr : ScriptReader)
  : option (Command * gostring * option error * ScriptReader) :=
  match fuel with
  | O => None
  | S fuel' =>
      let finish cmd buf sr :=
        let '(cmd, buf, err) := parseCommand_finish cmd buf in
        Some (cmd, buf, err, sr) in
      let '(ch, sr) := read sr in
      if ch =? eof then finish cmd buf sr
      else
        let buf := buf ++ [ch] in
        let '(eoc, err, sr) := checkEndOfCmd ch sr in
        match err with
        | Some e => Some (cmd, buf, Some e, sr)
        | None =>
            if eoc then finish cmd buf sr
            else if isCmdName ch then
              parseCommand_loop fuel' onlyOneArg
                {| AdvArgs := AdvArgs cmd; Name := Name cmd ++ [ch];
                   Args := Args cmd |} buf sr
            else if (ch =? SymArgStart) || (ch =? SymAdvArgStart) then
              if gostring_eqb (Name cmd) [] then finish cmd buf sr
              else
                let '(unreadErr, onlyAdvArgs, sr) :=
                  if ch =? SymAdvArgStart then
                    let '(err, sr) := unread sr in (err, true, sr)
                  else (None, false, sr) in
                match unreadErr with
                | Some e => Some (cmd, buf, Some e, sr)
                | None =>
                    '(args, advArgs, err, sr) ←
                      (if isInputMacroCmd (Name cmd) then parseInputMacroArg sr
                       else parseArgs [] onlyAdvArgs onlyOneArg sr);
                    match err with
                    | Some e => Some (cmd, buf, Some e, sr)
                    | None => finish (with_args cmd args advArgs) buf sr
                    end
                end
            else Some (cmd, buf, Some ErrInvalidCmdName, sr)
        end
  end.

Definition parseCommand (onlyOneArg : bool) (sr : ScriptReader)
  : option (Command * gostring * option error * ScriptReader) :=
  parseCommand_loop (fuel_of sr) onlyOneArg
    {| AdvArgs := None; Name := []; Args := [] |} [] sr.

(** The closure [parseErr] of [ParseScript]. *)
Definition parseErr (sr : ScriptReader) (err : error) : error :=
  ParseErrorAt (pos sr) err.

(** The closure [parseAutoLaunchCmd] of [ParseScript]; the script it
    appends to is passed in and handed back. *)
Definition parseAutoLaunchCmd (script : Script) (prefix : gostring)
    (sr : ScriptReader) : option (Script * option error * ScriptReader) :=
  '(args, advArgs, err, sr) ← parseArgs prefix false true sr;
  match err with
  | Some e => Some (script, Some (parseErr sr e), sr)
  | None =>
      let cmd :=
        {| AdvArgs := if nonempty_map advArgs then NewAdvArgs advArgs else None;
           Name := ZapScriptCmdLaunch; Args := args |} in
      Some ({| Traits := Traits script; Cmds := Cmds script ++ [cmd] |}, None, sr)
  end.

Definition emptyScript : Script := {| Traits := None; Cmds := [] |}.

Definition appendCmd (script : Script) (cmd : Command) : Script :=
  {| Traits := Traits script; Cmds := Cmds script ++ [cmd] |}.

Fixpoint ParseScript_loop (fuel : nat) (script : Script) (sr : ScriptReader)
  : option (Script * option error * ScriptReader) :=
  match fuel with
  | O => None
  | S fuel' =>
      (* [parseAutoLaunchCmd prefix] followed by [continue] *)
      let autoLaunch prefix sr :=
        '(script, autoErr, sr) ← parseAutoLaunchCmd script prefix sr;
        match autoErr with
        | Some e => Some (script, Some (parseErr sr e), sr)
        | None => ParseScript_loop fuel' script sr
        end in
      let '(ch, sr) := read sr in
      if ch =? eof then
        match Cmds script with
        | [] => Some (script, Some ErrEmptyZapScript, sr)
        | _ => Some (script, None, sr)
        end
      else if isWhitespace ch then ParseScript_loop fuel' script sr
      else if (pos sr =? 1) && (ch =? SymJSONStart) then
        Some (emptyScript, Some ErrInvalidJSON, sr)
      else if ch =? SymMediaTitleStart then
        '(result, err, sr) ← parseMediaTitleSyntax sr;
        match err, result with
        | Some e, _ => Some (script, Some (parseErr sr e), sr)
        | None, None => None (* a nil result always comes with an error *)
        | None, Some result =>
            if negb (mt_valid result) then
              autoLaunch ([SymMediaTitleStart] ++ mt_rawContent result) sr
            else
              let cmd :=
                {| AdvArgs := if nonempty_map (mt_advArgs result)
                              then NewAdvArgs (mt_advArgs result) else None;
                   Name := ZapScriptCmdLaunchTitle;
                   Args := [mt_rawContent result] |} in
              ParseScript_loop fuel' (appendCmd script cmd) sr
        end
      else if ch =? SymCmdStart then
        let '(next, err, sr) := peek sr in
        match err with
        | Some e => Some (script, Some (parseErr sr e), sr)
        | None =>
            if next =? eof then Some (script, Some ErrUnexpectedEOF, sr)
            else if next =? SymCmdStart then
              let sr := skip sr in
              '(cmd, buf, err, sr) ← parseCommand false sr;
              match err with
              | Some e =>
                  if errors_Is e ErrInvalidCmdName then
                    autoLaunch ([SymCmdStart; SymCmdStart] ++ buf) sr
                  else Some (script, Some (parseErr sr e), sr)
              | None => ParseScript_loop fuel' (appendCmd script cmd) sr
              end
            else autoLaunch [SymCmdStart] sr
        end
      else
        let '(err, sr) := unread sr in
        match err with
        | Some e => Some (script, Some (parseErr sr e), sr)
        | None => autoLaunch [] sr
        end
  end.

Definition ParseScript (sr : ScriptReader)
  : option (Script * option error * ScriptReader) :=
  ParseScript_loop (fuel_of sr) emptyScript sr.

End Arguments.

(** ** The traits file *)

(** Modelled from the spec: the traits file uses four symbols and a
    character class whose declarations are not in the sources at hand.
    The spec gives [#] as the trait sigil, [[], []] and [,] as the array
    delimiters, and an ASCII letter as the only valid first character of a
    trait key. *)
Definition SymTraitsStart : rune := Eval cbv in chr "#".
Definition SymArrayStart : rune := Eval cbv in chr "[".
Definition SymArrayEnd : rune := Eval cbv in chr "]".
Definition SymArraySep : rune := Eval cbv in chr ",".

(** Modelled from the spec: the character class of the first character of
    a trait key, an ASCII letter; its declaration is not in the sources at
    hand. *)
Definition isAdvArgNameStart (ch : rune) : bool :=
  in_range (chr "a") (chr "z") ch || in_range (chr "A") (chr "Z") ch.

(** [strconv.ParseInt s 10 64] of the Go library: an optional sign, then
    one or more decimal digits, the value within the int64 range. *)
Definition isDigit (c : rune) : bool := in_range (chr "0") (chr "9") c.

Fixpoint decimal_value (acc : Z) (s : gostring) : Z :=
  match s with
  | [] => acc
  | c :: s' => decimal_value (acc * 10 + (c - chr "0")) s'
  end.

Definition ParseUint_digits (s : gostring) : option Z :=
  match s with
  | [] => None
  | _ => if forallb isDigit s then Some (decimal_value 0 s) else None
  end.

Definition ParseInt (s : gostring) : option Z :=
  let cutoff := 2 ^ 63 in
  match s with
  | [] => None
  | c :: s' =>
      let neg := c =? chr "-" in
      let digits := if (c =? chr "+") || neg then s' else s in
      match ParseUint_digits digits with
      | None => None
      | Some un =>
          if negb neg && (cutoff <=? un) then None
          else if neg && (cutoff <? un) then None
          else Some (if neg then - un else un)
      end
  end.

Record traitsParseResult : Type := mkTraits {
  tr_traits : gmap (list Z) TraitValue;
  tr_fallback : list Z;
  tr_invalidKeyName : list Z;
  tr_invalidKey : bool
}.

(** [strconv.ParseFloat s 64] of the Go library, giving the bit pattern
    of the parsed [float64], or [None] when it reports an error. *)
Class FloatParser : Type := {
  ParseFloat : list Z -> option Z
}.

Section Traits.

Context {floats : FloatParser}.

Definition inferType (value : gostring) (quoted : bool) : TraitValue :=
  if quoted then TString value
  else if gostring_eqb value [] then TString []
  else if gostring_eqb value (runes "true") then TBool true
  else if gostring_eqb value (runes "false") then TBool false
  else
    match ParseInt value with
    | Some i => TInt i
    | None =>
        match ParseFloat value with
        | Some f => TFloat f
        | None => TString value
        end
    end.

Fixpoint consumeToEndOfCmd_loop (fuel : nat) (buf : gostring) (sr : ScriptReader)
  : option (gostring * option error * ScriptReader) :=
  match fuel with
  | O => None
  | S fuel' =>
      let '(ch, sr) := read sr in
      if ch =? eof then Some (buf, None, sr)
      else
        let '(eoc, err, sr) := checkEndOfCmd ch sr in
        match err with
        | Some e => Some (buf, Some e, sr)
        | None =>
            if eoc then Some (buf, None, sr)
            else consumeToEndOfCmd_loop fuel' (buf ++ [ch]) sr
        end
  end.

Definition consumeToEndOfCmd (sr : ScriptReader)
  : option (gostring * option error * ScriptReader) :=
  consumeToEndOfCmd_loop (fuel_of sr) [] sr.

(** The loop over a quoted value; [parseTraitValue] and
    [parseArrayElement] carry the same loop, statement for statement.
    The result is (value, raw text, error). *)
Fixpoint quotedValue_loop (fuel : nat) (quoteChar : rune)
    (rawBuf valueBuf : gostring) (sr : ScriptReader)
  : option (gostring * gostring * option error * ScriptReader) :=
  match fuel with
  | O => None
  | S fuel' =>
      let '(ch, sr) := read sr in
      if ch =? eof then Some ([], rawBuf, Some ErrUnmatchedQuote, sr)
      else
        let rawBuf := rawBuf ++ [ch] in
        if ch =? SymEscapeSeq then
          let '(nextRaw, peekErr, sr) := peek sr in
          match peekErr with
          | Some e => Some ([], rawBuf, Some e, sr)
          | None =>
              let '(escaped, sr) := parseEscapeSeq sr in
              if gostring_eqb escaped [] then
                quotedValue_loop fuel' quoteChar rawBuf
                  (valueBuf ++ [SymEscapeSeq]) sr
              else
                quotedValue_loop fuel' quoteChar (rawBuf ++ [nextRaw])
                  (valueBuf ++ escaped) sr
          end
        else if ch =? quoteChar then Some (valueBuf, rawBuf, None, sr)
        else quotedValue_loop fuel' quoteChar rawBuf (valueBuf ++ [ch]) sr
  end.

(** The loop over an unquoted value, up to a character of [stop] (not
    consumed) or the end of the input. *)
Fixpoint unquotedValue_loop (fuel : nat) (stop : rune -> bool)
    (rawBuf valueBuf : gostring) (sr : ScriptReader)
  : option (gostring * gostring * option error * ScriptReader) :=
  match fuel with
  | O => None
  | S fuel' =>
      let '(next, peekErr, sr) := peek sr in
      match peekErr with
      | Some e => Some ([], rawBuf, Some e, sr)
      | None =>
          if (next =? eof) || stop next then Some (valueBuf, rawBuf, None, sr)
          else
            let '(ch, sr) := read sr in
            let rawBuf := rawBuf ++ [ch] in
            if ch =? SymEscapeSeq then
              let '(nextRaw, peekErr, sr) := peek sr in
              match peekErr with
              | Some e => Some ([], rawBuf, Some e, sr)
              | None =>
                  let '(escaped, sr) := parseEscapeSeq sr in
                  if gostring_eqb escaped [] then
                    unquotedValue_loop fuel' stop rawBuf
                      (valueBuf ++ [SymEscapeSeq]) sr
                  else
                    unquotedValue_loop fuel' stop (rawBuf ++ [nextRaw])
                      (valueBuf ++ escaped) sr
              end
            else unquotedValue_loop fuel' stop rawBuf (valueBuf ++ [ch]) sr
      end
  end.

Definition arrayElementStop (next : rune) : bool :=
  (next =? SymArraySep) || (next =? SymArrayEnd) || isWhitespace next.

Definition parseArrayElement (sr : ScriptReader)
  : option (TraitValue * gostring * option error * ScriptReader) :=
  let '(first, err, sr) := peek sr in
  match err with
  | Some e => Some (TString [], [], Some e, sr)
  | None =>
      if isQuote first then
        let '(ch, sr) := read sr in
        '(value, raw, err, sr) ← quotedValue_loop (fuel_of sr) ch [ch] [] sr;
        Some (TString value, raw, err, sr)
      else
        '(value, raw, err, sr) ←
          unquotedValue_loop (fuel_of sr) arrayElementStop [] [] sr;
        match err with
        | Some e => Some (TString [], raw, Some e, sr)
        | None => Some (inferType (TrimSpace value) false, raw, None, sr)
        end
  end.

(** The two whitespace-skipping loops of [parseTraitArray]. *)
Fixpoint skipArrayWhitespace (fuel : nat) (rawBuf : gostring) (sr : ScriptReader)
  : option (gostring * option error * ScriptReader) :=
  match fuel with
  | O => None
  | S fuel' =>
      let '(next, peekErr, sr) := peek sr in
      match peekErr with
      | Some e => Some (rawBuf, Some e, sr)
      | None =>
          if negb (isWhitespace next) then Some (rawBuf, None, sr)
          else
            let '(ch, sr) := read sr in
            skipArrayWhitespace fuel' (rawBuf ++ [ch]) sr
      end
  end.

Fixpoint parseTraitArray_loop (fuel : nat) (rawBuf : gostring)
    (elements : list TraitValue) (sr : ScriptReader)
  : option (TraitValue * gostring * option error * ScriptReader) :=
  match fuel with
  | O => None
  | S fuel' =>
      '(rawBuf, err, sr) ← skipArrayWhitespace (fuel_of sr) rawBuf sr;
      match err with
      | Some e => Some (TNil, rawBuf, Some e, sr)
      | None =>
          let '(next, peekErr, sr) := peek sr in
          match peekErr with
          | Some e => Some (TNil, rawBuf, Some e, sr)
          | None =>
              if next =? eof then
                Some (TNil, rawBuf, Some ErrUnmatchedArrayBracket, sr)
              else if next =? SymArrayEnd then
                let '(ch, sr) := read sr in
                Some (TArray elements, rawBuf ++ [ch], None, sr)
              else
                '(elemValue, elemRaw, parseErr, sr) ← parseArrayElement sr;
                match parseErr with
                | Some e => Some (TNil, rawBuf ++ elemRaw, Some e, sr)
                | None =>
                    let rawBuf := rawBuf ++ elemRaw in
                    let elements := elements ++ [elemValue] in
                    '(rawBuf, err, sr) ← skipArrayWhitespace (fuel_of sr) rawBuf sr;
                    match err with
                    | Some e => Some (TNil, rawBuf, Some e, sr)
                    | None =>
                        let '(next, peekErr, sr) := peek sr in
                        match peekErr with
                        | Some e => Some (TNil, rawBuf, Some e, sr)
                        | None =>
                            if next =? eof then
                              Some (TNil, rawBuf, Some ErrUnmatchedArrayBracket, sr)
                            else if next =? SymArrayEnd then
                              let '(ch, sr) := read sr in
                              Some (TArray elements, rawBuf ++ [ch], None, sr)
                            else if next =? SymArraySep then
                              let '(ch, sr) := read sr in
                              parseTraitArray_loop fuel' (rawBuf ++ [ch]) elements sr
                            else
                              Some (TNil, rawBuf, Some ErrUnmatchedArrayBracket, sr)
                        end
                    end
                end
          end
      end
  end.

Definition parseTraitArray (sr : ScriptReader)
  : option (TraitValue * gostring * option error * ScriptReader) :=
  let '(ch, sr) := read sr in
  parseTraitArray_loop (fuel_of sr) [ch] [] sr.

Definition traitValueStop (next : rune) : bool :=
  (next =? SymCmdSep) || isWhitespace next || (next =? SymTraitsStart).

Definition parseTraitValue (sr : ScriptReader)
  : option (TraitValue * gostring * option error * ScriptReader) :=
  let quoted := false in
  let '(first, err, sr) := peek sr in
  match err with
  | Some e => Some (TString [], [], Some e, sr)
  | None =>
      if isQuote first then
        let '(ch, sr) := read sr in
        '(value, raw, err, sr) ← quotedValue_loop (fuel_of sr) ch [ch] [] sr;
        Some (TString value, raw, err, sr)
      else if first =? SymArrayStart then parseTraitArray sr
      else
        '(value, raw, err, sr) ←
          unquotedValue_loop (fuel_of sr) traitValueStop [] [] sr;
        match err with
        | Some e => Some (TString [], raw, Some e, sr)
        | None => Some (inferType value quoted, raw, None, sr)
        end
  end.

(** The loop reading the rest of a trait key. *)
Fixpoint traitKey_loop (fuel : nat) (fallbackBuf keySb : gostring) (sr : ScriptReader)
  : option (gostring * gostring * option error * ScriptReader) :=
  match fuel with
  | O => None
  | S fuel' =>
      let '(next, peekErr, sr) := peek sr in
      match peekErr with
      | Some e => Some (fallbackBuf, keySb, Some e, sr)
      | None =>
          if (next =? eof) || negb (isAdvArgName next)
          then Some (fallbackBuf, keySb, None, sr)
          else
            let '(ch, sr) := read sr in
            traitKey_loop fuel' (fallbackBuf ++ [ch]) (keySb ++ ToLower [ch]) sr
      end
  end.

(** How the loop that looks for the next trait ends: with the final
    result of [parseTraitsSyntax], or by going round the outer loop. *)
Inductive nextTrait : Type :=
  | ReturnResult (err : option error)
  | NextTrait (fallbackBuf : list Z).

Fixpoint nextTrait_loop (fuel : nat) (fallbackBuf : gostring) (sr : ScriptReader)
  : option (nextTrait * ScriptReader) :=
  match fuel with
  | O => None
  | S fuel' =>
      let '(next, peekErr, sr) := peek sr in
      match peekErr with
      | Some e => Some (ReturnResult (Some e), sr)
      | None =>
          if next =? eof then Some (ReturnResult None, sr)
          else if next =? SymCmdSep then
            let '(ch, sr) := read sr in
            let '(eoc, eocErr, sr) := checkEndOfCmd ch sr in
            match eocErr with
            | Some e => Some (ReturnResult (Some e), sr)
            | None =>
                if eoc then Some (ReturnResult None, sr)
                else nextTrait_loop fuel' (fallbackBuf ++ [ch]) sr
            end
          else if isWhitespace next then
            let '(ch, sr) := read sr in
            nextTrait_loop fuel' (fallbackBuf ++ [ch]) sr
          else if next =? SymTraitsStart then
            let '(ch, sr) := read sr in
            Some (NextTrait (fallbackBuf ++ [ch]), sr)
          else Some (ReturnResult None, sr)
      end
  end.

Definition traits_ok (traits : gmap (list Z) TraitValue) : traitsParseResult :=
  {| tr_traits := traits; tr_fallback := []; tr_invalidKeyName := [];
     tr_invalidKey := false |}.

Fixpoint parseTraitsSyntax_loop (fuel : nat) (traits : gmap (list Z) TraitValue)
    (fallbackBuf : gostring) (sr : ScriptReader)
  : option (option traitsParseResult * option error * ScriptReader) :=
  match fuel with
  | O => None
  | S fuel' =>
      let '(ch, sr) := read sr in
      if ch =? eof then Some (Some (traits_ok traits), None, sr)
      else
        let fallbackBuf := fallbackBuf ++ [ch] in
        if negb (isAdvArgNameStart ch) then
          '(rest, consumeErr, sr) ← consumeToEndOfCmd sr;
          match consumeErr with
          | Some e => Some (None, Some e, sr)
          | None =>
              let fallbackBuf := fallbackBuf ++ rest in
              Some (Some {| tr_traits := traits; tr_fallback := fallbackBuf;
                            tr_invalidKeyName := fallbackBuf;
                            tr_invalidKey := true |}, None, sr)
          end
        else
          '(fallbackBuf, keySb, peekErr, sr) ←
            traitKey_loop (fuel_of sr) fallbackBuf [] sr;
          match peekErr with
          | Some e => Some (None, Some e, sr)
          | None =>
              let key := ToLower [ch] ++ keySb in
              let '(next, peekErr, sr) := peek sr in
              match peekErr with
              | Some e => Some (None, Some e, sr)
              | None =>
                  (* the statements after the [switch] on [next] *)
                  let store value fallbackBuf sr :=
                    let traits := <[key := value]> traits in
                    '(outcome, sr) ← nextTrait_loop (fuel_of sr) fallbackBuf sr;
                    match outcome with
                    | ReturnResult (Some e) => Some (None, Some e, sr)
                    | ReturnResult None => Some (Some (traits_ok traits), None, sr)
                    | NextTrait fallbackBuf =>
                        parseTraitsSyntax_loop fuel' traits fallbackBuf sr
                    end in
                  if next =? SymAdvArgEq then
                    let '(ch, sr) := read sr in
                    let fallbackBuf := fallbackBuf ++ [ch] in
                    '(parsedValue, valueStr, parseErr, sr) ← parseTraitValue sr;
                    match parseErr with
                    | Some e => Some (None, Some e, sr)
                    | None => store parsedValue (fallbackBuf ++ valueStr) sr
                    end
                  else if (next =? eof) || (next =? SymCmdSep)
                          || (next =? SymTraitsStart) || isWhitespace next then
                    store (TBool true) fallbackBuf sr
                  else
                    '(rest, consumeErr, sr) ← consumeToEndOfCmd sr;
                    match consumeErr with
                    | Some e => Some (None, Some e, sr)
                    | None =>
                        let fallbackBuf := fallbackBuf ++ rest in
                        Some (Some {| tr_traits := traits;
                                      tr_fallback := fallbackBuf;
                                      tr_invalidKeyName := key;
                                      tr_invalidKey := true |}, None, sr)
                    end
              end
          end
  end.

Definition parseTraitsSyntax (sr : ScriptReader)
  : option (option traitsParseResult * option error * ScriptReader) :=
  parseTraitsSyntax_loop (fuel_of sr) ∅ [SymTraitsStart] sr.

End Traits.

(** ** expressions.go: evaluation *)

Inductive PostArgPartType : Type :=
  | ArgPartTypeUnknown
  | ArgPartTypeString
  | ArgPartTypeExpression.

Record PostArgPart : Type := mkPart {
  Value : list Z;
  Type_ : PostArgPartType
}.

(** What [expr.Eval] hands back, seen through the type switch of
    [EvalExpressions]: a string, a bool, an int, a float64 (its bit
    pattern), or a value of any other type. *)
Inductive exprOutput : Type :=
  | OutString (s : list Z)
  | OutBool (b : bool)
  | OutInt (i : Z)
  | OutFloat (bits : Z)
  | OutOther.

(** The expression library ([github.com/expr-lang/expr]) and
    [strconv.FormatFloat v 'f' -1 64] are outside the repository. *)
Class ExprEngine : Type := {
  exprEnv : Type;
  expr_Eval : list Z -> exprEnv -> option exprOutput;
  FormatFloat : Z -> list Z
}.

(** The errors of [EvalExpressions]: an error of the scan, the wrapped
    error of [expr.Eval] (with the expression text), or the wrapped
    [ErrBadExpressionReturn]. *)
Inductive evalError : Type :=
  | EvalScanError (e : error)
  | EvalFailed (expression : list Z)
  | EvalBadReturn.

(** [strconv.FormatBool]. *)
Definition FormatBool (b : bool) : list Z :=
  if b then runes "true" else runes "false".

(** [strconv.Itoa]: the decimal digits, with [-] in front of a negative
    number. *)
Definition Itoa (i : Z) : list Z :=
  runes (NilZero.string_of_int (Z.to_int i)).

(** [utf8.DecodeRuneInString] of the two tokens. *)
Definition exprStartToken : Z := 0xE000.
Definition exprEndToken : Z := 0xE001.

Fixpoint parsePostExpression_loop (fuel : nat) (rawExpr : list Z)
    (sr : ScriptReader) : option (list Z * option error * ScriptReader) :=
  match fuel with
  | O => None
  | S fuel' =>
      let '(ch, sr) := read sr in
      if ch =? eof then Some (rawExpr, Some ErrUnmatchedExpression, sr)
      else if ch =? exprEndToken then Some (rawExpr, None, sr)
      else parsePostExpression_loop fuel' (rawExpr ++ [ch]) sr
  end.

Definition parsePostExpression (sr : ScriptReader)
  : option (list Z * option error * ScriptReader) :=
  parsePostExpression_loop (fuel_of sr) [] sr.

Definition emptyPart : PostArgPart :=
  {| Value := []; Type_ := ArgPartTypeUnknown |}.

Definition isUnknownPart (part : PostArgPart) : bool :=
  match Type_ part with
  | ArgPartTypeUnknown => true
  | _ => false
  end.

(** The first loop of [EvalExpressions]: the input cut into parts. *)
Fixpoint EvalExpressions_scan (fuel : nat) (parts : list PostArgPart)
    (currentPart : PostArgPart) (sr : ScriptReader)
  : option (list PostArgPart * option error * ScriptReader) :=
  match fuel with
  | O => None
  | S fuel' =>
      let '(ch, sr) := read sr in
      if ch =? eof then
        Some (if negb (isUnknownPart currentPart)
              then parts ++ [currentPart] else parts, None, sr)
      else if ch =? exprStartToken then
        let parts :=
          if negb (isUnknownPart currentPart)
          then parts ++ [currentPart] else parts in
        '(exprValue, err, sr) ← parsePostExpression sr;
        match err with
        | Some e => Some ([], Some e, sr)
        | None =>
            EvalExpressions_scan fuel'
              (parts ++ [{| Value := exprValue;
                            Type_ := ArgPartTypeExpression |}])
              emptyPart sr
        end
      else
        EvalExpressions_scan fuel' parts
          {| Value := Value currentPart ++ [ch]; Type_ := ArgPartTypeString |}
          sr
  end.

Section Evaluation.

Context {engine : ExprEngine}.

(** The second loop of [EvalExpressions]: the parts written out. *)
Fixpoint EvalExpressions_write (env : exprEnv) (parts : list PostArgPart)
    (result : list Z) : list Z * option evalError :=
  match parts with
  | [] => (result, None)
  | part :: parts' =>
      match Type_ part with
      | ArgPartTypeExpression =>
          match expr_Eval (Value part) env with
          | None => ([], Some (EvalFailed (Value part)))
          | Some (OutString v) => EvalExpressions_write env parts' (result ++ v)
          | Some (OutBool v) =>
              EvalExpressions_write env parts' (result ++ FormatBool v)
          | Some (OutInt v) =>
              EvalExpressions_write env parts' (result ++ Itoa v)
          | Some (OutFloat v) =>
              EvalExpressions_write env parts' (result ++ FormatFloat v)
          | Some OutOther => ([], Some EvalBadReturn)
          end
      | _ => EvalExpressions_write env parts' (result ++ Value part)
      end
  end.

Definition EvalExpressions (env : exprEnv) (sr : ScriptReader)
  : option (list Z * option evalError * ScriptReader) :=
  '(parts, err, sr) ← EvalExpressions_scan (fuel_of sr) [] emptyPart sr;
  match err with
  | Some e => Some ([], Some (EvalScanError e), sr)
  | None =>
      let '(result, err) := EvalExpressions_write env parts [] in
      Some (result, err, sr)
  end.

End Evaluation.

(** ** tagfilter.go *)

(** [type TagOperator string] and its three constants. *)
Definition TagOperatorAND : list Z := Eval cbv in runes "AND".
Definition TagOperatorNOT : list Z := Eval cbv in runes "NOT".
Definition TagOperatorOR : list Z := Eval cbv in runes "OR".

Definition SymTagAnd : Z := Eval cbv in chr "+".
Definition SymTagNot : Z := Eval cbv in chr "-".
Definition SymTagOr : Z := Eval cbv in chr "~".

Record TagFilter : Type := mkTagFilter {
  FilterType : list Z;
  FilterValue : list Z;
  FilterOperator : list Z
}.

(** The two errors [ParseTagFilters] makes with [fmt.Errorf], each with
    the part of the input it is about. *)
Inductive tagFilterError : Type :=
  | ErrTagFormat (tagStr : list Z)
  | ErrTagEmpty (tagStr : list Z).

(** The class [\s] of Go's [regexp]: tab, line feed, form feed, carriage
    return, space. *)
Definition isRegexpSpace (c : Z) : bool :=
  (c =? 9) || (c =? 10) || (c =? 12) || (c =? 13) || (c =? 32).

(** [reColonSpacing.ReplaceAllString s ":"] for the pattern [\s*:\s*]:
    every colon takes the white space around it with it.  [pending] is the
    white space read since the last other character, [afterColon] says that
    a colon was the last thing written. *)
Fixpoint replaceColonSpacing (afterColon : bool) (pending s : list Z) : list Z :=
  match s with
  | [] => pending
  | c :: s' =>
      if isRegexpSpace c then
        if afterColon then replaceColonSpacing true [] s'
        else replaceColonSpacing false (pending ++ [c]) s'
      else if c =? chr ":" then chr ":" :: replaceColonSpacing true [] s'
      else pending ++ c :: replaceColonSpacing false [] s'
  end.

(** [unicode.ToLower] outside ASCII is a table of the Go library. *)
Class UnicodeTables : Type := {
  unicode_ToLower_table : Z -> Z
}.

Section TagFilters.

Context {tables : UnicodeTables}.

(** [unicode.ToLower]. *)
Definition unicode_ToLower (r : Z) : Z :=
  if r <=? 0x7F then toLowerRune r else unicode_ToLower_table r.

(** [strings.ToLower] on any string. *)
Definition strings_ToLower (s : list Z) : list Z := map unicode_ToLower s.

(** [strings.ReplaceAll s old new] for one-character [old] and [new]. *)
Definition ReplaceAll (s : list Z) (old new : Z) : list Z :=
  map (fun c => if c =? old then new else c) s.

(** The characters [reSpecialChars] keeps: [a-z0-9:,+-]. *)
Definition isTagChar (c : Z) : bool :=
  in_range (chr "a") (chr "z") c || in_range (chr "0") (chr "9") c
  || (c =? chr ":") || (c =? chr ",") || (c =? chr "+") || (c =? chr "-").

Definition NormalizeTag (s : list Z) : list Z :=
  let s := TrimSpace s in
  let s := replaceColonSpacing false [] s in
  let s := strings_ToLower s in
  let s := ReplaceAll s (chr " ") (chr "-") in
  let s := ReplaceAll s (chr ".") (chr "-") in
  List.filter isTagChar s.

(** [strings.Split s sep] for a one-character separator; [cur] is the part
    being read. *)
Fixpoint Split (sep : Z) (cur s : list Z) : list (list Z) :=
  match s with
  | [] => [cur]
  | c :: s' =>
      if c =? sep then cur :: Split sep [] s' else Split sep (cur ++ [c]) s'
  end.

(** The operator prefix of a part and the rest of the part. *)
Definition splitOperator (trimmedTag : list Z) : list Z * list Z :=
  match trimmedTag with
  | c :: rest =>
      if c =? SymTagAnd then (TagOperatorAND, rest)
      else if c =? SymTagNot then (TagOperatorNOT, rest)
      else if c =? SymTagOr then (TagOperatorOR, rest)
      else (TagOperatorAND, trimmedTag)
  | [] => (TagOperatorAND, [])
  end.

(** The loop of [ParseTagFilters] over the parts. *)
Fixpoint ParseTagFilters_loop (parts : list (list Z))
    (seenFilters : gset (list Z * list Z * list Z)) (result : list TagFilter)
  : list TagFilter * option tagFilterError :=
  match parts with
  | [] => (result, None)
  | tagStr :: parts' =>
      let trimmedTag := TrimSpace tagStr in
      if gostring_eqb trimmedTag [] then
        ParseTagFilters_loop parts' seenFilters result
      else
        let '(operator, trimmedTag) := splitOperator trimmedTag in
        match IndexRune trimmedTag (chr ":") with
        | None => ([], Some (ErrTagFormat tagStr))
        | Some colonIdx =>
            let tagType := TrimSpace (firstn colonIdx trimmedTag) in
            let tagValue := TrimSpace (skipn (S colonIdx) trimmedTag) in
            let normalizedType := NormalizeTag tagType in
            let normalizedValue := NormalizeTag tagValue in
            if gostring_eqb normalizedType []
               || gostring_eqb normalizedValue [] then
              ([], Some (ErrTagEmpty tagStr))
            else
              let filter :=
                {| FilterType := normalizedType;
                   FilterValue := normalizedValue;
                   FilterOperator := operator |} in
              let key := (normalizedType, normalizedValue, operator) in
              if bool_decide (key ∈ seenFilters) then
                ParseTagFilters_loop parts' seenFilters result
              else
                ParseTagFilters_loop parts' ({[key]} ∪ seenFilters)
                  (result ++ [filter])
        end
  end.

Definition ParseTagFilters (raw : list Z)
  : list TagFilter * option tagFilterError :=
  if gostring_eqb raw [] then ([], None)
  else ParseTagFilters_loop (Split (chr ",") [] raw) ∅ [].

End TagFilters.

(** ** reader.go: the methods of [AdvArgs] *)

(** [a.raw[key]]: reading a nil map, or a key that is not there, gives the
    empty string. *)
Definition AdvArgs_Get (a : option (gmap (list Z) (list Z))) (key : list Z)
  : list Z :=
  match a with
  | Some raw => default [] (raw !! key)
  | None => []
  end.

(** [With]: the entries of the receiver are copied one by one into a new
    map, then the key is set. *)
Definition AdvArgs_With (a : option (gmap (list Z) (list Z)))
    (key value : list Z) : option (gmap (list Z) (list Z)) :=
  let newMap :=
    map_fold (fun k v (newMap : gmap (list Z) (list Z)) => <[k := v]> newMap)
      ∅ (default ∅ a) in
  Some (<[key := value]> newMap).

(** [IsEmpty]: [len] of a nil map is 0. *)
Definition AdvArgs_IsEmpty (a : option (gmap (list Z) (list Z))) : bool :=
  match a with
  | Some raw => Nat.eqb (size raw) 0
  | None => true
  end.

(** * Specification vocabulary

    Predicates and reference functions the statements below are written
    with. *)

(** ** Results of a scanner *)

(** The number of code points not yet read. *)
Definition len (sr : ScriptReader) : nat := length (unread_buf sr).

(** [post n Q r]: the call [r] returned, with at most [n] code points
    left unread and a result satisfying [Q]. *)
Definition post {A : Type} (n : nat) (Q : A -> Prop)
    (r : option (A * ScriptReader)) : Prop :=
  match r with
  | Some (a, sr') => (len sr' <= n)%nat /\ Q a
  | None => False
  end.

(** Errors raised by the sub-scanners themselves. *)
Definition scanErr (e : error) : bool :=
  match e with
  | ErrUnmatchedQuote | ErrInvalidJSON | ErrUnmatchedExpression
  | ErrUnmatchedInputMacroExt | ErrRuneError | ErrFailedUnread => true
  | _ => false
  end.

Definition errIn (P : error -> bool) (err : option error) : Prop :=
  match err with
  | Some e => P e = true
  | None => True
  end.

(** [parseAdvArgs] adds the invalid-name signal, [parseCommand] the two
    command-name errors. *)
Definition advErr (e : error) : bool :=
  scanErr e || match e with ErrInvalidAdvArgName => true | _ => false end.

Definition cmdErr (e : error) : bool :=
  scanErr e
  || match e with ErrInvalidCmdName | ErrEmptyCmdName => true | _ => false end.

(** No entry under the empty string. *)
Definition noEmptyKey (m : gmap (list Z) (list Z)) : Prop := m !! [] = None.

Definition cmd_ok (c : Command) : Prop :=
  match AdvArgs c with
  | Some m => noEmptyKey m
  | None => True
  end.

(** What [parseMediaTitleSyntax] returns: a result, or an error and no
    result. *)
Definition mediaOk (er : option mediaTitleParseResult * option error) : Prop :=
  match er with
  | (_, Some e) => scanErr e = true
  | (Some r, None) => noEmptyKey (mt_advArgs r)
  | (None, None) => False
  end.

(** Errors [ParseScript] hands to its caller: three bare sentinels, and
    scanner errors wrapped once or twice by [parseErr]. *)
Definition wrappedScanErr (e : error) : bool :=
  match e with
  | ParseErrorAt _ e' => scanErr e'
  | _ => false
  end.

Definition topErr (e : error) : bool :=
  match e with
  | ErrEmptyZapScript | ErrUnexpectedEOF | ErrInvalidJSON => true
  | ParseErrorAt _ e' =>
      scanErr e' || wrappedScanErr e'
      || match e' with ErrEmptyCmdName => true | _ => false end
  | _ => false
  end.

Definition scriptOk (s : Script) : Prop := Forall cmd_ok (Cmds s).

(** Errors of the traits scanners. *)
Definition traitErr (e : error) : bool :=
  match e with
  | ErrUnmatchedQuote | ErrUnmatchedArrayBracket | ErrRuneError => true
  | _ => false
  end.

Definition traitsOk (er : option traitsParseResult * option error) : Prop :=
  match er with
  | (None, Some e) => traitErr e = true
  | (Some _, None) => True
  | _ => False
  end.

Definition nextTraitOk (o : nextTrait) : Prop :=
  match o with
  | ReturnResult err => errIn traitErr err
  | NextTrait _ => True
  end.

(** ** Inputs and results of the examples *)

Definition dq : list Z := [34].

(** What [parseEscapeSeq] returns when the next code point is [c]. *)
Definition escapeValue (c : Z) : list Z := fst (parseEscapeSeq (NewParser [c])).

Definition namedCmd (name : list Z) (args : list (list Z)) : Command :=
  {| AdvArgs := None; Name := name; Args := args |}.

Definition scriptOf (cmds : list Command) : Script :=
  {| Traits := None; Cmds := cmds |}.

Definition atEnd (p : Z) : ScriptReader :=
  {| unread_buf := []; lastRune := None; pos := p |}.

(** The hard errors the specification names for [ParseScript]. *)
Definition taxonomy : list error :=
  [ErrEmptyZapScript; ErrUnexpectedEOF; ErrEmptyCmdName; ErrUnmatchedQuote;
   ErrInvalidJSON; ErrUnmatchedExpression; ErrUnmatchedInputMacroExt;
   ErrUnmatchedArrayBracket; ErrInvalidTraitKey; ErrBadExpressionReturn].

Definition inTaxonomy (e : error) : bool := existsb (errors_Is e) taxonomy.

(** The innermost error of a [%w] chain. *)
Fixpoint rootCause (e : error) : error :=
  match e with
  | ParseErrorAt _ e' => rootCause e'
  | _ => e
  end.

(** The outcome of [ParseScript] is within the named taxonomy, or is one
    of the two errors of the cursor itself. *)
Definition outcomeOk (err : option error) : Prop :=
  match err with
  | None => True
  | Some e =>
      inTaxonomy e = true \/ rootCause e = ErrRuneError
      \/ rootCause e = ErrFailedUnread
  end.

Definition launchCmd (arg : list Z) : Command :=
  namedCmd ZapScriptCmdLaunch [arg].

(** ** JSON arguments (C5) *)

(** The brace-balanced span of a JSON value, on the code points after the
    opening brace: [depth] counts the braces still open besides the first,
    [inString] and [escaped] are the JSON-string sub-state.  The result is
    the span up to the matching brace and what follows it; [None] when the
    input ends (or holds the end marker) before the braces balance. *)
Fixpoint jsonSpan (depth : nat) (inString escaped : bool) (s : list Z)
  : option (list Z * list Z) :=
  match s with
  | [] => None
  | c :: s' =>
      if c =? eof then None
      else
        let more depth inString escaped :=
          match jsonSpan depth inString escaped s' with
          | Some (span, rest) => Some (c :: span, rest)
          | None => None
          end in
        if escaped then more depth inString false
        else if c =? SymJSONEscapeSeq then more depth inString true
        else if c =? SymJSONString then more depth (negb inString) false
        else if inString then more depth inString false
        else if c =? SymJSONStart then more (S depth) inString false
        else if c =? SymJSONEnd then
          match depth with
          | O => Some ([c], s')
          | S depth' => more depth' inString false
          end
        else more depth inString false
  end.


Definition jsonExampleSpan : list Z :=
  runes "{" ++ dq ++ runes "a" ++ dq ++ runes ": 1}".
Definition jsonExampleCanonical : list Z :=
  runes "{" ++ dq ++ runes "a" ++ dq ++ runes ":1}".

(** ** Input-macro mode (C7) *)

(** The splitting of input-macro content in the words of the
    specification, as amended: one argument per character; the escape
    introducer makes the next character an argument of its own (and is
    itself the argument when nothing follows); [{] opens a token that runs
    up to the next [}], whatever lies between; a chain terminator ends the
    content.  [InExt acc] is the state inside an open [{]. *)
Inductive macroMode : Type :=
  | Normal
  | InExt (acc : list Z).

Fixpoint splitMacro (mode : macroMode) (args : list (list Z)) (s : list Z)
  : list (list Z) * option error :=
  match mode, s with
  | Normal, [] => (args, None)
  | InExt _, [] => (args, Some ErrUnmatchedInputMacroExt)
  | InExt acc, c :: s' =>
      if c =? SymInputMacroExtEnd
      then splitMacro Normal (args ++ [acc ++ [c]]) s'
      else splitMacro (InExt (acc ++ [c])) args s'
  | Normal, c :: s' =>
      if c =? SymInputMacroEscapeSeq then
        match s' with
        | [] => (args ++ [[c]], None)
        | next :: s'' => splitMacro Normal (args ++ [[next]]) s''
        end
      else if c =? SymCmdSep then
        match s' with
        | [] => (args, None)
        | next :: _ =>
            if next =? SymCmdSep then (args, None)
            else splitMacro Normal (args ++ [[c]]) s'
        end
      else if c =? SymInputMacroExtStart then splitMacro (InExt [c]) args s'
      else splitMacro Normal (args ++ [[c]]) s'
  end.

(** Content the theorem speaks about: no end marker, no U+FFFD (on which
    [peek] fails), no [?] (which hands over to the advanced arguments). *)
Definition macroChar (c : Z) : bool :=
  negb (c =? eof) && negb (c =? RuneError) && negb (c =? SymAdvArgStart).

(** ** Trait values (C8) *)

(** Source text seen as a sequence of pieces: a plain code point, or an
    escape introducer with the code point it escapes. *)
Inductive piece : Type :=
  | Plain (c : Z)
  | Escaped (c : Z).

Definition renderPiece (pc : piece) : list Z :=
  match pc with
  | Plain c => [c]
  | Escaped c => [SymEscapeSeq; c]
  end.

Definition decodePiece (pc : piece) : list Z :=
  match pc with
  | Plain c => [c]
  | Escaped c => escapeValue c
  end.

(** The text as written, and the text with its escapes decoded. *)
Definition sourceText (ps : list piece) : list Z := flat_map renderPiece ps.
Definition decodedText (ps : list piece) : list Z := flat_map decodePiece ps.

(** Pieces of an unquoted value: a plain code point is none of the end
    marker, U+FFFD, the escape introducer or a stop character; an escaped
    one is neither the end marker nor U+FFFD. *)
Definition unquotedPiece (stop : Z -> bool) (pc : piece) : bool :=
  match pc with
  | Plain c =>
      negb (c =? eof) && negb (c =? RuneError) && negb (c =? SymEscapeSeq)
      && negb (stop c)
  | Escaped c => negb (c =? eof) && negb (c =? RuneError)
  end.

(** What follows an unquoted value: nothing, the end marker or a stop
    character. *)
Definition endsUnquoted (stop : Z -> bool) (rest : list Z) : bool :=
  match rest with
  | [] => true
  | c :: _ => (c =? eof) || (stop c && negb (c =? RuneError))
  end.

(** An unquoted trait value starts with neither a quote nor [[]. *)
Definition startsUnquoted (s : list Z) : bool :=
  match s with
  | [] => true
  | c :: _ => negb (isQuote c) && negb (c =? SymArrayStart)
  end.

(** Pieces of a quoted value closed by [q]. *)
Definition quotedPiece (q : Z) (pc : piece) : bool :=
  match pc with
  | Plain c => negb (c =? eof) && negb (c =? SymEscapeSeq) && negb (c =? q)
  | Escaped c => negb (c =? eof) && negb (c =? RuneError)
  end.

(** ** Instances of the library interfaces, for the concrete runs *)

(** An instance of the JSON interface that knows one document. *)
Definition tableCodec : JSONCodec :=
  {| jsonValue := list Z;
     json_Unmarshal := fun s =>
       if gostring_eqb s jsonExampleSpan then Some jsonExampleCanonical else None;
     json_Marshal := fun v => Some v |}.

(** IEEE-754 binary64 bit pattern of 3.14. *)
Definition float_3_14 : Z := 0x40091EB851EB851F.

Definition tableFloats : FloatParser :=
  {| ParseFloat := fun s =>
       if gostring_eqb s (runes "3.14") then Some float_3_14 else None |}.

Definition traitsOf (l : list (list Z * TraitValue)) : traitsParseResult :=
  traits_ok (list_to_map l).

(** ** Invariants of the cursor and of the parsed script *)

(** The cursor [sr] stands somewhere in [input]: what it has consumed
    followed by what is unread is the input, [pos] counts the consumed
    code points, and the rune an [unread] would push back is the last one
    consumed. *)
Definition cursorOf (input : list Z) (sr : ScriptReader) : Prop :=
  exists consumed,
    input = consumed ++ unread_buf sr
    /\ pos sr = Z.of_nat (length consumed)
    /\ match lastRune sr with
       | Some c => exists pre, consumed = pre ++ [c]
       | None => True
       end.

(** [keeps input Q r]: if the call [r] returned, its cursor is still a
    cursor of [input] and its result satisfies [Q]. *)
Definition keeps {A : Type} (input : list Z) (Q : A -> ScriptReader -> Prop)
    (r : option (A * ScriptReader)) : Prop :=
  match r with
  | Some (a, sr') => cursorOf input sr' /\ Q a sr'
  | None => True
  end.

(** A string [strings.TrimSpace] leaves alone. *)
Definition trimmed (s : list Z) : Prop := TrimSpace s = s.

(** A key of an advanced-argument map as the scanner stores it. *)
Definition validKey (k : list Z) : Prop :=
  k <> [] /\ forallb isAdvArgName k = true.

Definition advKeysOk (m : gmap (list Z) (list Z)) : Prop :=
  map_Forall (fun k v => validKey k /\ trimmed v) m.

(** The [AdvArgs] field: nil, or a map with at least one entry. *)
Definition advOk (a : option (gmap (list Z) (list Z))) : Prop :=
  match a with
  | Some m => m <> ∅ /\ advKeysOk m
  | None => True
  end.

(** A lower-case command-name character. *)
Definition isLowerCmdName (ch : Z) : bool :=
  in_range (chr "a") (chr "z") ch || in_range (chr "0") (chr "9") ch
  || (ch =? chr ".").

Definition cmdWell (c : Command) : Prop :=
  Name c <> []
  /\ forallb isLowerCmdName (Name c) = true
  /\ advOk (AdvArgs c)
  /\ (isInputMacroCmd (Name c) = false -> Forall trimmed (Args c)).

(** Every offset recorded in the error lies within the input. *)
Fixpoint errPosOk (n : Z) (e : error) : Prop :=
  match e with
  | ParseErrorAt p e' => 0 <= p <= n /\ errPosOk n e'
  | _ => True
  end.

(** No condition on the result. *)
Definition anyResult {A : Type} (_ : A) (_ : ScriptReader) : Prop := True.

(** A string without leading white space. *)
Definition noLead (s : list Z) : Prop :=
  match s with
  | [] => True
  | c :: _ => unicode_IsSpace c = false
  end.

(** What [parseMediaTitleSyntax] hands back. *)
Definition mediaWell (res : option mediaTitleParseResult) : Prop :=
  match res with
  | Some r => advKeysOk (mt_advArgs r) /\ trimmed (mt_rawContent r)
  | None => True
  end.

(** A command before [parseCommand] lower-cases its name. *)
Definition cmdRaw (c : Command) : Prop :=
  forallb isCmdName (Name c) = true
  /\ advOk (AdvArgs c)
  /\ (isInputMacroCmd (Name c) = false -> Forall trimmed (Args c)).

(** An error that carries no offset. *)
Definition flatErr (e : error) : Prop :=
  match e with
  | ParseErrorAt _ _ => False
  | _ => True
  end.

(** What [ParseScript] hands back on an input of [n] code points: the
    commands are well formed; an error records offsets within the input; a
    success has at least one command and comes from a read that returned
    the end marker. *)
Definition scriptWell (n : Z) (r : Script * option error) (sr' : ScriptReader)
  : Prop :=
  Forall cmdWell (Cmds (fst r))
  /\ match snd r with
     | Some e => errPosOk n e
     | None =>
         Cmds (fst r) <> []
         /\ (unread_buf sr' = [] \/ lastRune sr' = Some eof)
     end.

(** What the closure [parseAutoLaunchCmd] hands back. *)
Definition autoLaunchWell (n : Z) (r : Script * option error)
    (_ : ScriptReader) : Prop :=
  Forall cmdWell (Cmds (fst r))
  /\ match snd r with
     | Some e => errPosOk n e
     | None => Cmds (fst r) <> []
     end.

(** ** Scripts as they are written *)

(** A code point that the argument scanner copies as it is, wherever it
    stands: not the end marker and none of [^], [|], [?], [[]. *)
Definition isPlainChar (c : Z) : bool :=
  negb ((c =? eof) || (c =? SymEscapeSeq) || (c =? SymCmdSep)
        || (c =? SymAdvArgStart) || (c =? SymExpressionStart)).

(** Inside one argument of a list the separator [,] is excluded too;
    [onlyOneArg] lifts that. *)
Definition isBodyChar (onlyOneArg : bool) (c : Z) : bool :=
  isPlainChar c && (onlyOneArg || negb (c =? SymArgSep)).

(** A first character that opens neither a quoted nor a JSON argument. *)
Definition startsPlain (t : list Z) : bool :=
  match t with
  | [] => true
  | c :: _ => negb (isQuote c) && negb (c =? SymJSONStart)
  end.

(** A code point that may stand between the quotes [q]. *)
Definition isQuotedChar (q c : Z) : bool :=
  negb ((c =? eof) || (c =? SymEscapeSeq) || (c =? SymExpressionStart)
        || (c =? q)).

(** A positional argument as written: bare text, or text between two
    quote characters [q]. *)
Inductive argSyntax : Type :=
  | Bare (text : list Z)
  | Quoted (q : Z) (text : list Z).

Definition argOk (onlyOneArg : bool) (a : argSyntax) : bool :=
  match a with
  | Bare t => forallb (isBodyChar onlyOneArg) t && startsPlain t
  | Quoted q t => isQuote q && forallb (isQuotedChar q) t
  end.

Definition renderArg (a : argSyntax) : list Z :=
  match a with
  | Bare t => t
  | Quoted q t => q :: t ++ [q]
  end.

Definition argText (a : argSyntax) : list Z :=
  match a with
  | Bare t => t
  | Quoted _ t => t
  end.

(** The argument the parser is to produce. *)
Definition argValue (a : argSyntax) : list Z := TrimSpace (argText a).

(** Arguments joined by [,]. *)
Fixpoint joinArgs (args : list (list Z)) : list Z :=
  match args with
  | [] => []
  | [a] => a
  | a :: rest => a ++ SymArgSep :: joinArgs rest
  end.

(** A code point the media-title scanner copies as it is: not the end
    marker and none of [^], [|], [?]. *)
Definition isTitleChar (c : Z) : bool :=
  negb ((c =? eof) || (c =? SymEscapeSeq) || (c =? SymCmdSep)
        || (c =? SymAdvArgStart)).

(** A code point the advanced-argument scanner copies into a value: not
    the end marker and none of [^], [|], [&], [[]. *)
Definition isAdvValueChar (c : Z) : bool :=
  negb ((c =? eof) || (c =? SymEscapeSeq) || (c =? SymCmdSep)
        || (c =? SymAdvArgSep) || (c =? SymExpressionStart)).

(** An advanced argument [key=value] as written. *)
Definition pairOk (kv : list Z * list Z) : bool :=
  negb (gostring_eqb (fst kv) []) && forallb isAdvArgName (fst kv)
  && forallb isAdvValueChar (snd kv) && startsPlain (snd kv).

Definition renderPair (kv : list Z * list Z) : list Z :=
  fst kv ++ SymAdvArgEq :: snd kv.

(** Advanced arguments joined by [&]. *)
Fixpoint joinAdvs (l : list (list Z)) : list Z :=
  match l with
  | [] => []
  | [a] => a
  | a :: rest => a ++ SymAdvArgSep :: joinAdvs rest
  end.

(** The advanced arguments of a segment as written: nothing, or [?] and
    the pairs. *)
Definition renderAdvs (advs : list (list Z * list Z)) : list Z :=
  match advs with
  | [] => []
  | _ => SymAdvArgStart :: joinAdvs (map renderPair advs)
  end.

(** The map the pairs stand for: stored in order, a later pair replacing
    an earlier one with the same key, values trimmed. *)
Definition storePair (m : gmap (list Z) (list Z)) (kv : list Z * list Z)
  : gmap (list Z) (list Z) :=
  <[fst kv := TrimSpace (snd kv)]> m.

Definition advMap (advs : list (list Z * list Z)) : gmap (list Z) (list Z) :=
  fold_left storePair advs ∅.

(** The [AdvArgs] field they give: nil when there is no pair. *)
Definition advField (advs : list (list Z * list Z))
  : option (gmap (list Z) (list Z)) :=
  match advs with
  | [] => None
  | _ => Some (advMap advs)
  end.

(** One segment of a chain: a bare path (an auto-launch), an explicit
    command [**name] or [**name:arg,...], or a media title
    [@system/title]; each may end with advanced arguments [?k=v&...]. *)
Inductive segment : Type :=
  | PathSeg (text : list Z) (advs : list (list Z * list Z))
  | CmdSeg (name : list Z) (args : list argSyntax)
      (advs : list (list Z * list Z))
  | TitleSeg (content : list Z) (advs : list (list Z * list Z)).

Definition segOk (s : segment) : bool :=
  match s with
  | PathSeg t advs =>
      match t with
      | [] => false
      | c :: _ =>
          negb (isWhitespace c) && negb (c =? SymMediaTitleStart)
          && negb (c =? SymCmdStart)
      end
      && argOk true (Bare t) && forallb pairOk advs
  | CmdSeg n args advs =>
      negb (gostring_eqb n []) && forallb isCmdName n
      && negb (isInputMacroCmd n) && forallb (argOk false) args
      && forallb pairOk advs
  | TitleSeg c advs =>
      forallb isTitleChar c && mediaTitle_valid (TrimSpace c)
      && forallb pairOk advs
  end.

(** The argument list of a command as written: nothing, or [:] and the
    arguments. *)
Definition renderArgs (args : list argSyntax) : list Z :=
  match args with
  | [] => []
  | _ => SymArgStart :: joinArgs (map renderArg args)
  end.

Definition renderSeg (s : segment) : list Z :=
  match s with
  | PathSeg t advs => t ++ renderAdvs advs
  | CmdSeg n args advs =>
      SymCmdStart :: SymCmdStart :: n ++ renderArgs args ++ renderAdvs advs
  | TitleSeg c advs => SymMediaTitleStart :: c ++ renderAdvs advs
  end.

(** The command a segment stands for. *)
Definition segCmd (s : segment) : Command :=
  match s with
  | PathSeg t advs =>
      {| AdvArgs := advField advs; Name := ZapScriptCmdLaunch;
         Args := [TrimSpace t] |}
  | CmdSeg n args advs =>
      {| AdvArgs := advField advs; Name := ToLower n;
         Args := map argValue args |}
  | TitleSeg c advs =>
      {| AdvArgs := advField advs; Name := ZapScriptCmdLaunchTitle;
         Args := [TrimSpace c] |}
  end.

(** Segments joined by the chain terminator [||]. *)
Fixpoint renderChain (segs : list segment) : list Z :=
  match segs with
  | [] => []
  | [s] => renderSeg s
  | s :: rest => renderSeg s ++ SymCmdSep :: SymCmdSep :: renderChain rest
  end.

(** What follows a segment: the end of the input, or a chain terminator
    and more input. *)
Inductive segEnd : Type :=
  | AtEof
  | AtChain (more : list Z).

Definition tailText (e : segEnd) : list Z :=
  match e with
  | AtEof => []
  | AtChain more => SymCmdSep :: SymCmdSep :: more
  end.

(** The part of the terminator that the scanners record in their raw
    buffer. *)
Definition tailMark (e : segEnd) : list Z :=
  match e with
  | AtEof => []
  | AtChain _ => [SymCmdSep]
  end.

(** The cursor once the segment and its terminator are consumed, [p]
    being the offset of the end of the segment. *)
Definition tailReader (e : segEnd) (p : Z) : ScriptReader :=
  match e with
  | AtEof => atEnd p
  | AtChain more =>
      {| unread_buf := more; lastRune := Some SymCmdSep; pos := p + 2 |}
  end.

(** ** Text with expressions *)

(** A piece of an argument: literal text, or the source of an
    expression. *)
Inductive exprPiece : Type :=
  | Text (t : list Z)
  | Expr (e : list Z).

(** As the user writes it: an expression stands between [[[] and []]]. *)
Definition writtenPiece (pc : exprPiece) : list Z :=
  match pc with
  | Text t => t
  | Expr e =>
      SymExpressionStart :: SymExpressionStart :: e
      ++ [SymExpressionEnd; SymExpressionEnd]
  end.

(** As [ParseExpressions] hands it on: an expression stands between the
    two private-use tokens. *)
Definition tokenPiece (pc : exprPiece) : list Z :=
  match pc with
  | Text t => t
  | Expr e => exprStartToken :: e ++ [exprEndToken]
  end.

(** Literal text for [ParseExpressions] holds no end marker, escape
    introducer or [[]. *)
Definition isTextChar (c : Z) : bool :=
  negb ((c =? eof) || (c =? SymEscapeSeq) || (c =? SymExpressionStart)).

(** The source of an expression that the first []]] after it closes: it
    holds no end marker, and a []] in it is followed by a character that
    is neither []] nor U+FFFD (so it does not end in []] either). *)
Fixpoint exprSourceOk (e : list Z) : bool :=
  match e with
  | [] => true
  | c :: e' =>
      negb (c =? eof)
      && (if c =? SymExpressionEnd then
            match e' with
            | [] => false
            | d :: _ => negb (d =? SymExpressionEnd) && negb (d =? RuneError)
            end
          else true)
      && exprSourceOk e'
  end.

Definition exprPieceOk (pc : exprPiece) : bool :=
  match pc with
  | Text t => forallb isTextChar t
  | Expr e => exprSourceOk e
  end.

(** For the evaluation, literal text only has to be free of the end
    marker and of the start token, and the source of an expression of the
    end marker and of the end token. *)
Definition isEvalTextChar (c : Z) : bool :=
  negb ((c =? eof) || (c =? exprStartToken)).

Definition isTokenExprChar (c : Z) : bool :=
  negb ((c =? eof) || (c =? exprEndToken)).

Definition evalPieceOk (pc : exprPiece) : bool :=
  match pc with
  | Text t => forallb isEvalTextChar t
  | Expr e => forallb isTokenExprChar e
  end.

(** The parts so far with the current part, unless it is still unknown. *)
Definition flushPart (parts : list PostArgPart) (currentPart : PostArgPart)
  : list PostArgPart :=
  if negb (isUnknownPart currentPart) then parts ++ [currentPart] else parts.

(** The current part of the scan is empty and unknown, or literal text. *)
Definition currentPartOk (part : PostArgPart) : Prop :=
  part = emptyPart \/ Type_ part = ArgPartTypeString.

Section EvaluationSpec.

Context {engine : ExprEngine}.

(** How the value of an expression is written out; [None] for a value of
    a type that is not supported. *)
Definition formatOutput (o : exprOutput) : option (list Z) :=
  match o with
  | OutString s => Some s
  | OutBool b => Some (FormatBool b)
  | OutInt i => Some (Itoa i)
  | OutFloat f => Some (FormatFloat f)
  | OutOther => None
  end.

(** The pieces evaluated from left to right onto [acc]; the first
    expression that fails ends the evaluation with its error. *)
Fixpoint evalPieces (env : exprEnv) (ps : list exprPiece) (acc : list Z)
  : list Z * option evalError :=
  match ps with
  | [] => (acc, None)
  | Text t :: ps' => evalPieces env ps' (acc ++ t)
  | Expr e :: ps' =>
      match expr_Eval e env with
      | None => ([], Some (EvalFailed e))
      | Some o =>
          match formatOutput o with
          | Some s => evalPieces env ps' (acc ++ s)
          | None => ([], Some EvalBadReturn)
          end
      end
  end.

(** The piece a part stands for. *)
Definition pieceOfPart (part : PostArgPart) : exprPiece :=
  match Type_ part with
  | ArgPartTypeExpression => Expr (Value part)
  | _ => Text (Value part)
  end.

End EvaluationSpec.

(** An engine for the concrete runs: it knows the expressions [1+1]
    and [xs[0]] (ints), [ok] (a bool) and [name] (a string), fails on
    [bad] and hands back an unsupported value for anything else. *)
Definition tableEngine : ExprEngine :=
  {| exprEnv := unit;
     expr_Eval := fun e _ =>
       if gostring_eqb e (runes "1+1") then Some (OutInt 2)
       else if gostring_eqb e (runes "xs[0]") then Some (OutInt 7)
       else if gostring_eqb e (runes "ok") then Some (OutBool true)
       else if gostring_eqb e (runes "name") then Some (OutString (runes "Mario"))
       else if gostring_eqb e (runes "bad") then None
       else Some OutOther;
     FormatFloat := fun _ => [] |}.

(** ** Tag filters as they are written *)

Section TagFilterSpec.

Context {tables : UnicodeTables}.

Definition filterKey (f : TagFilter) : list Z * list Z * list Z :=
  (FilterType f, FilterValue f, FilterOperator f).

Definition isTagOperator (op : list Z) : bool :=
  gostring_eqb op TagOperatorAND || gostring_eqb op TagOperatorNOT
  || gostring_eqb op TagOperatorOR.

(** What every filter that [ParseTagFilters] hands back satisfies. *)
Definition filterWell (f : TagFilter) : Prop :=
  FilterType f <> [] /\ FilterValue f <> []
  /\ forallb isTagChar (FilterType f) = true
  /\ forallb isTagChar (FilterValue f) = true
  /\ isTagOperator (FilterOperator f) = true.

(** A filter in normal form that can be written down and read back: the
    type holds neither [:] nor [,], the value no [,]. *)
Definition isTypeChar (c : Z) : bool :=
  isTagChar c && negb (c =? chr ":") && negb (c =? chr ",").

Definition isValueChar (c : Z) : bool :=
  isTagChar c && negb (c =? chr ",").

Definition canonicalFilter (f : TagFilter) : bool :=
  negb (gostring_eqb (FilterType f) []) && forallb isTypeChar (FilterType f)
  && negb (gostring_eqb (FilterValue f) [])
  && forallb isValueChar (FilterValue f)
  && isTagOperator (FilterOperator f).

Definition operatorSym (op : list Z) : Z :=
  if gostring_eqb op TagOperatorAND then SymTagAnd
  else if gostring_eqb op TagOperatorNOT then SymTagNot
  else SymTagOr.

Definition renderFilter (f : TagFilter) : list Z :=
  operatorSym (FilterOperator f) :: FilterType f ++ chr ":" :: FilterValue f.

(** Filters joined by [,]. *)
Fixpoint renderFilters (fs : list TagFilter) : list Z :=
  match fs with
  | [] => []
  | [f] => renderFilter f
  | f :: rest => renderFilter f ++ chr "," :: renderFilters rest
  end.

End TagFilterSpec.

(** A table for the concrete runs: the two non-ASCII runes whose lower
    case is an ASCII letter, and nothing else changed. *)
Definition tableUnicode : UnicodeTables :=
  {| unicode_ToLower_table := fun r =>
       if r =? 0x212A then chr "k" else if r =? 0x130 then chr "i" else r |}.

(** A character of an input that holds no filter. *)
Definition isBlankChar (c : Z) : bool := unicode_IsSpace c || (c =? chr ",").

(** What the loop keeps: the filters made so far are well formed, no
    filter is there twice, and every one of them is in [seenFilters]. *)
Definition loopInv (seenFilters : gset (list Z * list Z * list Z))
    (result : list TagFilter) : Prop :=
  Forall filterWell result /\ NoDup result
  /\ (forall f, In f result -> filterKey f ∈ seenFilters).

Definition loopPost (r : list TagFilter * option tagFilterError) : Prop :=
  match r with
  | (fs, None) => Forall filterWell fs /\ NoDup fs
  | (fs, Some _) => fs = []
  end.

(** ** Trait keys *)

(** A character of a stored key after the first: a lower-case letter, a
    digit or an underscore. *)
Definition isLowerAdvArgName (c : Z) : bool :=
  in_range (chr "a") (chr "z") c || in_range (chr "0") (chr "9") c
  || (c =? chr "_").

(** A key as [parseTraitsSyntax] stores it: a lower-case letter, then
    lower-case letters, digits and underscores. *)
Definition traitKeyOk (key : list Z) : bool :=
  match key with
  | [] => false
  | c :: rest =>
      in_range (chr "a") (chr "z") c && forallb isLowerAdvArgName rest
  end.

Definition traitKeysOk (traits : gmap (list Z) TraitValue) : Prop :=
  map_Forall (fun key _ => traitKeyOk key = true) traits.

(** ** Traits as they are written *)

(** An element of a written array: plain text, or text between two
    quotes [q]. *)
Inductive elemSyntax : Type :=
  | PlainElem (ps : list piece)
  | QuotedElem (q : Z) (ps : list piece).

Definition renderElem (e : elemSyntax) : list Z :=
  match e with
  | PlainElem ps => sourceText ps
  | QuotedElem q ps => q :: sourceText ps ++ [q]
  end.

(** Elements joined by [,]. *)
Fixpoint joinElems (es : list elemSyntax) : list Z :=
  match es with
  | [] => []
  | [e] => renderElem e
  | e :: rest => renderElem e ++ SymArraySep :: joinElems rest
  end.

(** A plain element is not empty and does not start with a quote. *)
Definition startsElem (s : list Z) : bool :=
  match s with
  | [] => false
  | c :: _ => negb (isQuote c)
  end.

Definition elemWritten (e : elemSyntax) : bool :=
  match e with
  | PlainElem ps =>
      forallb (unquotedPiece arrayElementStop) ps && startsElem (sourceText ps)
  | QuotedElem q ps => isQuote q && forallb (quotedPiece q) ps
  end.

(** The value of a written trait: none (a flag), plain text, text
    between two quotes [q], or an array. *)
Inductive traitValueSyntax : Type :=
  | FlagValue
  | UnquotedValue (ps : list piece)
  | QuotedValue (q : Z) (ps : list piece)
  | ArrayValue (es : list elemSyntax).

Definition renderTraitValue (v : traitValueSyntax) : list Z :=
  match v with
  | FlagValue => []
  | UnquotedValue ps => SymAdvArgEq :: sourceText ps
  | QuotedValue q ps => SymAdvArgEq :: q :: sourceText ps ++ [q]
  | ArrayValue es => SymAdvArgEq :: SymArrayStart :: joinElems es ++ [SymArrayEnd]
  end.

Definition renderTrait (t : list Z * traitValueSyntax) : list Z :=
  fst t ++ renderTraitValue (snd t).

(** Traits written one after the other, a space and the sigil between
    them; the sigil of the first one is read by the caller. *)
Fixpoint renderTraits (ts : list (list Z * traitValueSyntax)) : list Z :=
  match ts with
  | [] => []
  | [t] => renderTrait t
  | t :: rest => renderTrait t ++ 32 :: SymTraitsStart :: renderTraits rest
  end.

(** A key as it may be written: a letter, then letters, digits and
    underscores. *)
Definition traitKeyWritten (key : list Z) : bool :=
  match key with
  | [] => false
  | c :: rest => isAdvArgNameStart c && forallb isAdvArgName rest
  end.

Definition traitValueWritten (v : traitValueSyntax) : bool :=
  match v with
  | FlagValue => true
  | UnquotedValue ps =>
      forallb (unquotedPiece traitValueStop) ps && startsUnquoted (sourceText ps)
  | QuotedValue q ps => isQuote q && forallb (quotedPiece q) ps
  | ArrayValue es => forallb elemWritten es
  end.

Definition traitWritten (t : list Z * traitValueSyntax) : bool :=
  traitKeyWritten (fst t) && traitValueWritten (snd t).

Section TraitsWritten.

Context {floats : FloatParser}.

(** The value a written element stands for. *)
Definition elemValueOf (e : elemSyntax) : TraitValue :=
  match e with
  | PlainElem ps => inferType (TrimSpace (decodedText ps)) false
  | QuotedElem _ ps => TString (decodedText ps)
  end.

(** The value a written trait stands for. *)
Definition traitValueOf (v : traitValueSyntax) : TraitValue :=
  match v with
  | FlagValue => TBool true
  | UnquotedValue ps => inferType (decodedText ps) false
  | QuotedValue _ ps => TString (decodedText ps)
  | ArrayValue es => TArray (map elemValueOf es)
  end.

(** The map the written traits stand for: keys in lower case, a later
    trait replacing an earlier one with the same key. *)
Definition storeTrait (traits : gmap (list Z) TraitValue)
    (t : list Z * traitValueSyntax) : gmap (list Z) TraitValue :=
  <[ToLower (fst t) := traitValueOf (snd t)]> traits.

Definition traitsMap (ts : list (list Z * traitValueSyntax))
  : gmap (list Z) TraitValue :=
  fold_left storeTrait ts ∅.

End TraitsWritten.

(** What may follow a key: nothing, or a character that is neither a key
    character nor U+FFFD. *)
Definition endsKey (tail : list Z) : bool :=
  match tail with
  | [] => true
  | c :: _ => negb (isAdvArgName c) && negb (c =? RuneError)
  end.

(** What follows a written trait: nothing, or a space, the sigil and the
    traits after it. *)
Definition traitTail (rest : list (list Z * traitValueSyntax)) : list Z :=
  match rest with
  | [] => []
  | _ => 32 :: SymTraitsStart :: renderTraits rest
  end.

(** What follows an element of an array: the separator and the elements
    after it, or nothing. *)
Definition elemTail (rest : list elemSyntax) : list Z :=
  match rest with
  | [] => []
  | _ => SymArraySep :: joinElems rest
  end.

(** What follows an element: the separator or the closing bracket. *)
Definition afterElem (tail : list Z) : bool :=
  match tail with
  | c :: _ => (c =? SymArraySep) || (c =? SymArrayEnd)
  | [] => false
  end.

(** A character that cannot follow a trait key: not a key character, not
    [=], and none of the characters that end a flag. *)
Definition breaksKey (c : Z) : bool :=
  negb (isAdvArgName c || (c =? SymAdvArgEq) || (c =? eof) || (c =? SymCmdSep)
        || (c =? SymTraitsStart) || isWhitespace c || (c =? RuneError)).

(** A character of the text up to the end of the input: neither the end
    marker nor the command separator. *)
Definition isRestChar (c : Z) : bool :=
  negb ((c =? eof) || (c =? SymCmdSep)).

(** ** JSON values in their callers *)







(** What an escape adds to an argument when the code point after [^] is
    [c]: the bare [^] when the decoder returns the empty string. *)
Definition escapeKept (c : Z) : list Z :=
  if gostring_eqb (escapeValue c) [] then [SymEscapeSeq] else escapeValue c.

(** * Termination and error classes

    Every scanner returns (it never runs out of fuel), leaves no more unread
    input than it found, and raises only errors of its own class. *)

Lemma post_mono {A} (n m : nat) (Q Q' : A -> Prop) r :
  post n Q r -> (n <= m)%nat -> (forall a, Q a -> Q' a) -> post m Q' r.
Proof.
  destruct r as [[a sr']|]; simpl; [|tauto].
  intros [H1 H2] H3 H4. split; [lia | auto].
Qed.

Lemma post_bind {A B} (n m : nat) (Q : A -> Prop) (R : B -> Prop)
    (r : option (A * ScriptReader))
    (k : A * ScriptReader -> option (B * ScriptReader)) :
  post n Q r ->
  (forall a sr', (len sr' <= n)%nat -> Q a -> post m R (k (a, sr'))) ->
  post m R (r ≫= k).
Proof.
  destruct r as [[a sr']|]; simpl; [|tauto].
  intros [H1 H2] H. apply H; assumption.
Qed.

Lemma post_returns {A} n (Q : A -> Prop) r :
  post n Q r -> exists a sr', r = Some (a, sr') /\ Q a.
Proof.
  destruct r as [[a sr']|]; simpl; [|tauto].
  intros [_ H]. eauto.
Qed.

Lemma read_len sr ch sr' :
  read sr = (ch, sr') ->
  len sr' = Nat.pred (len sr) /\ (ch <> eof -> S (len sr') = len sr).
Proof.
  unfold read, len. destruct (unread_buf sr) as [|c rest]; intros [= <- <-]; simpl.
  - split; [lia | intros H; exfalso; apply H; reflexivity].
  - split; [lia | reflexivity].
Qed.

Lemma unread_len sr err sr' :
  unread sr = (err, sr') ->
  (err = Some ErrFailedUnread /\ sr' = sr) \/ (err = None /\ len sr' = S (len sr)).
Proof.
  unfold unread, len. destruct (lastRune sr); intros [= <- <-]; simpl; auto.
Qed.

Lemma peek_len sr next err sr' :
  peek sr = (next, err, sr') -> len sr' = len sr.
Proof.
  unfold peek, len. destruct (unread_buf sr) as [|c rest].
  - intros [= <- <- <-]. reflexivity.
  - destruct (c =? RuneError); intros [= <- <- <-]; reflexivity.
Qed.

Lemma peek_err sr next e sr' :
  peek sr = (next, Some e, sr') -> e = ErrRuneError.
Proof.
  unfold peek. destruct (unread_buf sr) as [|c rest]; [discriminate|].
  destruct (c =? RuneError); intros [= <- <- <-]; reflexivity.
Qed.

Lemma peek_read sr next sr1 ch sr2 :
  peek sr = (next, None, sr1) -> read sr1 = (ch, sr2) -> ch = next.
Proof.
  unfold peek, read. destruct (unread_buf sr) as [|c rest].
  - intros [= <- <-]. simpl. intros [= <- <-]. reflexivity.
  - destruct (c =? RuneError); [discriminate|].
    intros [= <- <-]. simpl. intros [= <- <-]. reflexivity.
Qed.

Lemma skip_len sr : (len (skip sr) <= len sr)%nat.
Proof.
  unfold skip. destruct (read sr) as [ch sr'] eqn:E.
  apply read_len in E. simpl. lia.
Qed.

Lemma checkEndOfCmd_len ch sr eoc err sr' :
  checkEndOfCmd ch sr = (eoc, err, sr') ->
  (len sr' <= len sr)%nat /\ (err = None \/ err = Some ErrRuneError).
Proof.
  unfold checkEndOfCmd. destruct (negb (ch =? SymCmdSep)).
  - intros [= <- <- <-]. auto.
  - destruct (peek sr) as [[next [e|]] sr1] eqn:E.
    + pose proof (peek_err _ _ _ _ E) as ->. apply peek_len in E.
      intros [= <- <- <-]. split; [lia | auto].
    + apply peek_len in E. pose proof (skip_len sr1).
      destruct (next =? eof); [intros [= <- <- <-]; split; [lia|auto]|].
      destruct (next =? SymCmdSep); intros [= <- <- <-]; split; auto; lia.
Qed.

Lemma parseEscapeSeq_len sr next sr' :
  parseEscapeSeq sr = (next, sr') -> (len sr' <= len sr)%nat.
Proof.
  unfold parseEscapeSeq. destruct (read sr) as [ch sr1] eqn:E.
  apply read_len in E. destruct E as [E _].
  repeat match goal with
         | |- (if ?c then _ else _) = _ -> _ => destruct c
         end; intros [= <- <-]; lia.
Qed.

(** One step through the body of a scanner: case analysis on the head of
    the returned expression, keeping track of the unread length. *)
Ltac pose_skip :=
  repeat match goal with
         | |- context [skip ?s] =>
             pose proof (skip_len s); generalize dependent (skip s); intros
         | _ : context [skip ?s] |- _ =>
             pose proof (skip_len s); generalize dependent (skip s); intros
         end.

Ltac post_call := fail.

Create HintDb post discriminated.

Ltac post_q :=
  cbn [errIn] in *;
  first [solve [eauto with post] | repeat split; eauto with post].

(** The innermost scrutinee of a nest of [match]es. *)
Ltac scrutinee e :=
  lazymatch e with
  | match ?e' with _ => _ end => scrutinee e'
  | _ => e
  end.

Ltac post_destruct x :=
  lazymatch x with
  | read ?sr =>
      let E := fresh "Hread" in
      destruct (read sr) as [? ?] eqn:E;
      try match goal with
          | Hp : peek _ = (_, None, sr) |- _ =>
              pose proof (peek_read _ _ _ _ _ Hp E); subst
          end;
      apply read_len in E; destruct E as [? ?]
  | peek ?sr =>
      let E := fresh "Hpeek" in
      destruct (peek sr) as [[? [?|]] ?] eqn:E;
      [pose proof (peek_err _ _ _ _ E); subst|]; pose proof (peek_len _ _ _ _ E)
  | unread ?sr =>
      let E := fresh "Hunread" in
      destruct (unread sr) as [? ?] eqn:E;
      apply unread_len in E; destruct E as [[? ?]|[? ?]]; subst
  | checkEndOfCmd ?ch ?sr =>
      let E := fresh "Heoc" in
      destruct (checkEndOfCmd ch sr) as [[? ?] ?] eqn:E;
      apply checkEndOfCmd_len in E; destruct E as [? [?|?]]; subst
  | parseEscapeSeq ?sr =>
      let E := fresh "Hesc" in
      destruct (parseEscapeSeq sr) as [? ?] eqn:E; apply parseEscapeSeq_len in E
  | _ => destruct x eqn:?
  end; cbv beta iota.

Ltac post_step IH :=
  lazymatch goal with
  | |- post _ _ (Some _) =>
      pose_skip; unfold post; cbv beta iota; split; [try lia | post_q]
  | |- post _ _ (_ ≫= _) => post_call; cbv beta iota
  | |- post _ _ (match ?e with _ => _ end) =>
      let x := scrutinee e in post_destruct x
  | |- post _ _ _ =>
      pose_skip;
      eapply post_mono;
      [apply IH; first [lia | post_q] | lia | try (intros; assumption)]
  end.

Lemma parseExpression_loop_post fuel : forall rawExpr sr,
  (len sr < fuel)%nat ->
  post (len sr) (fun '(_, err) => errIn scanErr err)
    (parseExpression_loop fuel rawExpr sr).
Proof.
  induction fuel as [|fuel IH]; intros rawExpr sr Hf; [lia|].
  cbn [parseExpression_loop].
  repeat post_step IH.
Qed.

Lemma parseExpression_post sr :
  post (len sr) (fun '(_, err) => errIn scanErr err) (parseExpression sr).
Proof.
  unfold parseExpression.
  destruct sr as [[|c rest] last p]; cbn [read unread_buf pos lastRune].
  - simpl. auto.
  - destruct (negb (c =? SymExpressionStart)).
    + simpl. unfold len. simpl. auto.
    + eapply post_mono; [apply parseExpression_loop_post | | auto].
      * unfold fuel_of, len. simpl. lia.
      * unfold len. simpl. lia.
Qed.

Ltac post_call ::=
  match goal with
  | |- post _ _ (parseExpression ?sr ≫= _) =>
      eapply post_bind; [apply parseExpression_post | intros [? ?] ? ? ?]
  end.

Lemma ParseExpressions_loop_post fuel : forall result sr,
  (len sr < fuel)%nat ->
  post (len sr) (fun '(_, err) => errIn scanErr err)
    (ParseExpressions_loop fuel result sr).
Proof.
  induction fuel as [|fuel IH]; intros result sr Hf; [lia|].
  cbn [ParseExpressions_loop].
  repeat post_step IH.
Qed.

Lemma parseQuotedArg_loop_post fuel : forall start arg sr,
  (len sr < fuel)%nat ->
  post (len sr) (fun '(_, err) => errIn scanErr err)
    (parseQuotedArg_loop fuel start arg sr).
Proof.
  induction fuel as [|fuel IH]; intros start arg sr Hf; [lia|].
  cbn [parseQuotedArg_loop].
  repeat post_step IH.
Qed.

Lemma parseQuotedArg_post start sr :
  post (len sr) (fun '(_, err) => errIn scanErr err) (parseQuotedArg start sr).
Proof. unfold parseQuotedArg. apply parseQuotedArg_loop_post. unfold fuel_of, len. lia. Qed.

Section ArgumentsTotal.

Context {codec : JSONCodec}.

Lemma parseJSONArg_loop_post fuel : forall braceCount inString escaped jb sr,
  (len sr < fuel)%nat ->
  post (len sr) (fun '(_, err) => errIn scanErr err)
    (parseJSONArg_loop fuel braceCount inString escaped jb sr).
Proof.
  induction fuel as [|fuel IH]; intros braceCount inString escaped jb sr Hf; [lia|].
  cbn [parseJSONArg_loop].
  destruct (negb (braceCount >? 0)).
  - unfold json_validate.
    destruct (json_Unmarshal _) as [v|]; [destruct (json_Marshal v)|];
      simpl; auto.
  - repeat post_step IH.
Qed.

Lemma parseJSONArg_post sr :
  post (len sr) (fun '(_, err) => errIn scanErr err) (parseJSONArg sr).
Proof. unfold parseJSONArg. apply parseJSONArg_loop_post. unfold fuel_of, len. lia. Qed.

Ltac post_call ::=
  match goal with
  | |- post _ _ (parseExpression ?sr ≫= _) =>
      eapply post_bind; [apply parseExpression_post | intros [? ?] ? ? ?]
  | |- post _ _ (parseQuotedArg ?c ?sr ≫= _) =>
      eapply post_bind; [apply parseQuotedArg_post | intros [? ?] ? ? ?]
  | |- post _ _ (parseJSONArg ?sr ≫= _) =>
      eapply post_bind; [apply parseJSONArg_post | intros [? ?] ? ? ?]
  end.

Lemma gostring_eqb_eq a : forall b, gostring_eqb a b = true <-> a = b.
Proof.
  induction a as [|x a IH]; intros [|y b]; simpl; split; try congruence.
  - intros H. apply andb_true_iff in H. destruct H as [Hx Hab].
    apply Z.eqb_eq in Hx. apply IH in Hab. congruence.
  - intros [= -> ->]. rewrite Z.eqb_refl. simpl. apply IH. reflexivity.
Qed.

Lemma gostring_eqb_neq a b : gostring_eqb a b = false <-> a <> b.
Proof.
  split.
  - intros H Heq. apply gostring_eqb_eq in Heq. congruence.
  - intros H. destruct (gostring_eqb a b) eqn:E; [|reflexivity].
    apply gostring_eqb_eq in E. contradiction.
Qed.

Lemma storeArg_noEmptyKey m k v :
  noEmptyKey m -> noEmptyKey (storeArg m k v).
Proof.
  unfold storeArg, noEmptyKey. intros Hm.
  destruct (gostring_eqb k []) eqn:E; simpl; [assumption|].
  apply gostring_eqb_neq in E.
  rewrite lookup_insert_ne; auto.
Qed.

Lemma scanErr_advErr e : scanErr e = true -> advErr e = true.
Proof. unfold advErr. intros ->. reflexivity. Qed.

#[local] Hint Resolve storeArg_noEmptyKey scanErr_advErr : post.

Lemma parseAdvArgs_loop_post fuel :
  forall advArgs inValue currentArg currentValue valueStart buf sr,
  (len sr < fuel)%nat -> noEmptyKey advArgs ->
  post (len sr) (fun '(m, _, err) => errIn advErr err /\ noEmptyKey m)
    (parseAdvArgs_loop fuel advArgs inValue currentArg currentValue
       valueStart buf sr).
Proof.
  induction fuel as [|fuel IH];
    intros advArgs inValue currentArg currentValue valueStart buf sr Hf Hm; [lia|].
  cbn [parseAdvArgs_loop].
  repeat post_step IH.
Qed.

Lemma noEmptyKey_empty : noEmptyKey ∅.
Proof. unfold noEmptyKey. apply lookup_empty. Qed.

#[local] Hint Resolve noEmptyKey_empty : post.

Lemma parseAdvArgs_post sr :
  post (len sr) (fun '(m, _, err) => errIn advErr err /\ noEmptyKey m)
    (parseAdvArgs sr).
Proof.
  unfold parseAdvArgs.
  apply parseAdvArgs_loop_post; [unfold fuel_of, len; lia | apply noEmptyKey_empty].
Qed.

Lemma inputMacroExt_loop_post fuel : forall extBuilder sr,
  (len sr < fuel)%nat ->
  post (len sr) (fun '(_, err) => errIn scanErr err)
    (inputMacroExt_loop fuel extBuilder sr).
Proof.
  induction fuel as [|fuel IH]; intros extBuilder sr Hf; [lia|].
  cbn [inputMacroExt_loop].
  repeat post_step IH.
Qed.

Lemma advErr_cases e :
  advErr e = true -> errors_Is e ErrInvalidAdvArgName = false -> scanErr e = true.
Proof. destruct e; cbv; intros; congruence. Qed.

#[local] Hint Resolve advErr_cases : post.

Ltac post_call ::=
  match goal with
  | |- post _ _ (parseExpression ?sr ≫= _) =>
      eapply post_bind; [apply parseExpression_post | intros [? ?] ? ? ?]
  | |- post _ _ (parseQuotedArg ?c ?sr ≫= _) =>
      eapply post_bind; [apply parseQuotedArg_post | intros [? ?] ? ? ?]
  | |- post _ _ (parseJSONArg ?sr ≫= _) =>
      eapply post_bind; [apply parseJSONArg_post | intros [? ?] ? ? ?]
  | |- post _ _ (parseAdvArgs ?sr ≫= _) =>
      eapply post_bind; [apply parseAdvArgs_post | intros [[? ?] ?] ? ? [? ?]]
  | |- post _ _ (inputMacroExt_loop (fuel_of ?sr) _ ?sr ≫= _) =>
      eapply post_bind;
      [apply inputMacroExt_loop_post; unfold fuel_of, len; lia
      | intros [? ?] ? ? ?]
  end.

Lemma parseInputMacroArg_loop_post fuel : forall args sr,
  (len sr < fuel)%nat ->
  post (len sr) (fun '(_, m, err) => errIn scanErr err /\ noEmptyKey m)
    (parseInputMacroArg_loop fuel args sr).
Proof.
  induction fuel as [|fuel IH]; intros args sr Hf; [lia|].
  cbn [parseInputMacroArg_loop].
  repeat post_step IH.
Qed.

Lemma parseInputMacroArg_post sr :
  post (len sr) (fun '(_, m, err) => errIn scanErr err /\ noEmptyKey m)
    (parseInputMacroArg sr).
Proof. unfold parseInputMacroArg. apply parseInputMacroArg_loop_post. unfold fuel_of, len. lia. Qed.

Lemma parseArgs_loop_post fuel : forall onlyAdvArgs onlyOneArg args currentArg argStart sr,
  (len sr < fuel)%nat ->
  post (pred (len sr)) (fun '(_, m, err) => errIn scanErr err /\ noEmptyKey m)
    (parseArgs_loop fuel onlyAdvArgs onlyOneArg args currentArg argStart sr).
Proof.
  induction fuel as [|fuel IH];
    intros onlyAdvArgs onlyOneArg args currentArg argStart sr Hf; [lia|].
  cbn [parseArgs_loop].
  repeat post_step IH.
Qed.

Lemma parseArgs_post prefix onlyAdvArgs onlyOneArg sr :
  post (pred (len sr)) (fun '(_, m, err) => errIn scanErr err /\ noEmptyKey m)
    (parseArgs prefix onlyAdvArgs onlyOneArg sr).
Proof. unfold parseArgs. apply parseArgs_loop_post. unfold fuel_of, len. lia. Qed.

Lemma mediaOk_finish m content :
  noEmptyKey m -> mediaOk (Some (mediaTitle_finish m content), None).
Proof. intros Hm. exact Hm. Qed.

Lemma mediaOk_err e : scanErr e = true -> mediaOk (None, Some e).
Proof. intros He. exact He. Qed.

#[local] Hint Resolve mediaOk_finish mediaOk_err : post.

Lemma parseMediaTitleSyntax_loop_post fuel : forall content sr,
  (len sr < fuel)%nat ->
  post (len sr) mediaOk (parseMediaTitleSyntax_loop fuel content sr).
Proof.
  induction fuel as [|fuel IH]; intros content sr Hf; [lia|].
  cbn [parseMediaTitleSyntax_loop].
  repeat post_step IH.
Qed.

Lemma parseMediaTitleSyntax_post sr :
  post (len sr) mediaOk (parseMediaTitleSyntax sr).
Proof.
  unfold parseMediaTitleSyntax. apply parseMediaTitleSyntax_loop_post.
  unfold fuel_of, len. lia.
Qed.

Lemma cmd_ok_name cmd name :
  cmd_ok cmd ->
  cmd_ok {| AdvArgs := AdvArgs cmd; Name := name; Args := Args cmd |}.
Proof. unfold cmd_ok. simpl. trivial. Qed.

Lemma cmd_ok_with_args cmd args m :
  cmd_ok cmd -> noEmptyKey m -> cmd_ok (with_args cmd args m).
Proof.
  unfold cmd_ok, with_args, NewAdvArgs. simpl.
  destruct (nonempty_map m); trivial.
Qed.

Lemma scanErr_cmdErr e : scanErr e = true -> cmdErr e = true.
Proof. unfold cmdErr. intros ->. reflexivity. Qed.

#[local] Hint Resolve cmd_ok_name cmd_ok_with_args scanErr_cmdErr : post.

Ltac post_call ::=
  match goal with
  | |- post _ _ (parseExpression ?sr ≫= _) =>
      eapply post_bind; [apply parseExpression_post | intros [? ?] ? ? ?]
  | |- post _ _ (parseQuotedArg ?c ?sr ≫= _) =>
      eapply post_bind; [apply parseQuotedArg_post | intros [? ?] ? ? ?]
  | |- post _ _ (parseJSONArg ?sr ≫= _) =>
      eapply post_bind; [apply parseJSONArg_post | intros [? ?] ? ? ?]
  | |- post _ _ (parseAdvArgs ?sr ≫= _) =>
      eapply post_bind; [apply parseAdvArgs_post | intros [[? ?] ?] ? ? [? ?]]
  | |- post _ _ (inputMacroExt_loop (fuel_of ?sr) _ ?sr ≫= _) =>
      eapply post_bind;
      [apply inputMacroExt_loop_post; unfold fuel_of, len; lia
      | intros [? ?] ? ? ?]
  | |- post _ _ ((if ?c then parseInputMacroArg ?sr else parseArgs _ _ _ ?sr) ≫= _) =>
      eapply post_bind with (n := len sr);
      [destruct c;
       [apply parseInputMacroArg_post
       | eapply post_mono; [apply parseArgs_post | lia | auto]]
      | intros [[? ?] ?] ? ? [? ?]]
  end.

Lemma parseCommand_loop_post fuel : forall onlyOneArg cmd buf sr,
  (len sr < fuel)%nat -> cmd_ok cmd ->
  post (len sr) (fun '(c, _, err) => errIn cmdErr err /\ cmd_ok c)
    (parseCommand_loop fuel onlyOneArg cmd buf sr).
Proof.
  induction fuel as [|fuel IH]; intros onlyOneArg cmd buf sr Hf Hc; [lia|].
  cbn [parseCommand_loop]. unfold parseCommand_finish.
  repeat post_step IH.
  all: unfold cmd_ok, NewAdvArgs in *; simpl;
    destruct (nonempty_map _); simpl; assumption.
Qed.

Lemma parseCommand_post onlyOneArg sr :
  post (len sr) (fun '(c, _, err) => errIn cmdErr err /\ cmd_ok c)
    (parseCommand onlyOneArg sr).
Proof.
  unfold parseCommand. apply parseCommand_loop_post.
  - unfold fuel_of, len. lia.
  - exact I.
Qed.

Lemma parseAutoLaunchCmd_post script prefix sr :
  scriptOk script ->
  post (Nat.pred (len sr))
    (fun '(s, err) => errIn wrappedScanErr err /\ scriptOk s)
    (parseAutoLaunchCmd script prefix sr).
Proof.
  intros Hs. unfold parseAutoLaunchCmd.
  eapply post_bind; [apply parseArgs_post|].
  intros [[args m] [e|]] sr' Hlen [He Hm]; cbv beta iota.
  - simpl. split; [lia|]. split; [exact He | exact Hs].
  - simpl. split; [lia|]. split; [exact I|].
    unfold scriptOk in *. simpl. apply Forall_app. split; [exact Hs|].
    constructor; [|constructor].
    unfold cmd_ok, NewAdvArgs. simpl. destruct (nonempty_map m); simpl; trivial.
Qed.

Lemma topErr_wrapped p e : wrappedScanErr e = true -> topErr (parseErr p e) = true.
Proof.
  unfold parseErr, topErr. intros ->.
  rewrite orb_true_r. reflexivity.
Qed.

Lemma topErr_scan p e : scanErr e = true -> topErr (parseErr p e) = true.
Proof. unfold parseErr, topErr. intros ->. reflexivity. Qed.

Lemma topErr_cmd p e :
  cmdErr e = true -> errors_Is e ErrInvalidCmdName = false ->
  topErr (parseErr p e) = true.
Proof. destruct e; cbv; intros; congruence. Qed.

Lemma scriptOk_append script cmd :
  scriptOk script -> cmd_ok cmd -> scriptOk (appendCmd script cmd).
Proof.
  unfold scriptOk, appendCmd. simpl. intros Hs Hc.
  apply Forall_app. split; [exact Hs | constructor; [exact Hc | constructor]].
Qed.

Lemma cmd_ok_launchTitle m args :
  noEmptyKey m ->
  cmd_ok {| AdvArgs := if nonempty_map m then NewAdvArgs m else None;
            Name := ZapScriptCmdLaunchTitle; Args := args |}.
Proof.
  intros Hm. unfold cmd_ok, NewAdvArgs. simpl.
  destruct (nonempty_map m); simpl; trivial.
Qed.

Lemma scriptOk_empty : scriptOk emptyScript.
Proof. constructor. Qed.

#[local] Hint Resolve topErr_wrapped topErr_scan topErr_cmd scriptOk_append
  cmd_ok_launchTitle scriptOk_empty : post.

Ltac post_call ::=
  match goal with
  | |- post _ _ (parseMediaTitleSyntax ?sr ≫= _) =>
      eapply post_bind;
      [apply parseMediaTitleSyntax_post
      | intros [[?|] [?|]] ? ? ?; cbn [mediaOk] in *; try contradiction]
  | |- post _ _ (parseCommand _ ?sr ≫= _) =>
      eapply post_bind; [apply parseCommand_post | intros [[? ?] ?] ? ? [? ?]]
  | |- post _ _ (parseAutoLaunchCmd _ _ ?sr ≫= _) =>
      eapply post_bind with (n := Nat.pred (len sr));
      [apply parseAutoLaunchCmd_post; post_q | intros [? ?] ? ? [? ?]]
  end.

Lemma ParseScript_loop_post fuel : forall script sr,
  (len sr < fuel)%nat -> scriptOk script ->
  post (len sr) (fun '(s, err) => errIn topErr err /\ scriptOk s)
    (ParseScript_loop fuel script sr).
Proof.
  induction fuel as [|fuel IH]; intros script sr Hf Hs; [lia|].
  cbn [ParseScript_loop].
  repeat post_step IH.
Qed.

Lemma ParseScript_post sr :
  post (len sr) (fun '(s, err) => errIn topErr err /\ scriptOk s)
    (ParseScript sr).
Proof.
  unfold ParseScript. apply ParseScript_loop_post.
  - unfold fuel_of, len. lia.
  - apply scriptOk_empty.
Qed.

End ArgumentsTotal.

(** The traits scanners. *)

Section TraitsTotal.

Context {floats : FloatParser}.

Lemma consumeToEndOfCmd_loop_post fuel : forall buf sr,
  (len sr < fuel)%nat ->
  post (len sr) (fun '(_, err) => errIn traitErr err)
    (consumeToEndOfCmd_loop fuel buf sr).
Proof.
  induction fuel as [|fuel IH]; intros buf sr Hf; [lia|].
  cbn [consumeToEndOfCmd_loop].
  repeat post_step IH.
Qed.

Lemma consumeToEndOfCmd_post sr :
  post (len sr) (fun '(_, err) => errIn traitErr err) (consumeToEndOfCmd sr).
Proof.
  unfold consumeToEndOfCmd. apply consumeToEndOfCmd_loop_post.
  unfold fuel_of, len. lia.
Qed.

Lemma quotedValue_loop_post fuel : forall quoteChar rawBuf valueBuf sr,
  (len sr < fuel)%nat ->
  post (len sr) (fun '(_, _, err) => errIn traitErr err)
    (quotedValue_loop fuel quoteChar rawBuf valueBuf sr).
Proof.
  induction fuel as [|fuel IH]; intros quoteChar rawBuf valueBuf sr Hf; [lia|].
  cbn [quotedValue_loop].
  repeat post_step IH.
Qed.

Lemma unquotedValue_loop_post fuel : forall stop rawBuf valueBuf sr,
  (len sr < fuel)%nat ->
  post (len sr) (fun '(_, _, err) => errIn traitErr err)
    (unquotedValue_loop fuel stop rawBuf valueBuf sr).
Proof.
  induction fuel as [|fuel IH]; intros stop rawBuf valueBuf sr Hf; [lia|].
  cbn [unquotedValue_loop].
  repeat post_step IH.
Qed.

Lemma isWhitespace_not_eof z : isWhitespace z = true -> z <> eof.
Proof. unfold isWhitespace, eof. lia. Qed.

Lemma skipArrayWhitespace_post fuel : forall rawBuf sr,
  (len sr < fuel)%nat ->
  post (len sr) (fun '(_, err) => errIn traitErr err)
    (skipArrayWhitespace fuel rawBuf sr).
Proof.
  induction fuel as [|fuel IH]; intros rawBuf sr Hf; [lia|].
  cbn [skipArrayWhitespace].
  repeat post_step IH.
  apply negb_false_iff, isWhitespace_not_eof in Heqb. lia.
Qed.

Ltac post_call ::=
  match goal with
  | |- post _ _ (quotedValue_loop (fuel_of ?sr) _ _ _ ?sr ≫= _) =>
      eapply post_bind;
      [apply quotedValue_loop_post; unfold fuel_of, len; lia
      | intros [[? ?] ?] ? ? ?]
  | |- post _ _ (unquotedValue_loop (fuel_of ?sr) _ _ _ ?sr ≫= _) =>
      eapply post_bind;
      [apply unquotedValue_loop_post; unfold fuel_of, len; lia
      | intros [[? ?] ?] ? ? ?]
  end.

Lemma parseArrayElement_post sr :
  post (len sr) (fun '(_, _, err) => errIn traitErr err) (parseArrayElement sr).
Proof.
  unfold parseArrayElement.
  repeat post_step False.
Qed.

Ltac post_call ::=
  match goal with
  | |- post _ _ (skipArrayWhitespace (fuel_of ?sr) _ ?sr ≫= _) =>
      eapply post_bind;
      [apply skipArrayWhitespace_post; unfold fuel_of, len; lia
      | intros [? ?] ? ? ?]
  | |- post _ _ (parseArrayElement ?sr ≫= _) =>
      eapply post_bind; [apply parseArrayElement_post | intros [[? ?] ?] ? ? ?]
  end.

Lemma parseTraitArray_loop_post fuel : forall rawBuf elements sr,
  (len sr < fuel)%nat ->
  post (len sr) (fun '(_, _, err) => errIn traitErr err)
    (parseTraitArray_loop fuel rawBuf elements sr).
Proof.
  induction fuel as [|fuel IH]; intros rawBuf elements sr Hf; [lia|].
  cbn [parseTraitArray_loop].
  repeat post_step IH.
Qed.

Lemma parseTraitArray_post sr :
  post (len sr) (fun '(_, _, err) => errIn traitErr err) (parseTraitArray sr).
Proof.
  unfold parseTraitArray.
  destruct (read sr) as [ch sr1] eqn:E. apply read_len in E. destruct E as [E _].
  eapply post_mono; [apply parseTraitArray_loop_post | lia | auto].
  unfold fuel_of, len. lia.
Qed.

Ltac post_call ::=
  match goal with
  | |- post _ _ (quotedValue_loop (fuel_of ?sr) _ _ _ ?sr ≫= _) =>
      eapply post_bind;
      [apply quotedValue_loop_post; unfold fuel_of, len; lia
      | intros [[? ?] ?] ? ? ?]
  | |- post _ _ (unquotedValue_loop (fuel_of ?sr) _ _ _ ?sr ≫= _) =>
      eapply post_bind;
      [apply unquotedValue_loop_post; unfold fuel_of, len; lia
      | intros [[? ?] ?] ? ? ?]
  end.

Lemma parseTraitValue_post sr :
  post (len sr) (fun '(_, _, err) => errIn traitErr err) (parseTraitValue sr).
Proof.
  unfold parseTraitValue.
  repeat post_step parseTraitArray_post.
Qed.

Lemma traitKey_loop_post fuel : forall fallbackBuf keySb sr,
  (len sr < fuel)%nat ->
  post (len sr) (fun '(_, _, err) => errIn traitErr err)
    (traitKey_loop fuel fallbackBuf keySb sr).
Proof.
  induction fuel as [|fuel IH]; intros fallbackBuf keySb sr Hf; [lia|].
  cbn [traitKey_loop].
  repeat post_step IH.
Qed.

Lemma nextTrait_loop_post fuel : forall fallbackBuf sr,
  (len sr < fuel)%nat ->
  post (len sr) nextTraitOk (nextTrait_loop fuel fallbackBuf sr).
Proof.
  induction fuel as [|fuel IH]; intros fallbackBuf sr Hf; [lia|].
  cbn [nextTrait_loop].
  repeat post_step IH.
Qed.

Ltac post_call ::=
  match goal with
  | |- post _ _ (consumeToEndOfCmd ?sr ≫= _) =>
      eapply post_bind; [apply consumeToEndOfCmd_post | intros [? ?] ? ? ?]
  | |- post _ _ (traitKey_loop (fuel_of ?sr) _ _ ?sr ≫= _) =>
      eapply post_bind;
      [apply traitKey_loop_post; unfold fuel_of, len; lia
      | intros [[? ?] ?] ? ? ?]
  | |- post _ _ (nextTrait_loop (fuel_of ?sr) _ ?sr ≫= _) =>
      eapply post_bind;
      [apply nextTrait_loop_post; unfold fuel_of, len; lia
      | intros [[?|]|?] ? ? ?; cbn [nextTraitOk] in *]
  | |- post _ _ (parseTraitValue ?sr ≫= _) =>
      eapply post_bind; [apply parseTraitValue_post | intros [[? ?] ?] ? ? ?]
  end.

Lemma parseTraitsSyntax_loop_post fuel : forall traits fallbackBuf sr,
  (len sr < fuel)%nat ->
  post (len sr) traitsOk (parseTraitsSyntax_loop fuel traits fallbackBuf sr).
Proof.
  induction fuel as [|fuel IH]; intros traits fallbackBuf sr Hf; [lia|].
  cbn [parseTraitsSyntax_loop].
  repeat post_step IH.
Qed.

Lemma parseTraitsSyntax_post sr :
  post (len sr) traitsOk (parseTraitsSyntax sr).
Proof.
  unfold parseTraitsSyntax. apply parseTraitsSyntax_loop_post.
  unfold fuel_of, len. lia.
Qed.

End TraitsTotal.

(** * The claims *)

Section Claims.
Context {codec : JSONCodec}.

Lemma topErr_outcome e : topErr e = true -> outcomeOk (Some e).
Proof.
  unfold outcomeOk.
  destruct e as [| | | | | | | | | | | | | |p e]; simpl; try discriminate; auto.
  destruct e as [| | | | | | | | | | | | | |p' e]; simpl; try discriminate; auto.
  destruct e; simpl; try discriminate; auto.
Qed.

(** [ParseScript] returns on every input (it never runs out of fuel), and
    what it returns is a script, one of the named hard errors, or an error
    of the cursor ([peek] on U+FFFD, [unread] at the end of the input). *)
Lemma ParseScript_terminates (input : list Z) :
  exists script err sr,
    ParseScript (NewParser input) = Some (script, err, sr) /\ outcomeOk err.
Proof.
  pose proof (ParseScript_post (NewParser input)) as H.
  destruct (ParseScript (NewParser input)) as [[[script err] sr]|]; [|contradiction].
  destruct H as [_ [He _]].
  exists script, err, sr. split; [reflexivity|].
  destruct err as [e|]; [apply topErr_outcome; exact He | exact I].
Qed.

(** C1 (fails on the code): for the well-formed one-character input [[],
    [ParseScript] returns an error that is none of the named hard errors:
    [parseExpression] reads the end marker and then calls [unread], which
    [bufio] refuses after a read that hit the end.  The same happens with
    [peek] on the well-formed code point U+FFFD. *)
Theorem C1_error_outside_taxonomy :
  ParseScript (NewParser (runes "[")) =
    Some (emptyScript, Some (ParseErrorAt 1 (ParseErrorAt 1 ErrFailedUnread)),
          atEnd 1)
  /\ inTaxonomy (ParseErrorAt 1 (ParseErrorAt 1 ErrFailedUnread)) = false
  /\ ParseScript (NewParser [SymCmdStart; RuneError]) =
       Some (emptyScript, Some (ParseErrorAt 1 ErrRuneError),
             {| unread_buf := [RuneError]; lastRune := None; pos := 1 |})
  /\ inTaxonomy (ParseErrorAt 1 ErrRuneError) = false.
Proof. repeat split; vm_compute; reflexivity. Qed.

(** C2 (fails on the code): [ParseScript] has no case for [#]; a segment
    that begins with [#] falls to the auto-launch path, so each becomes a
    [launch] command and [Traits] stays nil. *)
Theorem C2_hash_segments_become_launch_commands :
  ParseScript (NewParser (runes "#a=1||#a=2")) =
    Some (scriptOf [launchCmd (runes "#a=1"); launchCmd (runes "#a=2")],
          None, atEnd 10)
  /\ ParseScript (NewParser (runes "#a=1||#b=2")) =
    Some (scriptOf [launchCmd (runes "#a=1"); launchCmd (runes "#b=2")],
          None, atEnd 10).
Proof. split; vm_compute; reflexivity. Qed.

(** C3, as amended: two separator characters end a command; a third one
    starts an auto-launch segment ([**a|||**b] gives [a] and a [launch] of
    [|**b]); four of them give an empty auto-launch segment between [a] and
    [b]; a single [|] inside an argument is ordinary content. *)
Theorem C3_chain_separators :
  ParseScript (NewParser (runes "**a||**b")) =
    Some (scriptOf [namedCmd (runes "a") []; namedCmd (runes "b") []],
          None, atEnd 8)
  /\ ParseScript (NewParser (runes "**a|||**b")) =
    Some (scriptOf [namedCmd (runes "a") []; launchCmd (runes "|**b")],
          None, atEnd 9)
  /\ ParseScript (NewParser (runes "**a||||**b")) =
    Some (scriptOf [namedCmd (runes "a") []; launchCmd [];
                    namedCmd (runes "b") []],
          None, atEnd 10)
  /\ ParseScript (NewParser (runes "**cmd:a|b")) =
    Some (scriptOf [namedCmd (runes "cmd") [runes "a|b"]], None, atEnd 9).
Proof. repeat split; vm_compute; reflexivity. Qed.

End Claims.

(** C3 as stated is false: whatever the JSON library, [**a|||**b] does
    not parse to the two commands [a] and [b]. *)
Lemma C3_counterexample :
  ~ exists (codec : JSONCodec) script err sr,
      ParseScript (NewParser (runes "**a|||**b")) = Some (script, err, sr)
      /\ map Name (Cmds script) = [runes "a"; runes "b"].
Proof.
  intros (codec & script & err & sr & H & Hn).
  vm_compute in H. injection H as <- <- <-. vm_compute in Hn. discriminate.
Qed.

Section Claims2.
Context {codec : JSONCodec}.

(** C4 (fails on the code): a [[] that is the last character of the input
    is an error, not a literal: [parseExpression] reads the end marker and
    its [unread] fails. *)
Theorem C4_trailing_bracket_is_an_error :
  ParseExpressions (NewParser (runes "[")) =
    Some ([], Some ErrFailedUnread, atEnd 1)
  /\ ParseExpressions (NewParser (runes "ab[")) =
    Some (runes "ab", Some ErrFailedUnread, atEnd 3).
Proof. split; vm_compute; reflexivity. Qed.

(** The rest of C4 holds.  A [[] followed by any code point other than
    [[] is the literal [[], and the code point is left unread. *)
Lemma parseExpression_literal c rest last p :
  c <> SymExpressionStart ->
  parseExpression {| unread_buf := c :: rest; lastRune := last; pos := p |} =
  Some ([SymExpressionStart], None,
        {| unread_buf := c :: rest; lastRune := None; pos := p + 1 - 1 |}).
Proof.
  intros Hc. unfold parseExpression. cbn [read unread_buf pos lastRune].
  destruct (Z.eqb_spec c SymExpressionStart) as [|_]; [contradiction|].
  reflexivity.
Qed.

Example ParseExpressions_single_bracket :
  ParseExpressions (NewParser (runes "[hello")) =
  Some (runes "[hello", None, atEnd 6).
Proof. vm_compute. reflexivity. Qed.

Example ParseExpressions_escaped_opener :
  ParseExpressions (NewParser (runes "^[[notexpr]]")) =
  Some (runes "[[notexpr]]", None, atEnd 12).
Proof. vm_compute. reflexivity. Qed.

Example ParseExpressions_unmatched :
  ParseExpressions (NewParser (runes "test[[unclosed")) =
  Some (runes "test", Some ErrUnmatchedExpression, atEnd 14).
Proof. vm_compute. reflexivity. Qed.

(** End of input inside an open [[[] fails with the unmatched-expression
    error, whatever was captured so far. *)
Lemma parseExpression_loop_at_end fuel rawExpr last p :
  parseExpression_loop (S fuel) rawExpr
    {| unread_buf := []; lastRune := last; pos := p |} =
  Some (rawExpr, Some ErrUnmatchedExpression, atEnd p).
Proof. reflexivity. Qed.

(** C6 (fails on the code): when the [@] segment that fails validation is
    followed by another segment, the fallback does not stop at the chain
    terminator the media-title scanner consumed: the auto-launch argument
    swallows the next segment. *)
Theorem C6_fallback_swallows_next_segment :
  ParseScript (NewParser (runes "@system||**b")) =
    Some (scriptOf [launchCmd (runes "@system**b")], None, atEnd 12).
Proof. vm_compute. reflexivity. Qed.

(** The examples of C6, where the [@] segment is the whole input. *)
Example media_title_valid :
  ParseScript (NewParser (runes "@system/title")) =
    Some (scriptOf [namedCmd ZapScriptCmdLaunchTitle [runes "system/title"]],
          None, atEnd 13).
Proof. vm_compute. reflexivity. Qed.

Example media_title_fallbacks :
  ParseScript (NewParser (runes "@system")) =
    Some (scriptOf [launchCmd (runes "@system")], None, atEnd 7)
  /\ ParseScript (NewParser (runes "@/title")) =
    Some (scriptOf [launchCmd (runes "@/title")], None, atEnd 7)
  /\ ParseScript (NewParser (runes "@system/")) =
    Some (scriptOf [launchCmd (runes "@system/")], None, atEnd 8).
Proof. repeat split; vm_compute; reflexivity. Qed.

(** With a valid title in front the chain is split as intended. *)
Example media_title_chain :
  ParseScript (NewParser (runes "@snes/Game||**echo:done")) =
    Some (scriptOf [namedCmd ZapScriptCmdLaunchTitle [runes "snes/Game"];
                    namedCmd (runes "echo") [runes "done"]],
          None, atEnd 23).
Proof. vm_compute. reflexivity. Qed.

End Claims2.

Section ClaimJSON.
Context {codec : JSONCodec}.




(** *** Rules for running the scanners on an input given by its prefix *)

Lemma isCmdName_plain c :
  isCmdName c = true -> (c =? eof) = false /\ (c =? SymCmdSep) = false.
Proof.
  unfold isCmdName, in_range, eof, SymCmdSep.
  repeat match goal with
         | |- context [chr ?a] =>
             let v := eval vm_compute in (chr a) in change (chr a) with v
         end.
  lia.
Qed.

Lemma checkEndOfCmd_other ch sr :
  (ch =? SymCmdSep) = false -> checkEndOfCmd ch sr = (false, None, sr).
Proof. unfold checkEndOfCmd. intros ->. reflexivity. Qed.


(** A name character extends the command name. *)
Lemma parseCommand_loop_name fuel onlyOneArg cmd buf c rest last p :
  isCmdName c = true ->
  parseCommand_loop (S fuel) onlyOneArg cmd buf
    {| unread_buf := c :: rest; lastRune := last; pos := p |}
  = parseCommand_loop fuel onlyOneArg
      {| AdvArgs := AdvArgs cmd; Name := Name cmd ++ [c]; Args := Args cmd |}
      (buf ++ [c])
      {| unread_buf := rest; lastRune := Some c; pos := p + 1 |}.
Proof.
  intros Hc. destruct (isCmdName_plain c Hc) as [Heof Hsep].
  cbn [parseCommand_loop read unread_buf pos lastRune].
  rewrite Heof, (checkEndOfCmd_other _ _ Hsep), Hc. reflexivity.
Qed.

(** After the name, [:] hands over to [parseArgs]. *)
Lemma parseCommand_loop_args fuel onlyOneArg cmd buf rest last p
    args advArgs sr' :
  gostring_eqb (Name cmd) [] = false ->
  isInputMacroCmd (Name cmd) = false ->
  parseArgs [] false onlyOneArg
    {| unread_buf := rest; lastRune := Some SymArgStart; pos := p + 1 |}
    = Some (args, advArgs, None, sr') ->
  parseCommand_loop (S fuel) onlyOneArg cmd buf
    {| unread_buf := SymArgStart :: rest; lastRune := last; pos := p |}
  = Some ({| AdvArgs := AdvArgs (with_args cmd args advArgs);
             Name := ToLower (Name cmd);
             Args := Args (with_args cmd args advArgs) |},
          buf ++ [SymArgStart], None, sr').
Proof.
  intros Hname Hmacro Hargs.
  cbn [parseCommand_loop read unread_buf pos lastRune].
  change (SymArgStart =? eof) with false.
  rewrite checkEndOfCmd_other by reflexivity.
  change (isCmdName SymArgStart) with false.
  change (SymArgStart =? SymArgStart) with true.
  change (SymArgStart =? SymAdvArgStart) with false.
  cbn [orb]. rewrite Hname, Hmacro, Hargs. cbn [mbind option_bind].
  unfold parseCommand_finish. cbn [Name with_args]. rewrite Hname. reflexivity.
Qed.

(** [**] hands over to [parseCommand]; its command is appended. *)
Lemma ParseScript_loop_command fuel script rest last p cmd buf sr' :
  parseCommand false
    {| unread_buf := rest; lastRune := Some SymCmdStart; pos := p + 1 + 1 |}
    = Some (cmd, buf, None, sr') ->
  ParseScript_loop (S fuel) script
    {| unread_buf := SymCmdStart :: SymCmdStart :: rest; lastRune := last;
       pos := p |}
  = ParseScript_loop fuel (appendCmd script cmd) sr'.
Proof.
  intros Hcmd.
  cbn [ParseScript_loop read peek skip snd unread_buf pos lastRune].
  change (SymCmdStart =? eof) with false.
  change (isWhitespace SymCmdStart) with false.
  change (SymCmdStart =? SymJSONStart) with false. rewrite andb_false_r.
  change (SymCmdStart =? SymMediaTitleStart) with false.
  change (SymCmdStart =? SymCmdStart) with true.
  change (SymCmdStart =? RuneError) with false.
  cbn [read peek skip snd unread_buf pos lastRune].
  rewrite Hcmd. reflexivity.
Qed.

Section JSONExample.
Variable v : jsonValue.
Hypothesis Hu : json_Unmarshal jsonExampleSpan = Some v.
Hypothesis Hm : json_Marshal v = Some jsonExampleCanonical.





End JSONExample.
End ClaimJSON.

(** ** Input-macro mode *)

Section ClaimMacro.
Context {codec : JSONCodec}.

Lemma macroChar_spec c :
  macroChar c = true ->
  (c =? eof) = false /\ (c =? RuneError) = false /\ (c =? SymAdvArgStart) = false.
Proof. unfold macroChar. intros H. lia. Qed.

Lemma inputMacroExt_loop_refines s : forall fuel acc last p,
  (length s < fuel)%nat -> forallb macroChar s = true ->
  (exists body rest sr',
      inputMacroExt_loop fuel acc
        {| unread_buf := s; lastRune := last; pos := p |}
        = Some (acc ++ body, None, sr')
      /\ unread_buf sr' = rest /\ (length rest < length s)%nat
      /\ forallb macroChar rest = true
      /\ forall a args,
           splitMacro (InExt a) args s = splitMacro Normal (args ++ [a ++ body]) rest)
  \/ (exists partial sr',
      inputMacroExt_loop fuel acc
        {| unread_buf := s; lastRune := last; pos := p |}
        = Some (partial, Some ErrUnmatchedInputMacroExt, sr')
      /\ forall a args,
           splitMacro (InExt a) args s = (args, Some ErrUnmatchedInputMacroExt)).
Proof.
  induction s as [|c s IH]; intros fuel acc last p Hf Hs;
    (destruct fuel as [|fuel]; [simpl in Hf; lia|]).
  - right. eexists _, _. split; reflexivity.
  - simpl in Hs. apply andb_true_iff in Hs. destruct Hs as [Hc Hs].
    apply macroChar_spec in Hc. destruct Hc as (Heof & _ & _).
    cbn [inputMacroExt_loop read unread_buf pos lastRune]. rewrite Heof.
    destruct (c =? SymInputMacroExtEnd) eqn:Hend.
    + left. exists [c], s. eexists. repeat split; try reflexivity; try assumption.
      * simpl. lia.
      * intros a args. cbn [splitMacro]. rewrite Hend. reflexivity.
    + destruct (IH fuel (acc ++ [c]) (Some c) (p + 1)) as
        [(body & rest & sr' & Hrun & Hrest & Hlen & Hplain & Hspec)
        |(partial & sr' & Hrun & Hspec)]; [simpl in Hf; lia | exact Hs | |].
      * left. exists (c :: body), rest, sr'. repeat split; try assumption.
        -- rewrite Hrun. rewrite <- app_assoc. reflexivity.
        -- simpl. lia.
        -- intros a args. cbn [splitMacro]. rewrite Hend.
           rewrite Hspec. rewrite <- app_assoc. reflexivity.
      * right. exists partial, sr'. split; [exact Hrun|].
        intros a args. cbn [splitMacro]. rewrite Hend. apply Hspec.
Qed.

Lemma parseInputMacroArg_loop_refines fuel : forall args sr,
  (len sr < fuel)%nat -> forallb macroChar (unread_buf sr) = true ->
  exists sr',
    parseInputMacroArg_loop fuel args sr =
    Some (fst (splitMacro Normal args (unread_buf sr)), ∅,
          snd (splitMacro Normal args (unread_buf sr)), sr').
Proof.
  induction fuel as [|fuel IH]; intros args sr Hf Hs; [lia|].
  destruct sr as [[|c s] last p]; unfold len in Hf; simpl in Hf.
  - eexists. reflexivity.
  - simpl in Hs. apply andb_true_iff in Hs. destruct Hs as [Hc Hs].
    apply macroChar_spec in Hc. destruct Hc as (Heof & Hrune & Hadv).
    cbn [parseInputMacroArg_loop read unread_buf pos lastRune splitMacro].
    rewrite Heof.
    destruct (c =? SymInputMacroEscapeSeq) eqn:Hesc.
    { destruct s as [|next s].
      - apply Z.eqb_eq in Hesc. subst c. eexists. reflexivity.
      - simpl in Hs. apply andb_true_iff in Hs. destruct Hs as [Hn Hs].
        apply macroChar_spec in Hn. destruct Hn as (Hneof & _ & _).
        cbn [read unread_buf pos lastRune]. rewrite Hneof.
        apply IH; [unfold len; simpl in *; lia | exact Hs]. }
    destruct (c =? SymCmdSep) eqn:Hsep.
    { unfold checkEndOfCmd. rewrite Hsep. cbn [negb].
      destruct s as [|next s].
      - eexists. reflexivity.
      - pose proof Hs as Hs'. simpl in Hs'. apply andb_true_iff in Hs'.
        destruct Hs' as [Hn _].
        apply macroChar_spec in Hn. destruct Hn as (Hneof & Hnrune & _).
        cbn [peek unread_buf pos lastRune]. rewrite Hnrune, Hneof.
        destruct (next =? SymCmdSep) eqn:Hnsep.
        + eexists. reflexivity.
        + assert (Hext : (c =? SymInputMacroExtStart) = false).
          { unfold SymCmdSep, SymInputMacroExtStart in *. lia. }
          rewrite Hext, Hadv.
          apply IH; [unfold len; simpl in *; lia | exact Hs]. }
    rewrite (checkEndOfCmd_other _ _ Hsep).
    destruct (c =? SymInputMacroExtStart) eqn:Hext.
    { destruct (inputMacroExt_loop_refines s
                  (fuel_of {| unread_buf := s; lastRune := Some c; pos := p + 1 |})
                  [] (Some c) (p + 1))
        as [(body & rest & sr' & Hrun & Hrest & Hlen & Hplain & Hspec)
           |(partial & sr' & Hrun & Hspec)];
        [unfold fuel_of; simpl; lia | exact Hs | |].
      - rewrite Hrun. cbn [mbind option_bind].
        rewrite Hspec.
        destruct (IH (args ++ [[c] ++ [] ++ body]) sr') as [sr'' Hrec];
          [unfold len; rewrite Hrest; simpl in *; lia
          | rewrite Hrest; exact Hplain |].
        rewrite Hrest in Hrec. exists sr''. exact Hrec.
      - rewrite Hrun. cbn [mbind option_bind]. rewrite Hspec.
        eexists. reflexivity. }
    rewrite Hadv.
    apply IH; [unfold len; simpl in *; lia | exact Hs].
Qed.

End ClaimMacro.

(** ** Trait values *)

Section ClaimTraits.
Context {floats : FloatParser}.

Lemma parseEscapeSeq_cons c rest last p :
  parseEscapeSeq {| unread_buf := c :: rest; lastRune := last; pos := p |} =
  (escapeValue c, {| unread_buf := rest; lastRune := Some c; pos := p + 1 |}).
Proof.
  unfold escapeValue, parseEscapeSeq, NewParser, read. simpl.
  repeat match goal with
         | |- context [if ?b then _ else _] => destruct b
         end; reflexivity.
Qed.

Lemma escapeValue_nonempty c :
  (c =? eof) = false -> gostring_eqb (escapeValue c) [] = false.
Proof.
  intros Hc. unfold escapeValue, parseEscapeSeq, NewParser, read. simpl.
  rewrite Hc.
  repeat match goal with
         | |- context [if ?b then _ else _] => destruct b
         end; reflexivity.
Qed.

(** Two results that differ in how the final position is written. *)
Ltac same_pos :=
  match goal with
  | |- Some (_, {| unread_buf := _; lastRune := _; pos := ?a |}) =
       Some (_, {| unread_buf := _; lastRune := _; pos := ?b |}) =>
      replace a with b by lia; reflexivity
  end.

Lemma unquotedValue_loop_pieces (stop : Z -> bool) (rest : list Z) :
  stop SymEscapeSeq = false ->
  endsUnquoted stop rest = true ->
  forall ps fuel rawBuf valueBuf last p,
  (length ps < fuel)%nat ->
  forallb (unquotedPiece stop) ps = true ->
  unquotedValue_loop fuel stop rawBuf valueBuf
    {| unread_buf := sourceText ps ++ rest; lastRune := last; pos := p |} =
  Some (valueBuf ++ decodedText ps, rawBuf ++ sourceText ps, None,
        {| unread_buf := rest; lastRune := None;
           pos := p + Z.of_nat (length (sourceText ps)) |}).
Proof.
  intros Hcaret Hrest.
  induction ps as [|pc ps IH]; intros fuel rawBuf valueBuf last p Hf Hps;
    (destruct fuel as [|fuel]; [simpl in Hf; lia|]).
  - cbn [sourceText decodedText flat_map app length].
    rewrite !app_nil_r, Z.add_0_r.
    destruct rest as [|c rest]; [reflexivity|].
    cbn [endsUnquoted] in Hrest.
    assert (Hc : (c =? RuneError) = false /\ (c =? eof) || stop c = true).
    { destruct (c =? RuneError) eqn:Hr.
      - rewrite andb_false_r, orb_false_r in Hrest.
        unfold eof, RuneError in *. lia.
      - rewrite andb_true_r in Hrest. auto. }
    destruct Hc as [Hr Hstop].
    cbn [unquotedValue_loop peek unread_buf pos lastRune].
    rewrite Hr, Hstop. reflexivity.
  - cbn [forallb] in Hps. apply andb_true_iff in Hps. destruct Hps as [Hpc Hps].
    simpl in Hf.
    destruct pc as [c|c]; cbn [unquotedPiece] in Hpc;
      cbn [sourceText decodedText flat_map renderPiece decodePiece app];
      fold (sourceText ps); fold (decodedText ps).
    + assert (Hc : (c =? eof) = false /\ (c =? RuneError) = false
                   /\ (c =? SymEscapeSeq) = false /\ stop c = false).
      { destruct (stop c); [rewrite andb_false_r in Hpc; discriminate|]. lia. }
      destruct Hc as (Heof & Hr & Hesc & Hstop).
      cbn [unquotedValue_loop peek read unread_buf pos lastRune].
      rewrite Hr, Heof, Hstop.
      cbn [orb read unread_buf pos lastRune]. rewrite Hesc.
      rewrite IH by (try lia; assumption).
      rewrite <- !app_assoc. cbn [app length]. same_pos.
    + assert (Hc : (c =? eof) = false /\ (c =? RuneError) = false) by lia.
      destruct Hc as (Heof & Hr).
      cbn [unquotedValue_loop peek read unread_buf pos lastRune].
      change (SymEscapeSeq =? RuneError) with false. cbv beta iota.
      change (SymEscapeSeq =? eof) with false.
      rewrite Hcaret.
      cbn [orb peek read unread_buf pos lastRune].
      change (SymEscapeSeq =? SymEscapeSeq) with true.
      cbn [peek read unread_buf pos lastRune]. rewrite Hr.
      rewrite parseEscapeSeq_cons, (escapeValue_nonempty _ Heof).
      rewrite IH by (try lia; assumption).
      rewrite <- !app_assoc. cbn [app length]. same_pos.
Qed.

Lemma quotedValue_loop_pieces (q : Z) (rest : list Z) :
  forall ps fuel rawBuf valueBuf last p,
  (length ps < fuel)%nat ->
  forallb (quotedPiece q) ps = true ->
  (q =? eof) = false -> (q =? SymEscapeSeq) = false ->
  quotedValue_loop fuel q rawBuf valueBuf
    {| unread_buf := sourceText ps ++ q :: rest; lastRune := last; pos := p |} =
  Some (valueBuf ++ decodedText ps, rawBuf ++ sourceText ps ++ [q], None,
        {| unread_buf := rest; lastRune := Some q;
           pos := p + Z.of_nat (length (sourceText ps)) + 1 |}).
Proof.
  induction ps as [|pc ps IH]; intros fuel rawBuf valueBuf last p Hf Hps Hq1 Hq2;
    (destruct fuel as [|fuel]; [simpl in Hf; lia|]).
  - cbn [sourceText decodedText flat_map app length].
    rewrite !app_nil_r, Z.add_0_r.
    cbn [quotedValue_loop read unread_buf pos lastRune].
    rewrite Hq1, Hq2, Z.eqb_refl. reflexivity.
  - cbn [forallb] in Hps. apply andb_true_iff in Hps. destruct Hps as [Hpc Hps].
    simpl in Hf.
    destruct pc as [c|c]; cbn [quotedPiece] in Hpc;
      cbn [sourceText decodedText flat_map renderPiece decodePiece app];
      fold (sourceText ps); fold (decodedText ps).
    + assert (Hc : (c =? eof) = false /\ (c =? SymEscapeSeq) = false
                   /\ (c =? q) = false) by lia.
      destruct Hc as (Heof & Hesc & Hcq).
      cbn [quotedValue_loop read unread_buf pos lastRune].
      rewrite Heof, Hesc, Hcq.
      rewrite IH by (try lia; assumption).
      rewrite <- !app_assoc. cbn [app length]. same_pos.
    + assert (Hc : (c =? eof) = false /\ (c =? RuneError) = false) by lia.
      destruct Hc as (Heof & Hr).
      cbn [quotedValue_loop read unread_buf pos lastRune].
      change (SymEscapeSeq =? eof) with false.
      change (SymEscapeSeq =? SymEscapeSeq) with true.
      cbn [peek read unread_buf pos lastRune]. rewrite Hr.
      rewrite parseEscapeSeq_cons, (escapeValue_nonempty _ Heof).
      rewrite IH by (try lia; assumption).
      rewrite <- !app_assoc. cbn [app length]. same_pos.
Qed.

Lemma quotedValue_loop_unmatched (q : Z) :
  forall ps fuel rawBuf valueBuf last p,
  (length ps < fuel)%nat ->
  forallb (quotedPiece q) ps = true ->
  exists sr',
  quotedValue_loop fuel q rawBuf valueBuf
    {| unread_buf := sourceText ps; lastRune := last; pos := p |} =
  Some ([], rawBuf ++ sourceText ps, Some ErrUnmatchedQuote, sr').
Proof.
  induction ps as [|pc ps IH]; intros fuel rawBuf valueBuf last p Hf Hps;
    (destruct fuel as [|fuel]; [simpl in Hf; lia|]).
  - cbn [sourceText flat_map]. rewrite app_nil_r. eexists. reflexivity.
  - cbn [forallb] in Hps. apply andb_true_iff in Hps. destruct Hps as [Hpc Hps].
    simpl in Hf.
    destruct pc as [c|c]; cbn [quotedPiece] in Hpc;
      cbn [sourceText flat_map renderPiece app]; fold (sourceText ps).
    + assert (Hc : (c =? eof) = false /\ (c =? SymEscapeSeq) = false
                   /\ (c =? q) = false) by lia.
      destruct Hc as (Heof & Hesc & Hcq).
      cbn [quotedValue_loop read unread_buf pos lastRune].
      rewrite Heof, Hesc, Hcq.
      destruct (IH fuel (rawBuf ++ [c]) (valueBuf ++ [c]) (Some c) (p + 1))
        as [sr' Hrun]; [lia | assumption |].
      rewrite Hrun, <- app_assoc. eexists. reflexivity.
    + assert (Hc : (c =? eof) = false /\ (c =? RuneError) = false) by lia.
      destruct Hc as (Heof & Hr).
      cbn [quotedValue_loop read unread_buf pos lastRune].
      change (SymEscapeSeq =? eof) with false.
      change (SymEscapeSeq =? SymEscapeSeq) with true.
      cbn [peek read unread_buf pos lastRune]. rewrite Hr.
      rewrite parseEscapeSeq_cons, (escapeValue_nonempty _ Heof).
      destruct (IH fuel ((rawBuf ++ [SymEscapeSeq]) ++ [c])
                  (valueBuf ++ escapeValue c) (Some c) (p + 1 + 1))
        as [sr' Hrun]; [lia | assumption |].
      rewrite Hrun, <- !app_assoc. eexists. reflexivity.
Qed.

Lemma sourceText_length ps : (length ps <= length (sourceText ps))%nat.
Proof.
  induction ps as [|pc ps IH]; [simpl; lia|].
  destruct pc; cbn [sourceText flat_map renderPiece app length];
    fold (sourceText ps); lia.
Qed.

Lemma peek_plain c rest last p :
  (c =? RuneError) = false ->
  peek {| unread_buf := c :: rest; lastRune := last; pos := p |} =
  (c, None, {| unread_buf := c :: rest; lastRune := None; pos := p |}).
Proof. intros H. unfold peek. simpl. rewrite H. reflexivity. Qed.

(** An unquoted trait value: read up to the end of the input, the end
    marker or the first stop character, with the escapes decoded, and then
    type-inferred. *)
Lemma parseTraitValue_unquoted ps rest last p :
  forallb (unquotedPiece traitValueStop) ps = true ->
  endsUnquoted traitValueStop rest = true ->
  startsUnquoted (sourceText ps ++ rest) = true ->
  parseTraitValue
    {| unread_buf := sourceText ps ++ rest; lastRune := last; pos := p |} =
  Some (inferType (decodedText ps) false, sourceText ps, None,
        {| unread_buf := rest; lastRune := None;
           pos := p + Z.of_nat (length (sourceText ps)) |}).
Proof.
  intros Hps Hrest Hstart.
  pose proof (unquotedValue_loop_pieces traitValueStop rest eq_refl Hrest ps)
    as Hloop.
  unfold parseTraitValue.
  assert (Hpeek : exists first,
    peek {| unread_buf := sourceText ps ++ rest; lastRune := last; pos := p |} =
    (first, None, {| unread_buf := sourceText ps ++ rest; lastRune := None;
                     pos := p |})
    /\ isQuote first = false /\ (first =? SymArrayStart) = false).
  { destruct (sourceText ps ++ rest) as [|c s] eqn:Es.
    - exists eof. repeat split; reflexivity.
    - exists c. cbn [startsUnquoted] in Hstart.
      assert (Hr : (c =? RuneError) = false).
      { destruct ps as [|[d|d] ps].
        - cbn [sourceText flat_map app] in Es. subst rest.
          cbn [endsUnquoted] in Hrest.
          destruct (c =? RuneError) eqn:Hr; [|reflexivity].
          rewrite andb_false_r, orb_false_r in Hrest.
          unfold eof, RuneError in *. lia.
        - cbn [sourceText flat_map renderPiece app] in Es.
          injection Es as -> _. cbn [forallb unquotedPiece] in Hps. lia.
        - cbn [sourceText flat_map renderPiece app] in Es.
          injection Es as <- _. reflexivity. }
      rewrite (peek_plain _ _ _ _ Hr).
      repeat split; [destruct (isQuote c) | destruct (c =? SymArrayStart)];
        try reflexivity; simpl in Hstart; try discriminate.
      rewrite andb_false_r in Hstart. discriminate. }
  destruct Hpeek as (first & -> & Hq & Harr).
  rewrite Hq, Harr.
  rewrite Hloop; [reflexivity | | exact Hps].
  unfold fuel_of. cbn [unread_buf]. rewrite length_app.
  pose proof (sourceText_length ps). lia.
Qed.

Lemma isQuote_spec q :
  isQuote q = true ->
  (q =? eof) = false /\ (q =? SymEscapeSeq) = false /\ (q =? RuneError) = false.
Proof.
  unfold isQuote, SymArgDoubleQuote, SymArgSingleQuote, eof, SymEscapeSeq, RuneError.
  lia.
Qed.

(** A quoted trait value is the string between the quotes, escapes
    decoded, whatever it looks like. *)
Lemma parseTraitValue_quoted q ps rest last p :
  isQuote q = true ->
  forallb (quotedPiece q) ps = true ->
  parseTraitValue
    {| unread_buf := q :: sourceText ps ++ q :: rest; lastRune := last;
       pos := p |} =
  Some (TString (decodedText ps), q :: sourceText ps ++ [q], None,
        {| unread_buf := rest; lastRune := Some q;
           pos := p + 1 + Z.of_nat (length (sourceText ps)) + 1 |}).
Proof.
  intros Hq Hps. destruct (isQuote_spec q Hq) as (Heof & Hesc & Hr).
  unfold parseTraitValue.
  rewrite (peek_plain _ _ _ _ Hr), Hq.
  cbn [read unread_buf pos lastRune].
  rewrite (quotedValue_loop_pieces q rest ps); try assumption.
  - reflexivity.
  - unfold fuel_of. cbn [unread_buf]. rewrite length_app.
    pose proof (sourceText_length ps). lia.
Qed.

Lemma parseTraitValue_unmatched_quote q ps last p :
  isQuote q = true ->
  forallb (quotedPiece q) ps = true ->
  exists sr',
  parseTraitValue
    {| unread_buf := q :: sourceText ps; lastRune := last; pos := p |} =
  Some (TString [], q :: sourceText ps, Some ErrUnmatchedQuote, sr').
Proof.
  intros Hq Hps. destruct (isQuote_spec q Hq) as (Heof & Hesc & Hr).
  unfold parseTraitValue.
  rewrite (peek_plain _ _ _ _ Hr), Hq.
  cbn [read unread_buf pos lastRune].
  destruct (quotedValue_loop_unmatched q ps
              (fuel_of {| unread_buf := sourceText ps; lastRune := Some q;
                          pos := p + 1 |}) [q] [] (Some q) (p + 1))
    as [sr' Hrun]; [|exact Hps|].
  - unfold fuel_of. cbn [unread_buf]. pose proof (sourceText_length ps). lia.
  - rewrite Hrun. eexists. reflexivity.
Qed.

(** *** Type inference *)

Lemma ParseInt_not_bool value i :
  ParseInt value = Some i ->
  gostring_eqb value [] = false
  /\ gostring_eqb value (runes "true") = false
  /\ gostring_eqb value (runes "false") = false.
Proof.
  intros H. repeat split.
  - destruct value; [discriminate | reflexivity].
  - destruct (gostring_eqb value (runes "true")) eqn:E; [|reflexivity].
    apply gostring_eqb_eq in E. subst value. vm_compute in H. discriminate.
  - destruct (gostring_eqb value (runes "false")) eqn:E; [|reflexivity].
    apply gostring_eqb_eq in E. subst value. vm_compute in H. discriminate.
Qed.

Lemma inferType_int value i :
  ParseInt value = Some i -> inferType value false = TInt i.
Proof.
  intros H. destruct (ParseInt_not_bool value i H) as (H1 & H2 & H3).
  unfold inferType. rewrite H1, H2, H3, H. reflexivity.
Qed.

Lemma inferType_float value f :
  value <> [] -> value <> runes "true" -> value <> runes "false" ->
  ParseInt value = None -> ParseFloat value = Some f ->
  inferType value false = TFloat f.
Proof.
  intros H1 H2 H3 Hi Hf. apply gostring_eqb_neq in H1, H2, H3.
  unfold inferType. rewrite H1, H2, H3, Hi, Hf. reflexivity.
Qed.

Lemma inferType_string value :
  value <> runes "true" -> value <> runes "false" ->
  ParseInt value = None -> ParseFloat value = None ->
  inferType value false = TString value.
Proof.
  intros H2 H3 Hi Hf. apply gostring_eqb_neq in H2, H3.
  unfold inferType. rewrite H2, H3, Hi, Hf.
  destruct (gostring_eqb value []) eqn:E; [|reflexivity].
  apply gostring_eqb_eq in E. subst. reflexivity.
Qed.

Lemma inferType_bool value b :
  inferType value false = TBool b ->
  value = if b then runes "true" else runes "false".
Proof.
  unfold inferType.
  destruct (gostring_eqb value []); [discriminate|].
  destruct (gostring_eqb value (runes "true")) eqn:Et.
  { apply gostring_eqb_eq in Et. intros [= <-]. exact Et. }
  destruct (gostring_eqb value (runes "false")) eqn:Ef.
  { apply gostring_eqb_eq in Ef. intros [= <-]. exact Ef. }
  destruct (ParseInt value); [discriminate|].
  destruct (ParseFloat value); discriminate.
Qed.

Lemma decimal_value_nonneg s : forall acc,
  forallb isDigit s = true -> 0 <= acc -> 0 <= decimal_value acc s.
Proof.
  induction s as [|c s IH]; intros acc Hs Hacc; [exact Hacc|].
  cbn [forallb] in Hs. apply andb_true_iff in Hs. destruct Hs as [Hc Hs].
  cbn [decimal_value]. apply IH; [exact Hs|].
  unfold isDigit, in_range in Hc.
  change (chr "0") with 48 in *. change (chr "9") with 57 in *. lia.
Qed.

Lemma ParseInt_range value i :
  ParseInt value = Some i -> - 2 ^ 63 <= i < 2 ^ 63.
Proof.
  unfold ParseInt. destruct value as [|c s]; [discriminate|].
  destruct (ParseUint_digits _) as [un|] eqn:Hun; [|discriminate].
  assert (Hpos : 0 <= un).
  { unfold ParseUint_digits in Hun.
    destruct (if (c =? chr "+") || (c =? chr "-") then s else c :: s)
      as [|d ds]; [discriminate|].
    destruct (forallb isDigit (d :: ds)) eqn:Hd; [|discriminate].
    injection Hun as <-.
    apply (decimal_value_nonneg (d :: ds) 0); [exact Hd | lia]. }
  destruct (c =? chr "-") eqn:Hneg; cbn [negb andb].
  - destruct (2 ^ 63 <? un) eqn:Hlt; [discriminate|].
    intros [= <-]. lia.
  - destruct (2 ^ 63 <=? un) eqn:Hle; [discriminate|].
    intros [= <-]. lia.
Qed.

End ClaimTraits.

Section ClaimTheorems.
Context {codec : JSONCodec}.

(** Braces inside a JSON string, and an escaped quote inside it, do not
    close the span. *)
Example jsonSpan_string_braces :
  jsonSpan 0 false false
    (dq ++ runes "a}\" ++ dq ++ runes "{" ++ dq ++ runes ":{}}x") =
  Some (dq ++ runes "a}\" ++ dq ++ runes "{" ++ dq ++ runes ":{}}", runes "x").
Proof. vm_compute. reflexivity. Qed.

(** C7, as amended: input-macro content is split as [splitMacro] says;
    an open [{] runs to the next [}] even across a chain terminator, and
    fails only at the end of the input. *)
Theorem C7_input_macro_split :
  (forall s, forallb macroChar s = true ->
     exists sr',
       parseInputMacroArg (NewParser s) =
       Some (fst (splitMacro Normal [] s), ∅, snd (splitMacro Normal [] s), sr'))
  /\ splitMacro Normal [] (runes "ab\n\") =
       ([runes "a"; runes "b"; runes "n"; runes "\"], None)
  /\ splitMacro Normal [] (runes "a{enter}b") =
       ([runes "a"; runes "{enter}"; runes "b"], None)
  /\ splitMacro Normal [] (runes "{a||b}c") = ([runes "{a||b}"; runes "c"], None)
  /\ splitMacro Normal [] (runes "ab||cd") = ([runes "a"; runes "b"], None)
  /\ splitMacro Normal [] (runes "{enter") = ([], Some ErrUnmatchedInputMacroExt)
  /\ splitMacro Normal [] (runes "{a||b") = ([], Some ErrUnmatchedInputMacroExt)
  /\ ParseScript (NewParser (runes "**input.keyboard:a{enter}b\")) =
       Some (scriptOf [namedCmd ZapScriptCmdInputKeyboard
                         [runes "a"; runes "{enter}"; runes "b"; runes "\"]],
             None, atEnd 27)
  /\ ParseScript (NewParser (runes "**input.keyboard:{enter")) =
       Some (emptyScript, Some (ParseErrorAt 23 ErrUnmatchedInputMacroExt),
             atEnd 23).
Proof.
  split.
  { intros s Hs. unfold parseInputMacroArg.
    apply (parseInputMacroArg_loop_refines _ [] (NewParser s));
      [unfold fuel_of, len; lia | exact Hs]. }
  repeat split; vm_compute; reflexivity.
Qed.

(** C10: the advanced-argument scanner never stores an empty key, and so
    no command of a parsed script carries one. *)
Theorem C10_no_empty_advarg_key :
  (forall sr, exists advArgs buf err sr',
      parseAdvArgs sr = Some (advArgs, buf, err, sr') /\ advArgs !! [] = None)
  /\ (forall input, exists script err sr',
        ParseScript (NewParser input) = Some (script, err, sr')
        /\ Forall cmd_ok (Cmds script))
  /\ parseAdvArgs (NewParser (runes "=x")) =
       Some (∅, runes "=x", None, atEnd 2)
  /\ parseAdvArgs (NewParser (runes "a=1&=2")) =
       Some (<[runes "a" := runes "1"]> ∅, runes "a=1&=2", None, atEnd 6)
  /\ ParseScript (NewParser (runes "**cmd?=x")) =
       Some (scriptOf [namedCmd (runes "cmd") []], None, atEnd 8)
  /\ ParseScript (NewParser (runes "**cmd?a=1&=2")) =
       Some (scriptOf
               [ {| AdvArgs := Some (<[runes "a" := runes "1"]> ∅);
                    Name := runes "cmd"; Args := [] |} ],
             None, atEnd 12).
Proof.
  split.
  { intros sr. pose proof (parseAdvArgs_post sr) as H.
    destruct (parseAdvArgs sr) as [[[[advArgs buf] err] sr']|]; [|contradiction].
    destruct H as [_ [_ Hm]]. exists advArgs, buf, err, sr'. auto. }
  split.
  { intros input. pose proof (ParseScript_post (NewParser input)) as H.
    destruct (ParseScript (NewParser input)) as [[[script err] sr']|];
      [|contradiction].
    destruct H as [_ [_ Hs]]. exists script, err, sr'. auto. }
  repeat split; vm_compute; reflexivity.
Qed.

End ClaimTheorems.

(** C7 as stated is false: a chain terminator inside an open [{] does not
    make the scan fail. *)
Lemma C7_counterexample :
  ~ exists (codec : JSONCodec) args advArgs e sr,
      parseInputMacroArg (NewParser (runes "{a||b}")) =
      Some (args, advArgs, Some e, sr).
Proof.
  intros (codec & args & advArgs & e & sr & H).
  vm_compute in H. discriminate.
Qed.

Lemma C7_witness :
  forallb macroChar (runes "a{b}") = true
  /\ exists sr',
       @parseInputMacroArg tableCodec (NewParser (runes "a{b}")) =
       Some (fst (splitMacro Normal [] (runes "a{b}")), ∅,
             snd (splitMacro Normal [] (runes "a{b}")), sr').
Proof.
  split; [reflexivity|].
  apply (proj1 (@C7_input_macro_split tableCodec)). reflexivity.
Defined.


Section ClaimTraitTheorem.
Context {floats : FloatParser}.

(** C8, as amended: an unquoted trait value is read up to whitespace, [#],
    a chain-separator character (one [|] is enough), the end marker or the
    end of the input, escapes decoded, and is then type-inferred: exactly
    [true] and [false] become booleans, a base-10 int64 an integer, else a
    float the float, anything else (the empty string too) a string; a
    quoted value is the string between its quotes. *)
Theorem C8_trait_value :
  (forall ps rest last p,
     forallb (unquotedPiece traitValueStop) ps = true ->
     endsUnquoted traitValueStop rest = true ->
     startsUnquoted (sourceText ps ++ rest) = true ->
     parseTraitValue
       {| unread_buf := sourceText ps ++ rest; lastRune := last; pos := p |} =
     Some (inferType (decodedText ps) false, sourceText ps, None,
           {| unread_buf := rest; lastRune := None;
              pos := p + Z.of_nat (length (sourceText ps)) |}))
  /\ (forall c, traitValueStop c = true <->
                c = SymCmdSep \/ isWhitespace c = true \/ c = SymTraitsStart)
  /\ (forall q ps rest last p,
        isQuote q = true ->
        forallb (quotedPiece q) ps = true ->
        parseTraitValue
          {| unread_buf := q :: sourceText ps ++ q :: rest; lastRune := last;
             pos := p |} =
        Some (TString (decodedText ps), q :: sourceText ps ++ [q], None,
              {| unread_buf := rest; lastRune := Some q;
                 pos := p + 1 + Z.of_nat (length (sourceText ps)) + 1 |}))
  /\ inferType (runes "true") false = TBool true
  /\ inferType (runes "false") false = TBool false
  /\ (forall value b,
        inferType value false = TBool b ->
        value = if b then runes "true" else runes "false")
  /\ (forall value i,
        ParseInt value = Some i ->
        inferType value false = TInt i /\ - 2 ^ 63 <= i < 2 ^ 63)
  /\ (forall value f,
        value <> [] -> value <> runes "true" -> value <> runes "false" ->
        ParseInt value = None -> ParseFloat value = Some f ->
        inferType value false = TFloat f)
  /\ (forall value,
        value <> runes "true" -> value <> runes "false" ->
        ParseInt value = None -> ParseFloat value = None ->
        inferType value false = TString value)
  /\ inferType [] false = TString []
  /\ (forall value, inferType value true = TString value)
  /\ parseTraitsSyntax (NewParser (runes "n=42")) =
       Some (Some (traitsOf [(runes "n", TInt 42)]), None, atEnd 4)
  /\ parseTraitsSyntax (NewParser (runes "n=-5")) =
       Some (Some (traitsOf [(runes "n", TInt (-5))]), None, atEnd 4)
  /\ (forall f, ParseFloat (runes "3.14") = Some f ->
        parseTraitsSyntax (NewParser (runes "n=3.14")) =
        Some (Some (traitsOf [(runes "n", TFloat f)]), None, atEnd 6))
  /\ parseTraitsSyntax (NewParser (runes "b=true")) =
       Some (Some (traitsOf [(runes "b", TBool true)]), None, atEnd 6)
  /\ parseTraitsSyntax (NewParser (runes "s=" ++ dq ++ runes "123" ++ dq)) =
       Some (Some (traitsOf [(runes "s", TString (runes "123"))]), None,
             {| unread_buf := []; lastRune := None; pos := 7 |})
  /\ parseTraitsSyntax (NewParser (runes "flag")) =
       Some (Some (traitsOf [(runes "flag", TBool true)]), None, atEnd 4)
  /\ parseTraitValue (NewParser (runes "a|b")) =
       Some (inferType (runes "a") false, runes "a", None,
             {| unread_buf := runes "|b"; lastRune := None; pos := 1 |}).
Proof.
  split; [exact parseTraitValue_unquoted|].
  split.
  { intros c. unfold traitValueStop. rewrite !orb_true_iff, !Z.eqb_eq. tauto. }
  split; [exact parseTraitValue_quoted|].
  split; [reflexivity|]. split; [reflexivity|].
  split; [exact inferType_bool|].
  split.
  { intros value i H. split; [apply inferType_int; exact H|].
    apply (ParseInt_range value). exact H. }
  split; [exact inferType_float|].
  split; [exact inferType_string|].
  split; [reflexivity|]. split; [reflexivity|].
  split; [vm_compute; reflexivity|].
  split; [vm_compute; reflexivity|].
  split.
  { intros f Hf. vm_compute in Hf. vm_compute. rewrite Hf. reflexivity. }
  repeat split; vm_compute; reflexivity.
Qed.

End ClaimTraitTheorem.

(** C8 as stated is false: the unquoted value [a|b] is not read up to the
    end of the input; the text taken for the value stops at the single [|]. *)
Lemma C8_counterexample :
  ~ exists (floats : FloatParser) value sr,
      parseTraitValue (NewParser (runes "a|b")) =
      Some (value, runes "a|b", None, sr).
Proof.
  intros (floats & value & sr & H). vm_compute in H. discriminate.
Qed.

Lemma C8_witness :
  (forallb (unquotedPiece traitValueStop) [Plain (chr "4"); Escaped (chr "n")]
     = true
   /\ endsUnquoted traitValueStop (runes " #b") = true
   /\ @ParseFloat tableFloats (runes "3.14") = Some float_3_14)
  /\ @parseTraitValue tableFloats (NewParser (runes "4^n #b")) =
       Some (TString [52; 10], runes "4^n", None,
             {| unread_buf := runes " #b"; lastRune := None; pos := 3 |})
  /\ @parseTraitsSyntax tableFloats (NewParser (runes "n=3.14")) =
       Some (Some (traitsOf [(runes "n", TFloat float_3_14)]), None, atEnd 6).
Proof.
  split; [repeat split; reflexivity|].
  split.
  - exact (proj1 (@C8_trait_value tableFloats)
             [Plain (chr "4"); Escaped (chr "n")] (runes " #b") None 0
             eq_refl eq_refl eq_refl).
  - destruct (@C8_trait_value tableFloats)
      as (_ & _ & _ & _ & _ & _ & _ & _ & _ & _ & _ & _ & _ & H & _).
    exact (H float_3_14 eq_refl).
Defined.

(** * Invariants of the cursor and of the parsed script *)

Lemma cursorOf_NewParser input : cursorOf input (NewParser input).
Proof. exists []. simpl. auto. Qed.

Lemma cursorOf_pos input sr :
  cursorOf input sr -> 0 <= pos sr <= Z.of_nat (length input).
Proof.
  intros (consumed & -> & Hp & _). rewrite Hp, length_app. lia.
Qed.

Lemma read_cursor input sr ch sr' :
  cursorOf input sr -> read sr = (ch, sr') -> cursorOf input sr'.
Proof.
  intros (consumed & Hin & Hp & _). unfold read.
  destruct (unread_buf sr) as [|c rest] eqn:E; intros [= <- <-].
  - exists consumed. simpl. auto.
  - exists (consumed ++ [c]). simpl. rewrite <- app_assoc. simpl.
    split; [exact Hin|]. split; [rewrite length_app; simpl; lia | eauto].
Qed.

Lemma unread_cursor input sr err sr' :
  cursorOf input sr -> unread sr = (err, sr') -> cursorOf input sr'.
Proof.
  intros Hc. unfold unread. destruct (lastRune sr) as [c|] eqn:E.
  - intros [= <- <-]. destruct Hc as (consumed & Hin & Hp & Hl).
    rewrite E in Hl. destruct Hl as [pre ->]. exists pre. simpl.
    rewrite <- app_assoc in Hin. split; [exact Hin|].
    rewrite length_app in Hp. simpl in Hp. split; [lia | exact I].
  - intros [= <- <-]. exact Hc.
Qed.

Lemma peek_cursor input sr next err sr' :
  cursorOf input sr -> peek sr = (next, err, sr') -> cursorOf input sr'.
Proof.
  intros (consumed & Hin & Hp & _) H.
  assert (Hs : unread_buf sr' = unread_buf sr /\ pos sr' = pos sr
               /\ lastRune sr' = None).
  { unfold peek in H. destruct (unread_buf sr) as [|c rest].
    - injection H as <- <- <-. auto.
    - destruct (c =? RuneError); injection H as <- <- <-; auto. }
  destruct Hs as (Hb & Hq & Hl). exists consumed.
  rewrite Hb, Hq, Hl. auto.
Qed.

Lemma skip_cursor input sr : cursorOf input sr -> cursorOf input (skip sr).
Proof.
  intros Hc. unfold skip. destruct (read sr) as [ch sr'] eqn:E.
  exact (read_cursor _ _ _ _ Hc E).
Qed.

Lemma checkEndOfCmd_cursor input ch sr eoc err sr' :
  cursorOf input sr -> checkEndOfCmd ch sr = (eoc, err, sr') ->
  cursorOf input sr'.
Proof.
  intros Hc. unfold checkEndOfCmd. destruct (negb (ch =? SymCmdSep)).
  - intros [= <- <- <-]. exact Hc.
  - destruct (peek sr) as [[next [e|]] sr1] eqn:E;
      pose proof (peek_cursor _ _ _ _ _ Hc E) as Hc1.
    + intros [= <- <- <-]. exact Hc1.
    + destruct (next =? eof); [intros [= <- <- <-]; exact Hc1|].
      destruct (next =? SymCmdSep); intros [= <- <- <-];
        [apply skip_cursor|]; exact Hc1.
Qed.

Lemma parseEscapeSeq_cursor input sr next sr' :
  cursorOf input sr -> parseEscapeSeq sr = (next, sr') -> cursorOf input sr'.
Proof.
  intros Hc. unfold parseEscapeSeq. destruct (read sr) as [ch sr1] eqn:E.
  pose proof (read_cursor _ _ _ _ Hc E) as Hc1.
  repeat match goal with
         | |- (if ?c then _ else _) = _ -> _ => destruct c
         end; intros [= <- <-]; exact Hc1.
Qed.

(** A read that returned the end marker either found the input exhausted
    or consumed a NUL code point. *)
Lemma read_eof sr ch sr' :
  read sr = (ch, sr') -> (ch =? eof) = true ->
  unread_buf sr' = [] \/ lastRune sr' = Some eof.
Proof.
  unfold read. destruct (unread_buf sr) as [|c rest]; intros [= <- <-] H.
  - left. reflexivity.
  - right. simpl. apply Z.eqb_eq in H. congruence.
Qed.

Lemma keeps_bind {A B} input (Q : A -> ScriptReader -> Prop)
    (R : B -> ScriptReader -> Prop) (r : option (A * ScriptReader))
    (k : A * ScriptReader -> option (B * ScriptReader)) :
  keeps input Q r ->
  (forall a sr', cursorOf input sr' -> Q a sr' -> keeps input R (k (a, sr'))) ->
  keeps input R (r ≫= k).
Proof.
  destruct r as [[a sr']|]; simpl; [|tauto].
  intros [H1 H2] H. apply H; assumption.
Qed.

Lemma keeps_mono {A} input (Q Q' : A -> ScriptReader -> Prop) r :
  keeps input Q r -> (forall a sr', Q a sr' -> Q' a sr') -> keeps input Q' r.
Proof.
  destruct r as [[a sr']|]; simpl; [|tauto].
  intros [H1 H2] H. split; auto.
Qed.

Create HintDb keep discriminated.

#[export] Hint Resolve skip_cursor : keep.

Ltac keep_call := fail.

Ltac keep_q := first [solve [eauto with keep] | repeat split; eauto with keep].

Ltac keep_destruct x :=
  lazymatch x with
  | read ?sr =>
      let E := fresh "Hread" in
      destruct (read sr) as [? ?] eqn:E;
      match goal with
      | H : cursorOf _ sr |- _ => pose proof (read_cursor _ _ _ _ H E)
      end
  | peek ?sr =>
      let E := fresh "Hpeek" in
      destruct (peek sr) as [[? [?|]] ?] eqn:E;
      match goal with
      | H : cursorOf _ sr |- _ => pose proof (peek_cursor _ _ _ _ _ H E)
      end
  | unread ?sr =>
      let E := fresh "Hunread" in
      destruct (unread sr) as [[?|] ?] eqn:E;
      match goal with
      | H : cursorOf _ sr |- _ => pose proof (unread_cursor _ _ _ _ H E)
      end
  | checkEndOfCmd ?ch ?sr =>
      let E := fresh "Heoc" in
      destruct (checkEndOfCmd ch sr) as [[? [?|]] ?] eqn:E;
      match goal with
      | H : cursorOf _ sr |- _ => pose proof (checkEndOfCmd_cursor _ _ _ _ _ _ H E)
      end
  | parseEscapeSeq ?sr =>
      let E := fresh "Hesc" in
      destruct (parseEscapeSeq sr) as [? ?] eqn:E;
      match goal with
      | H : cursorOf _ sr |- _ => pose proof (parseEscapeSeq_cursor _ _ _ _ H E)
      end
  | _ => destruct x eqn:?
  end; cbv beta iota.

Ltac keep_step IH :=
  lazymatch goal with
  | |- keeps _ _ (Some _) => unfold keeps; cbv beta iota; split; [keep_q | keep_q]
  | |- keeps _ _ None => exact I
  | |- keeps _ _ (_ ≫= _) => keep_call; cbv beta iota
  | |- keeps _ _ (match ?e with _ => _ end) =>
      let x := scrutinee e in keep_destruct x
  | |- keeps _ _ _ => apply IH; keep_q
  end.

Lemma parseExpression_loop_keeps input fuel : forall rawExpr sr,
  cursorOf input sr ->
  keeps input anyResult (parseExpression_loop fuel rawExpr sr).
Proof.
  induction fuel as [|fuel IH]; intros rawExpr sr Hc; [exact I|].
  cbn [parseExpression_loop].
  repeat keep_step IH.
Qed.

Lemma parseExpression_keeps input sr :
  cursorOf input sr -> keeps input anyResult (parseExpression sr).
Proof.
  intros Hc. unfold parseExpression.
  destruct (read sr) as [next sr1] eqn:E.
  pose proof (read_cursor _ _ _ _ Hc E) as Hc1.
  destruct (negb (next =? SymExpressionStart)).
  - destruct (unread sr1) as [[e|] sr2] eqn:E2;
      pose proof (unread_cursor _ _ _ _ Hc1 E2); simpl; split; auto; exact I.
  - apply parseExpression_loop_keeps. exact Hc1.
Qed.

Ltac keep_call ::=
  match goal with
  | |- keeps _ _ (parseExpression ?sr ≫= _) =>
      eapply keeps_bind; [apply parseExpression_keeps; assumption | intros [? ?] ? ? ?]
  end.

Lemma ParseExpressions_loop_keeps input fuel : forall result sr,
  cursorOf input sr ->
  keeps input anyResult (ParseExpressions_loop fuel result sr).
Proof.
  induction fuel as [|fuel IH]; intros result sr Hc; [exact I|].
  cbn [ParseExpressions_loop].
  repeat keep_step IH.
Qed.

Lemma parseQuotedArg_loop_keeps input fuel : forall start arg sr,
  cursorOf input sr ->
  keeps input anyResult (parseQuotedArg_loop fuel start arg sr).
Proof.
  induction fuel as [|fuel IH]; intros start arg sr Hc; [exact I|].
  cbn [parseQuotedArg_loop].
  repeat keep_step IH.
Qed.

Lemma parseQuotedArg_keeps input start sr :
  cursorOf input sr -> keeps input anyResult (parseQuotedArg start sr).
Proof. intros Hc. unfold parseQuotedArg. apply parseQuotedArg_loop_keeps. exact Hc. Qed.

(** [strings.TrimSpace] is idempotent. *)
Lemma trimLeft_noLead s : noLead (trimLeft s).
Proof.
  induction s as [|c s IH]; simpl; [exact I|].
  destruct (unicode_IsSpace c) eqn:E; [exact IH | simpl; exact E].
Qed.

Lemma noLead_trimLeft s : noLead s -> trimLeft s = s.
Proof. destruct s as [|c s]; simpl; [reflexivity|]. intros ->. reflexivity. Qed.

Lemma trimLeft_split s : exists ws, s = ws ++ trimLeft s.
Proof.
  induction s as [|c s [ws IH]]; simpl; [exists []; reflexivity|].
  destruct (unicode_IsSpace c).
  - exists (c :: ws). simpl. congruence.
  - exists []. reflexivity.
Qed.

Lemma trimmed_TrimSpace s : trimmed (TrimSpace s).
Proof.
  unfold trimmed, TrimSpace.
  pose proof (trimLeft_noLead s) as Ht. set (t := trimLeft s) in *.
  pose proof (trimLeft_noLead (rev t)) as Hu.
  destruct (trimLeft_split (rev t)) as [ws Hws].
  set (u := trimLeft (rev t)) in *.
  assert (Hl : noLead (rev u)).
  { assert (Et : t = rev u ++ rev ws).
    { rewrite <- (rev_involutive t), Hws, rev_app_distr. reflexivity. }
    destruct (rev u) as [|c r]; [exact I|].
    rewrite Et in Ht. exact Ht. }
  rewrite (noLead_trimLeft _ Hl), rev_involutive, (noLead_trimLeft _ Hu).
  reflexivity.
Qed.

Lemma trimmed_nil : trimmed [].
Proof. reflexivity. Qed.

Lemma advKeysOk_empty : advKeysOk ∅.
Proof. apply map_Forall_empty. Qed.

Lemma advKeysOk_storeArg m k v :
  advKeysOk m -> forallb isAdvArgName k = true -> advKeysOk (storeArg m k v).
Proof.
  unfold storeArg, advKeysOk. intros Hm Hk.
  destruct (gostring_eqb k []) eqn:E; simpl; [assumption|].
  apply gostring_eqb_neq in E.
  apply map_Forall_insert_2; [|assumption].
  split; [split; assumption | apply trimmed_TrimSpace].
Qed.

Lemma validName_snoc k c :
  forallb isAdvArgName k = true -> negb (isAdvArgName c) = false ->
  forallb isAdvArgName (k ++ [c]) = true.
Proof.
  intros Hk Hc. rewrite forallb_app, Hk. simpl.
  apply negb_false_iff in Hc. rewrite Hc. reflexivity.
Qed.

#[export] Hint Resolve advKeysOk_empty advKeysOk_storeArg validName_snoc
  trimmed_TrimSpace trimmed_nil : keep.

Section ArgumentsKeep.

Context {codec : JSONCodec}.

Lemma parseJSONArg_loop_keeps input fuel : forall braceCount inString escaped jb sr,
  cursorOf input sr ->
  keeps input anyResult (parseJSONArg_loop fuel braceCount inString escaped jb sr).
Proof.
  induction fuel as [|fuel IH]; intros braceCount inString escaped jb sr Hc;
    [exact I|].
  cbn [parseJSONArg_loop].
  destruct (negb (braceCount >? 0)).
  - destruct (json_validate _). simpl. split; [assumption | exact I].
  - repeat keep_step IH.
Qed.

Lemma parseJSONArg_keeps input sr :
  cursorOf input sr -> keeps input anyResult (parseJSONArg sr).
Proof. intros Hc. unfold parseJSONArg. apply parseJSONArg_loop_keeps. exact Hc. Qed.

Ltac keep_call ::=
  match goal with
  | |- keeps _ _ (parseExpression ?sr ≫= _) =>
      eapply keeps_bind; [apply parseExpression_keeps; assumption | intros [? ?] ? ? ?]
  | |- keeps _ _ (parseQuotedArg ?c ?sr ≫= _) =>
      eapply keeps_bind; [apply parseQuotedArg_keeps; assumption | intros [? ?] ? ? ?]
  | |- keeps _ _ (parseJSONArg ?sr ≫= _) =>
      eapply keeps_bind; [apply parseJSONArg_keeps; assumption | intros [? ?] ? ? ?]
  end.

Lemma parseAdvArgs_loop_keeps input fuel :
  forall advArgs inValue currentArg currentValue valueStart buf sr,
  cursorOf input sr -> advKeysOk advArgs ->
  forallb isAdvArgName currentArg = true ->
  keeps input (fun '(m, _, _) _ => advKeysOk m)
    (parseAdvArgs_loop fuel advArgs inValue currentArg currentValue
       valueStart buf sr).
Proof.
  induction fuel as [|fuel IH];
    intros advArgs inValue currentArg currentValue valueStart buf sr Hc Hm Hk;
    [exact I|].
  cbn [parseAdvArgs_loop].
  repeat keep_step IH.
Qed.

Lemma parseAdvArgs_keeps input sr :
  cursorOf input sr ->
  keeps input (fun '(m, _, _) _ => advKeysOk m) (parseAdvArgs sr).
Proof.
  intros Hc. unfold parseAdvArgs.
  apply parseAdvArgs_loop_keeps; auto using advKeysOk_empty.
Qed.

Lemma inputMacroExt_loop_keeps input fuel : forall extBuilder sr,
  cursorOf input sr ->
  keeps input anyResult (inputMacroExt_loop fuel extBuilder sr).
Proof.
  induction fuel as [|fuel IH]; intros extBuilder sr Hc; [exact I|].
  cbn [inputMacroExt_loop].
  repeat keep_step IH.
Qed.

Ltac keep_call ::=
  match goal with
  | |- keeps _ _ (parseExpression ?sr ≫= _) =>
      eapply keeps_bind; [apply parseExpression_keeps; assumption | intros [? ?] ? ? ?]
  | |- keeps _ _ (parseQuotedArg ?c ?sr ≫= _) =>
      eapply keeps_bind; [apply parseQuotedArg_keeps; assumption | intros [? ?] ? ? ?]
  | |- keeps _ _ (parseJSONArg ?sr ≫= _) =>
      eapply keeps_bind; [apply parseJSONArg_keeps; assumption | intros [? ?] ? ? ?]
  | |- keeps _ _ (parseAdvArgs ?sr ≫= _) =>
      eapply keeps_bind; [apply parseAdvArgs_keeps; assumption | intros [[? ?] ?] ? ? ?]
  | |- keeps _ _ (inputMacroExt_loop _ _ ?sr ≫= _) =>
      eapply keeps_bind; [apply inputMacroExt_loop_keeps; assumption | intros [? ?] ? ? ?]
  end.

Lemma parseInputMacroArg_loop_keeps input fuel : forall args sr,
  cursorOf input sr ->
  keeps input (fun '(_, m, _) _ => advKeysOk m)
    (parseInputMacroArg_loop fuel args sr).
Proof.
  induction fuel as [|fuel IH]; intros args sr Hc; [exact I|].
  cbn [parseInputMacroArg_loop].
  repeat keep_step IH.
Qed.

Lemma parseInputMacroArg_keeps input sr :
  cursorOf input sr ->
  keeps input (fun '(_, m, _) _ => advKeysOk m) (parseInputMacroArg sr).
Proof.
  intros Hc. unfold parseInputMacroArg. apply parseInputMacroArg_loop_keeps.
  exact Hc.
Qed.

Lemma Forall_trimmed_snoc args a :
  Forall trimmed args -> Forall trimmed (args ++ [TrimSpace a]).
Proof.
  intros H. apply Forall_app. split; [exact H|].
  constructor; [apply trimmed_TrimSpace | constructor].
Qed.

Lemma Forall_trimmed_finish onlyAdvArgs args currentArg :
  Forall trimmed args ->
  Forall trimmed (parseArgs_finish onlyAdvArgs args currentArg).
Proof.
  intros H. unfold parseArgs_finish.
  destruct (negb onlyAdvArgs); [apply Forall_trimmed_snoc; exact H|].
  destruct (negb _); [apply Forall_trimmed_snoc; exact H | exact H].
Qed.

#[local] Hint Resolve Forall_trimmed_snoc Forall_trimmed_finish : keep.

Lemma parseArgs_loop_keeps input fuel :
  forall onlyAdvArgs onlyOneArg args currentArg argStart sr,
  cursorOf input sr -> Forall trimmed args ->
  keeps input (fun '(args, m, _) _ => advKeysOk m /\ Forall trimmed args)
    (parseArgs_loop fuel onlyAdvArgs onlyOneArg args currentArg argStart sr).
Proof.
  induction fuel as [|fuel IH];
    intros onlyAdvArgs onlyOneArg args currentArg argStart sr Hc Ha; [exact I|].
  cbn [parseArgs_loop].
  repeat keep_step IH.
Qed.

Lemma parseArgs_keeps input prefix onlyAdvArgs onlyOneArg sr :
  cursorOf input sr ->
  keeps input (fun '(args, m, _) _ => advKeysOk m /\ Forall trimmed args)
    (parseArgs prefix onlyAdvArgs onlyOneArg sr).
Proof.
  intros Hc. unfold parseArgs. apply parseArgs_loop_keeps; [exact Hc | constructor].
Qed.

Lemma mediaWell_finish m content :
  advKeysOk m -> mediaWell (Some (mediaTitle_finish m content)).
Proof. intros Hm. split; [exact Hm | apply trimmed_TrimSpace]. Qed.

#[local] Hint Resolve mediaWell_finish : keep.

Lemma parseMediaTitleSyntax_loop_keeps input fuel : forall content sr,
  cursorOf input sr ->
  keeps input (fun '(res, _) _ => mediaWell res)
    (parseMediaTitleSyntax_loop fuel content sr).
Proof.
  induction fuel as [|fuel IH]; intros content sr Hc; [exact I|].
  cbn [parseMediaTitleSyntax_loop].
  repeat keep_step IH.
Qed.

Lemma parseMediaTitleSyntax_keeps input sr :
  cursorOf input sr ->
  keeps input (fun '(res, _) _ => mediaWell res) (parseMediaTitleSyntax sr).
Proof.
  intros Hc. unfold parseMediaTitleSyntax.
  apply parseMediaTitleSyntax_loop_keeps. exact Hc.
Qed.

Lemma isLowerCmdName_toLower c :
  isCmdName c = true -> isLowerCmdName (toLowerRune c) = true.
Proof.
  unfold isCmdName, isLowerCmdName, toLowerRune, in_range.
  change (chr "a") with 97; change (chr "z") with 122;
  change (chr "A") with 65; change (chr "Z") with 90;
  change (chr "0") with 48; change (chr "9") with 57;
  change (chr ".") with 46.
  destruct ((65 <=? c) && (c <=? 90)) eqn:E; lia.
Qed.

Lemma forallb_isLowerCmdName_ToLower name :
  forallb isCmdName name = true -> forallb isLowerCmdName (ToLower name) = true.
Proof.
  induction name as [|c name IH]; simpl; [reflexivity|].
  intros H. apply andb_true_iff in H. destruct H as [Hc Hn].
  rewrite (isLowerCmdName_toLower _ Hc). simpl. auto.
Qed.

Lemma isInputMacroCmd_ToLower name :
  isInputMacroCmd name = true -> isInputMacroCmd (ToLower name) = true.
Proof.
  unfold isInputMacroCmd. intros H. apply orb_true_iff in H.
  destruct H as [H|H]; apply gostring_eqb_eq in H; subst; reflexivity.
Qed.

Lemma parseCommand_finish_well cmd buf c b o :
  cmdRaw cmd -> parseCommand_finish cmd buf = (c, b, o) -> o = None ->
  cmdWell c.
Proof.
  intros (Hn & Ha & Hargs). unfold parseCommand_finish.
  destruct (gostring_eqb (Name cmd) []) eqn:E; intros [= <- <- <-];
    [discriminate|]. intros _.
  apply gostring_eqb_neq in E. unfold cmdWell. cbn [Name AdvArgs Args].
  split; [unfold ToLower; destruct (Name cmd); [congruence | discriminate]|].
  split; [apply forallb_isLowerCmdName_ToLower; exact Hn|].
  split; [exact Ha|].
  intros Hm. apply Hargs.
  destruct (isInputMacroCmd (Name cmd)) eqn:E2; [|reflexivity].
  apply isInputMacroCmd_ToLower in E2. congruence.
Qed.

Lemma cmdRaw_start cmd :
  forallb isCmdName (Name cmd) = true -> AdvArgs cmd = None -> Args cmd = [] ->
  cmdRaw cmd.
Proof.
  intros Hn Ha Hargs. unfold cmdRaw. rewrite Ha, Hargs.
  split; [exact Hn|]. split; [exact I | constructor].
Qed.

Lemma nonempty_map_ne {V} (m : gmap (list Z) V) :
  nonempty_map m = true -> m <> ∅.
Proof.
  unfold nonempty_map. intros H ->. rewrite map_size_empty in H. discriminate.
Qed.

Lemma advOk_nonempty (m : gmap (list Z) (list Z))
    (a : option (gmap (list Z) (list Z))) :
  advKeysOk m -> advOk a ->
  advOk (if nonempty_map m then NewAdvArgs m else a).
Proof.
  intros Hm Ha. destruct (nonempty_map m) eqn:E; [|exact Ha].
  split; [apply nonempty_map_ne; exact E | exact Hm].
Qed.

Lemma cmdRaw_with_args cmd args m :
  forallb isCmdName (Name cmd) = true -> AdvArgs cmd = None -> Args cmd = [] ->
  advKeysOk m -> (isInputMacroCmd (Name cmd) = false -> Forall trimmed args) ->
  cmdRaw (with_args cmd args m).
Proof.
  intros Hn Ha Hargs Hm Ht. unfold cmdRaw, with_args. cbn [Name AdvArgs Args].
  split; [exact Hn|].
  split; [apply advOk_nonempty; [exact Hm | rewrite Ha; exact I]|].
  intros Hmacro. destruct args; [rewrite Hargs; constructor | auto].
Qed.

Lemma isCmdName_snoc name c :
  forallb isCmdName name = true -> isCmdName c = true ->
  forallb isCmdName (name ++ [c]) = true.
Proof. intros Hn Hc. rewrite forallb_app, Hn. simpl. rewrite Hc. reflexivity. Qed.

Lemma parseCommand_loop_keeps input fuel : forall onlyOneArg cmd buf sr,
  cursorOf input sr ->
  forallb isCmdName (Name cmd) = true -> AdvArgs cmd = None -> Args cmd = [] ->
  keeps input (fun '(c, _, err) _ => err = None -> cmdWell c)
    (parseCommand_loop fuel onlyOneArg cmd buf sr).
Proof.
  induction fuel as [|fuel IH]; intros onlyOneArg cmd buf sr Hc Hn Ha Hargs;
    [exact I|].
  pose proof (cmdRaw_start _ Hn Ha Hargs) as Hraw.
  assert (Hfin : forall cmd b sr', cursorOf input sr' -> cmdRaw cmd ->
            keeps input (fun '(c, _, err) _ => err = None -> cmdWell c)
              (let '(cmd, buf, err) := parseCommand_finish cmd b in
               Some (cmd, buf, err, sr'))).
  { intros cmd0 b sr' Hc' Hr.
    destruct (parseCommand_finish cmd0 b) as [[c b'] o] eqn:E.
    split; [exact Hc'|]. apply (parseCommand_finish_well _ _ _ _ _ Hr E). }
  cbn [parseCommand_loop].
  destruct (read sr) as [ch sr1] eqn:Hread.
  pose proof (read_cursor _ _ _ _ Hc Hread) as Hc1.
  destruct (ch =? eof); [apply Hfin; assumption|].
  destruct (checkEndOfCmd ch sr1) as [[eoc [e|]] sr2] eqn:Heoc;
    pose proof (checkEndOfCmd_cursor _ _ _ _ _ _ Hc1 Heoc) as Hc2.
  { split; [exact Hc2 | discriminate]. }
  destruct eoc; [apply Hfin; assumption|].
  destruct (isCmdName ch) eqn:Hch.
  { apply IH; cbn [Name AdvArgs Args]; auto using isCmdName_snoc. }
  destruct ((ch =? SymArgStart) || (ch =? SymAdvArgStart));
    [|split; [exact Hc2 | discriminate]].
  destruct (gostring_eqb (Name cmd) []); [apply Hfin; assumption|].
  assert (Hu : exists unreadErr onlyAdvArgs sr3,
            (if ch =? SymAdvArgStart
             then let '(err, sr) := unread sr2 in (err, true, sr)
             else (None, false, sr2)) = (unreadErr, onlyAdvArgs, sr3)
            /\ cursorOf input sr3).
  { destruct (ch =? SymAdvArgStart); [|eauto].
    destruct (unread sr2) as [err sr3] eqn:Hun.
    pose proof (unread_cursor _ _ _ _ Hc2 Hun). eauto. }
  destruct Hu as (unreadErr & onlyAdvArgs & sr3 & -> & Hc3).
  destruct unreadErr as [e|]; [split; [exact Hc3 | discriminate]|].
  destruct (isInputMacroCmd (Name cmd)) eqn:Hmacro.
  - eapply keeps_bind; [apply parseInputMacroArg_keeps; exact Hc3|].
    intros [[args m] [e|]] sr4 Hc4 Hm; [split; [exact Hc4 | discriminate]|].
    apply Hfin; [exact Hc4|].
    apply cmdRaw_with_args; auto. congruence.
  - eapply keeps_bind; [apply parseArgs_keeps; exact Hc3|].
    intros [[args m] [e|]] sr4 Hc4 [Hm Ht]; [split; [exact Hc4 | discriminate]|].
    apply Hfin; [exact Hc4|].
    apply cmdRaw_with_args; auto.
Qed.

Lemma parseCommand_keeps input onlyOneArg sr :
  cursorOf input sr ->
  keeps input (fun '(c, _, err) _ => err = None -> cmdWell c)
    (parseCommand onlyOneArg sr).
Proof.
  intros Hc. unfold parseCommand. apply parseCommand_loop_keeps; auto.
Qed.

Lemma keeps_post {A} input n (Q : A -> ScriptReader -> Prop) (P : A -> Prop) r :
  keeps input Q r -> post n P r -> keeps input (fun a sr => Q a sr /\ P a) r.
Proof.
  destruct r as [[a sr']|]; simpl; [|tauto]. tauto.
Qed.

Lemma flatErr_errPosOk n e : flatErr e -> errPosOk n e.
Proof. destruct e; simpl; tauto. Qed.

Lemma scanErr_flat e : scanErr e = true -> flatErr e.
Proof. destruct e; simpl; try discriminate; auto. Qed.

Lemma cmdErr_flat e : cmdErr e = true -> flatErr e.
Proof. destruct e; simpl; try discriminate; auto. Qed.

Lemma errPosOk_parseErr input sr e :
  cursorOf input sr -> errPosOk (Z.of_nat (length input)) e ->
  errPosOk (Z.of_nat (length input)) (parseErr sr e).
Proof.
  intros Hc He. unfold parseErr. simpl. split; [|exact He].
  apply cursorOf_pos. exact Hc.
Qed.

Lemma cmdWell_launch m args :
  advKeysOk m -> Forall trimmed args ->
  cmdWell {| AdvArgs := if nonempty_map m then NewAdvArgs m else None;
             Name := ZapScriptCmdLaunch; Args := args |}.
Proof.
  intros Hm Ha. unfold cmdWell. cbn [Name AdvArgs Args].
  split; [discriminate|]. split; [reflexivity|].
  split; [apply advOk_nonempty; [exact Hm | exact I] | intros _; exact Ha].
Qed.

Lemma cmdWell_launchTitle m arg :
  advKeysOk m -> trimmed arg ->
  cmdWell {| AdvArgs := if nonempty_map m then NewAdvArgs m else None;
             Name := ZapScriptCmdLaunchTitle; Args := [arg] |}.
Proof.
  intros Hm Ha. unfold cmdWell. cbn [Name AdvArgs Args].
  split; [discriminate|]. split; [reflexivity|].
  split; [apply advOk_nonempty; [exact Hm | exact I]|].
  intros _. constructor; [exact Ha | constructor].
Qed.

Lemma snoc_not_nil {A} (l : list A) x : l ++ [x] <> [].
Proof. destruct l; discriminate. Qed.

Lemma parseAutoLaunchCmd_keeps input script prefix sr :
  cursorOf input sr -> Forall cmdWell (Cmds script) ->
  keeps input (autoLaunchWell (Z.of_nat (length input)))
    (parseAutoLaunchCmd script prefix sr).
Proof.
  intros Hc Hs. unfold parseAutoLaunchCmd.
  eapply keeps_bind.
  { eapply keeps_post; [apply parseArgs_keeps; exact Hc | apply parseArgs_post]. }
  intros [[args m] [e|]] sr' Hc' [[Hm Ha] [He Hk]]; cbv beta iota.
  - split; [exact Hc'|]. split; [exact Hs|]. cbn [snd].
    apply errPosOk_parseErr; [exact Hc'|].
    apply flatErr_errPosOk, scanErr_flat. exact He.
  - split; [exact Hc'|]. split; cbn [fst snd Cmds].
    + apply Forall_app. split; [exact Hs|].
      constructor; [apply cmdWell_launch; assumption | constructor].
    + apply snoc_not_nil.
Qed.

Lemma ParseScript_loop_keeps input fuel : forall script sr,
  cursorOf input sr -> Forall cmdWell (Cmds script) ->
  keeps input (scriptWell (Z.of_nat (length input)))
    (ParseScript_loop fuel script sr).
Proof.
  induction fuel as [|fuel IH]; intros script sr Hc Hs; [exact I|].
  assert (Hauto : forall prefix sr1, cursorOf input sr1 ->
            keeps input (scriptWell (Z.of_nat (length input)))
              ('(script, autoErr, sr) ← parseAutoLaunchCmd script prefix sr1;
               match autoErr with
               | Some e => Some (script, Some (parseErr sr e), sr)
               | None => ParseScript_loop fuel script sr
               end)).
  { intros prefix sr1 Hc1.
    eapply keeps_bind; [apply parseAutoLaunchCmd_keeps; assumption|].
    intros [script' [e|]] sr2 Hc2 [Hs' He]; cbn [fst snd] in *.
    - split; [exact Hc2|]. split; [exact Hs'|]. cbn [snd].
      apply errPosOk_parseErr; assumption.
    - apply IH; assumption. }
  assert (Herr : forall script' sr1 e, cursorOf input sr1 ->
            Forall cmdWell (Cmds script') -> flatErr e ->
            keeps input (scriptWell (Z.of_nat (length input)))
              (Some (script', Some (parseErr sr1 e), sr1))).
  { intros script' sr1 e Hc1 Hs' He. split; [exact Hc1|].
    split; [exact Hs'|]. cbn [snd].
    apply errPosOk_parseErr; [exact Hc1 | apply flatErr_errPosOk; exact He]. }
  cbn [ParseScript_loop].
  destruct (read sr) as [ch sr1] eqn:Hread.
  pose proof (read_cursor _ _ _ _ Hc Hread) as Hc1.
  destruct (ch =? eof) eqn:Heof.
  { pose proof (read_eof _ _ _ Hread Heof) as Hend.
    destruct (Cmds script) as [|c cs] eqn:Ecs.
    - split; [exact Hc1|]. split; [cbn [fst]; rewrite Ecs; constructor | exact I].
    - split; [exact Hc1|]. split; cbn [fst snd]; rewrite Ecs; [exact Hs|].
      split; [discriminate | exact Hend]. }
  destruct (isWhitespace ch); [apply IH; assumption|].
  destruct ((pos sr1 =? 1) && (ch =? SymJSONStart)).
  { split; [exact Hc1|]. split; [constructor | exact I]. }
  destruct (ch =? SymMediaTitleStart).
  { eapply keeps_bind.
    { eapply keeps_post;
        [apply parseMediaTitleSyntax_keeps; exact Hc1
        | apply parseMediaTitleSyntax_post]. }
    intros [res [e|]] sr2 Hc2 [Hw Hok]; cbv beta iota.
    - apply Herr; [exact Hc2 | exact Hs|].
      apply scanErr_flat. destruct res; exact Hok.
    - destruct res as [res|]; [|exact I].
      destruct Hw as [Hm Ht].
      destruct (negb (mt_valid res)); [apply Hauto; exact Hc2|].
      apply IH; [exact Hc2|]. cbn [appendCmd Cmds].
      apply Forall_app. split; [exact Hs|].
      constructor; [apply cmdWell_launchTitle; assumption | constructor]. }
  destruct (ch =? SymCmdStart).
  { destruct (peek sr1) as [[next [e|]] sr2] eqn:Hpeek;
      pose proof (peek_cursor _ _ _ _ _ Hc1 Hpeek) as Hc2.
    - apply Herr; [exact Hc2 | exact Hs|].
      rewrite (peek_err _ _ _ _ Hpeek). exact I.
    - destruct (next =? eof).
      { split; [exact Hc2|]. split; [exact Hs | exact I]. }
      destruct (next =? SymCmdStart); [|apply Hauto; exact Hc2].
      eapply keeps_bind.
      { eapply keeps_post;
          [apply parseCommand_keeps; apply skip_cursor; exact Hc2
          | apply parseCommand_post]. }
      intros [[cmd buf] [e|]] sr3 Hc3 [Hw [He Hk]]; cbv beta iota.
      + destruct (errors_Is e ErrInvalidCmdName); [apply Hauto; exact Hc3|].
        apply Herr; [exact Hc3 | exact Hs | apply cmdErr_flat; exact He].
      + apply IH; [exact Hc3|]. cbn [appendCmd Cmds].
        apply Forall_app. split; [exact Hs|].
        constructor; [apply Hw; reflexivity | constructor]. }
  destruct (unread sr1) as [[e|] sr2] eqn:Hun;
    pose proof (unread_cursor _ _ _ _ Hc1 Hun) as Hc2.
  - apply Herr; [exact Hc2 | exact Hs|].
    destruct (unread_len _ _ _ Hun) as [[He _]|[He _]]; [|discriminate].
    injection He as ->. exact I.
  - apply Hauto. exact Hc2.
Qed.

Lemma ParseScript_keeps input :
  keeps input (scriptWell (Z.of_nat (length input)))
    (ParseScript (NewParser input)).
Proof.
  unfold ParseScript. apply ParseScript_loop_keeps;
    [apply cursorOf_NewParser | constructor].
Qed.

End ArgumentsKeep.

Section ScriptInvariants.

Context {codec : JSONCodec}.

(** [ParseScript] returns, and what it returns satisfies [scriptWell]. *)
Lemma ParseScript_well input :
  exists script err sr',
    ParseScript (NewParser input) = Some (script, err, sr')
    /\ cursorOf input sr'
    /\ scriptWell (Z.of_nat (length input)) (script, err) sr'.
Proof.
  pose proof (ParseScript_keeps input) as Hk.
  destruct (post_returns _ _ _ (ParseScript_post (NewParser input)))
    as ([script err] & sr' & E & _).
  rewrite E in Hk. destruct Hk as [Hc Hw]. eauto 6.
Qed.

(** The name of every command [ParseScript] returns, also beside an error,
    is non-empty and made of lower-case letters, digits and dots. *)
Theorem ParseScript_command_names (input : list Z) :
  exists script err sr',
    ParseScript (NewParser input) = Some (script, err, sr')
    /\ Forall (fun c => Name c <> []
                        /\ forallb isLowerCmdName (Name c) = true)
         (Cmds script).
Proof.
  destruct (ParseScript_well input) as (script & err & sr' & E & _ & Hw & _).
  exists script, err, sr'. split; [exact E|].
  cbn [fst] in Hw. eapply Forall_impl; [exact Hw|].
  intros c (H1 & H2 & _). auto.
Qed.

(** The [AdvArgs] of every command [ParseScript] returns is nil or a map
    with at least one entry; every key is non-empty and made of letters,
    digits and underscores, and every value is trimmed. *)
Theorem ParseScript_advargs (input : list Z) :
  exists script err sr',
    ParseScript (NewParser input) = Some (script, err, sr')
    /\ Forall (fun c =>
                 match AdvArgs c with
                 | None => True
                 | Some m =>
                     m <> ∅
                     /\ forall k v, m !! k = Some v ->
                          k <> [] /\ forallb isAdvArgName k = true
                          /\ TrimSpace v = v
                 end)
         (Cmds script).
Proof.
  destruct (ParseScript_well input) as (script & err & sr' & E & _ & Hw & _).
  exists script, err, sr'. split; [exact E|].
  cbn [fst] in Hw. eapply Forall_impl; [exact Hw|].
  intros c (_ & _ & Ha & _). destruct (AdvArgs c) as [m|]; [|exact I].
  destruct Ha as [Hne Hm]. split; [exact Hne|].
  intros k v Hkv. destruct (Hm k v Hkv) as [[H1 H2] H3]. auto.
Qed.

(** Outside input-macro mode every positional argument is trimmed: neither
    quotes nor escapes keep white space at the ends of an argument. *)
Theorem ParseScript_args_trimmed (input : list Z) :
  exists script err sr',
    ParseScript (NewParser input) = Some (script, err, sr')
    /\ Forall (fun c => isInputMacroCmd (Name c) = false ->
                        Forall (fun a => TrimSpace a = a) (Args c))
         (Cmds script).
Proof.
  destruct (ParseScript_well input) as (script & err & sr' & E & _ & Hw & _).
  exists script, err, sr'. split; [exact E|].
  cbn [fst] in Hw. eapply Forall_impl; [exact Hw|].
  intros c (_ & _ & _ & Ha). exact Ha.
Qed.

(** Every offset [ParseScript] records in an error lies within the input
    (an error is wrapped at most twice). *)
Theorem ParseScript_error_offset (input : list Z) script p e sr' :
  ParseScript (NewParser input) = Some (script, Some (ParseErrorAt p e), sr') ->
  0 <= p <= Z.of_nat (length input)
  /\ match e with
     | ParseErrorAt p' e' =>
         0 <= p' <= Z.of_nat (length input) /\ flatErr e'
     | _ => True
     end.
Proof.
  intros E.
  destruct (ParseScript_well input) as (script0 & err & sr0 & E0 & _ & _ & Hw).
  rewrite E in E0. injection E0 as <- <- <-. cbn [snd errPosOk] in Hw.
  destruct Hw as [Hp He]. split; [exact Hp|].
  destruct e as [| | | | | | | | | | | | | |p' e']; try exact I.
  cbn [errPosOk] in He. destruct He as [Hp' _]. split; [exact Hp'|].
  pose proof (ParseScript_post (NewParser input)) as Hpost.
  rewrite E in Hpost. destruct Hpost as [_ [Ht _]]. cbn [errIn] in Ht.
  unfold topErr in Ht. cbn in Ht.
  destruct e'; simpl in *; try exact I; discriminate.
Qed.

(** A successful parse returns at least one command, and has consumed the
    whole input when the input holds no NUL code point. *)
Theorem ParseScript_success (input : list Z) script sr' :
  ParseScript (NewParser input) = Some (script, None, sr') ->
  Cmds script <> []
  /\ (Forall (fun c => c <> eof) input ->
      unread_buf sr' = [] /\ pos sr' = Z.of_nat (length input)).
Proof.
  intros E.
  destruct (ParseScript_well input) as (script0 & err & sr0 & E0 & Hc & _ & Hw).
  rewrite E in E0. injection E0 as <- <- <-. cbn [fst snd] in Hw.
  destruct Hw as [Hne Hend]. split; [exact Hne|].
  intros Hnul. destruct Hc as (consumed & Hin & Hp & Hl).
  assert (Hb : unread_buf sr' = []).
  { destruct Hend as [Hb|Hb]; [exact Hb|]. rewrite Hb in Hl.
    destruct Hl as [pre ->]. subst input.
    rewrite !Forall_app in Hnul. destruct Hnul as [[_ Hz] _].
    inversion Hz; subst. contradiction. }
  split; [exact Hb|]. rewrite Hp, Hin, Hb, app_nil_r. reflexivity.
Qed.

End ScriptInvariants.

Lemma ParseScript_error_offset_witness :
  @ParseScript tableCodec (NewParser (runes "**a:'x")) =
    Some (emptyScript, Some (ParseErrorAt 6 ErrUnmatchedQuote), atEnd 6)
  /\ 0 <= 6 <= Z.of_nat (length (runes "**a:'x")).
Proof.
  split; [vm_compute; reflexivity|].
  apply (@ParseScript_error_offset tableCodec (runes "**a:'x") emptyScript 6
           ErrUnmatchedQuote (atEnd 6)).
  vm_compute. reflexivity.
Defined.

Lemma ParseScript_success_witness :
  @ParseScript tableCodec (NewParser (runes "**a||b")) =
    Some (scriptOf [namedCmd (runes "a") []; launchCmd (runes "b")], None,
          atEnd 6)
  /\ Forall (fun c => c <> eof) (runes "**a||b")
  /\ unread_buf (atEnd 6) = [] /\ pos (atEnd 6) = 6.
Proof.
  assert (E : @ParseScript tableCodec (NewParser (runes "**a||b")) =
    Some (scriptOf [namedCmd (runes "a") []; launchCmd (runes "b")], None,
          atEnd 6)) by (vm_compute; reflexivity).
  assert (Hn : Forall (fun c => c <> eof) (runes "**a||b"))
    by (repeat constructor; discriminate).
  split; [exact E|]. split; [exact Hn|].
  exact (proj2 (@ParseScript_success tableCodec _ _ _ E) Hn).
Defined.

(** * Parsing what was written *)

Lemma isPlainChar_cases c :
  isPlainChar c = true ->
  (c =? eof) = false /\ (c =? SymEscapeSeq) = false /\ (c =? SymCmdSep) = false
  /\ (c =? SymAdvArgStart) = false /\ (c =? SymExpressionStart) = false.
Proof.
  unfold isPlainChar. intros H. apply negb_true_iff in H.
  repeat (apply orb_false_iff in H; destruct H as [H ?]). auto.
Qed.

Lemma checkEndOfCmd_chain more last p :
  checkEndOfCmd SymCmdSep (mkReader (SymCmdSep :: more) last p)
  = (true, None, mkReader more (Some SymCmdSep) (p + 1)).
Proof. reflexivity. Qed.

Section Written.

Context {codec : JSONCodec}.

(** A plain character is appended to the current argument. *)
Lemma parseArgs_loop_plain f oa oo args cur aS c rest last p :
  isBodyChar oo c = true ->
  ((aS =? p) && (isQuote c || (c =? SymJSONStart))) = false ->
  parseArgs_loop (S f) oa oo args cur aS (mkReader (c :: rest) last p)
  = parseArgs_loop f oa oo args (cur ++ [c]) aS (mkReader rest (Some c) (p + 1)).
Proof.
  intros Hb Hs. unfold isBodyChar in Hb. apply andb_true_iff in Hb.
  destruct Hb as [Hp Hsep].
  destruct (isPlainChar_cases c Hp) as (H0 & H1 & H2 & H3 & H4).
  cbn [parseArgs_loop read unread_buf pos lastRune].
  replace (p + 1 - 1) with p by lia.
  rewrite H0.
  assert (Hq : ((aS =? p) && isQuote c) = false).
  { destruct (aS =? p); [|reflexivity]. cbn in Hs |- *.
    apply orb_false_iff in Hs. tauto. }
  assert (Hj : ((aS =? p) && (c =? SymJSONStart)) = false).
  { destruct (aS =? p); [|reflexivity]. cbn in Hs |- *.
    apply orb_false_iff in Hs. tauto. }
  rewrite Hq, Hj, H1, (checkEndOfCmd_other _ _ H2), H3, H4.
  assert (Hc : (negb oo && (c =? SymArgSep)) = false).
  { destruct oo; [reflexivity|]. cbn in Hsep |- *.
    apply negb_true_iff in Hsep. exact Hsep. }
  rewrite Hc. reflexivity.
Qed.

(** A run of plain characters after the start of the argument. *)
Lemma parseArgs_loop_run t : forall f oa oo args cur aS rest last p result,
  forallb (isBodyChar oo) t = true -> aS < p ->
  (forall f' last', (f <= f')%nat ->
     parseArgs_loop f' oa oo args (cur ++ t) aS
       (mkReader rest last' (p + Z.of_nat (length t))) = result) ->
  forall F, (length t + f <= F)%nat ->
  parseArgs_loop F oa oo args cur aS (mkReader (t ++ rest) last p) = result.
Proof.
  induction t as [|c t IH];
    intros f oa oo args cur aS rest last p result Ht Hp Hk F HF.
  - cbn [app length] in *. rewrite <- (Hk F last HF).
    rewrite app_nil_r. replace (p + Z.of_nat 0) with p by lia. reflexivity.
  - cbn [forallb] in Ht. apply andb_true_iff in Ht. destruct Ht as [Hc Ht].
    destruct F as [|F]; [cbn [length] in HF; lia|].
    cbn [app]. rewrite parseArgs_loop_plain;
      [|exact Hc | replace (aS =? p) with false by (symmetry; apply Z.eqb_neq; lia);
                   reflexivity].
    apply (IH f); [exact Ht | lia | | cbn [length] in HF; lia].
    intros f' last' Hf'. rewrite <- (Hk f' last' Hf').
    rewrite <- app_assoc. cbn [app length].
    replace (p + 1 + Z.of_nat (length t)) with (p + Z.of_nat (S (length t))) by lia.
    reflexivity.
Qed.

(** The end of the input ends the arguments. *)
Lemma parseArgs_loop_eof f oa oo args cur aS last p :
  parseArgs_loop (S f) oa oo args cur aS (mkReader [] last p)
  = Some (parseArgs_finish oa args cur, ∅, None, atEnd p).
Proof. reflexivity. Qed.

(** So does a chain terminator. *)
Lemma parseArgs_loop_chain f oa oo args cur aS more last p :
  parseArgs_loop (S f) oa oo args cur aS
    (mkReader (SymCmdSep :: SymCmdSep :: more) last p)
  = Some (parseArgs_finish oa args cur, ∅, None,
          mkReader more (Some SymCmdSep) (p + 1 + 1)).
Proof.
  cbn [parseArgs_loop read unread_buf pos lastRune].
  change (SymCmdSep =? eof) with false.
  change (isQuote SymCmdSep) with false. rewrite andb_false_r.
  change (SymCmdSep =? SymJSONStart) with false. rewrite andb_false_r.
  change (SymCmdSep =? SymEscapeSeq) with false.
  reflexivity.
Qed.

Lemma parseArgs_loop_end e f oa oo args cur aS last p :
  parseArgs_loop (S f) oa oo args cur aS (mkReader (tailText e) last p)
  = Some (parseArgs_finish oa args cur, ∅, None, tailReader e p).
Proof.
  destruct e as [|more]; cbn [tailText tailReader].
  - apply parseArgs_loop_eof.
  - rewrite parseArgs_loop_chain. replace (p + 1 + 1) with (p + 2) by lia.
    reflexivity.
Qed.

(** A separator closes the current argument and opens the next. *)
Lemma parseArgs_loop_sep f oa args cur aS rest last p :
  parseArgs_loop (S f) oa false args cur aS (mkReader (SymArgSep :: rest) last p)
  = parseArgs_loop f oa false (args ++ [TrimSpace cur]) [] (p + 1)
      (mkReader rest (Some SymArgSep) (p + 1)).
Proof.
  cbn [parseArgs_loop read unread_buf pos lastRune].
  change (SymArgSep =? eof) with false.
  change (isQuote SymArgSep) with false. rewrite andb_false_r.
  change (SymArgSep =? SymJSONStart) with false. rewrite andb_false_r.
  change (SymArgSep =? SymEscapeSeq) with false.
  reflexivity.
Qed.

(** Between quotes, everything but the quote itself, [^] and [[] is
    copied; the closing quote is consumed. *)
Lemma parseQuotedArg_loop_run t : forall f q arg rest last p,
  isQuote q = true -> forallb (isQuotedChar q) t = true ->
  forall F, (length t + S f <= F)%nat ->
  parseQuotedArg_loop F q arg (mkReader (t ++ q :: rest) last p)
  = Some (arg ++ t, None,
          mkReader rest (Some q) (p + Z.of_nat (length t) + 1)).
Proof.
  induction t as [|c t IH]; intros f q arg rest last p Hq Ht F HF;
    (destruct F as [|F]; [cbn [length] in HF; lia|]).
  - cbn [app length parseQuotedArg_loop read unread_buf pos lastRune].
    assert (H : (q =? eof) = false /\ (q =? SymEscapeSeq) = false
                /\ (q =? SymExpressionStart) = false).
    { unfold isQuote in Hq. apply orb_true_iff in Hq.
      destruct Hq as [Hq|Hq]; apply Z.eqb_eq in Hq; subst q; auto. }
    destruct H as (-> & -> & ->). rewrite Z.eqb_refl, app_nil_r.
    replace (p + Z.of_nat 0 + 1) with (p + 1) by lia. reflexivity.
  - cbn [forallb] in Ht. apply andb_true_iff in Ht. destruct Ht as [Hc Ht].
    unfold isQuotedChar in Hc. apply negb_true_iff in Hc.
    repeat (apply orb_false_iff in Hc; destruct Hc as [Hc ?]).
    cbn [app parseQuotedArg_loop read unread_buf pos lastRune].
    rewrite Hc, H1, H0, H.
    rewrite (IH f); [|exact Hq | exact Ht | cbn [length] in HF; lia].
    rewrite <- app_assoc. cbn [app length].
    replace (p + 1 + Z.of_nat (length t) + 1)
      with (p + Z.of_nat (S (length t)) + 1) by lia.
    reflexivity.
Qed.

(** One argument, bare or quoted, from its first character on. *)
Lemma parseArgs_loop_arg a : forall f oa oo args rest last p result,
  argOk oo a = true ->
  (forall f' last', (f <= f')%nat ->
     parseArgs_loop f' oa oo args (argText a) p
       (mkReader rest last' (p + Z.of_nat (length (renderArg a)))) = result) ->
  forall F, (length (renderArg a) + f <= F)%nat ->
  parseArgs_loop F oa oo args [] p (mkReader (renderArg a ++ rest) last p)
  = result.
Proof.
  destruct a as [t|q t]; intros f oa oo args rest last p result Ha Hk F HF;
    cbn [argOk renderArg argText] in *; apply andb_true_iff in Ha.
  - destruct Ha as [Ht Hs]. destruct t as [|c t].
    + cbn [app length] in *. rewrite <- (Hk F last HF).
      replace (p + Z.of_nat 0) with p by lia. reflexivity.
    + cbn [forallb] in Ht. apply andb_true_iff in Ht. destruct Ht as [Hc Ht].
      destruct F as [|F]; [cbn [length] in HF; lia|].
      cbn [app]. rewrite parseArgs_loop_plain; [|exact Hc|].
      2:{ rewrite Z.eqb_refl. cbn [startsPlain andb] in Hs |- *.
          apply andb_true_iff in Hs. destruct Hs as [H1 H2].
          apply negb_true_iff in H1, H2. rewrite H1, H2. reflexivity. }
      apply (parseArgs_loop_run t f); [exact Ht | lia | | cbn [length] in HF; lia].
      intros f' last' Hf'. rewrite <- (Hk f' last' Hf'). cbn [app length].
      replace (p + 1 + Z.of_nat (length t)) with (p + Z.of_nat (S (length t))) by lia.
      reflexivity.
  - destruct Ha as [Hq Ht].
    destruct F as [|F]; [cbn [length] in HF; lia|].
    cbn [app parseArgs_loop read unread_buf pos lastRune].
    assert (H0 : (q =? eof) = false).
    { unfold isQuote in Hq. apply orb_true_iff in Hq.
      destruct Hq as [Hq|Hq]; apply Z.eqb_eq in Hq; subst q; reflexivity. }
    rewrite H0. replace (p + 1 - 1) with p by lia.
    rewrite Z.eqb_refl, Hq. cbn [andb].
    unfold parseQuotedArg.
    rewrite <- app_assoc. cbn [app].
    rewrite (parseQuotedArg_loop_run t (length rest));
      [|exact Hq | exact Ht
       | unfold fuel_of; cbn [unread_buf]; rewrite length_app; cbn [length]; lia].
    cbn [mbind option_bind].
    cbn [length] in HF. rewrite length_app in HF. cbn [length] in HF.
    rewrite <- (Hk F (Some q)); [|lia].
    cbn [length]. rewrite length_app. cbn [length].
    replace (p + 1 + Z.of_nat (length t) + 1)
      with (p + Z.of_nat (S (length t + 1))) by lia.
    reflexivity.
Qed.

(** ** Advanced arguments *)

Lemma isAdvArgName_plain c :
  isAdvArgName c = true ->
  (c =? eof) = false /\ (c =? SymCmdSep) = false
  /\ (c =? SymAdvArgSep) = false /\ (c =? SymAdvArgEq) = false.
Proof.
  unfold isAdvArgName, in_range, eof, SymCmdSep, SymAdvArgSep, SymAdvArgEq.
  repeat match goal with
         | |- context [chr ?a] =>
             let v := eval vm_compute in (chr a) in change (chr a) with v
         end.
  lia.
Qed.

(** The characters of a key. *)
Lemma parseAdvArgs_loop_key k : forall f m cur val vs buf rest last p result,
  forallb isAdvArgName k = true ->
  (forall f' last', (f <= f')%nat ->
     parseAdvArgs_loop f' m false (cur ++ k) val vs (buf ++ k)
       (mkReader rest last' (p + Z.of_nat (length k))) = result) ->
  forall F, (length k + f <= F)%nat ->
  parseAdvArgs_loop F m false cur val vs buf (mkReader (k ++ rest) last p)
  = result.
Proof.
  induction k as [|c k IH];
    intros f m cur val vs buf rest last p result Hk Hr F HF.
  - cbn [app length] in *. rewrite <- (Hr F last HF).
    rewrite !app_nil_r. replace (p + Z.of_nat 0) with p by lia. reflexivity.
  - cbn [forallb] in Hk. apply andb_true_iff in Hk. destruct Hk as [Hc Hk].
    destruct F as [|F]; [cbn [length] in HF; exfalso; clear -HF; lia|].
    destruct (isAdvArgName_plain c Hc) as (H0 & H1 & H2 & H3).
    cbn [app parseAdvArgs_loop read unread_buf pos lastRune].
    rewrite H0, (checkEndOfCmd_other _ _ H1), H2, H3, Hc. cbn [andb negb].
    apply (IH f); [exact Hk | | cbn [length] in HF; lia].
    intros f' last' Hf'. rewrite <- (Hr f' last' Hf').
    rewrite <- !app_assoc. cbn [app length].
    replace (p + 1 + Z.of_nat (length k)) with (p + Z.of_nat (S (length k))) by lia.
    reflexivity.
Qed.

(** [=] after a key opens the value. *)
Lemma parseAdvArgs_loop_eq f m cur val vs buf rest last p :
  parseAdvArgs_loop (S f) m false cur val vs buf
    (mkReader (SymAdvArgEq :: rest) last p)
  = parseAdvArgs_loop f m true cur val (p + 1) (buf ++ [SymAdvArgEq])
      (mkReader rest (Some SymAdvArgEq) (p + 1)).
Proof. reflexivity. Qed.

Lemma isAdvValueChar_cases c :
  isAdvValueChar c = true ->
  (c =? eof) = false /\ (c =? SymEscapeSeq) = false /\ (c =? SymCmdSep) = false
  /\ (c =? SymAdvArgSep) = false /\ (c =? SymExpressionStart) = false.
Proof.
  unfold isAdvValueChar. intros H. apply negb_true_iff in H.
  repeat (apply orb_false_iff in H; destruct H as [H ?]). auto.
Qed.

(** A value character is appended to the value. *)
Lemma parseAdvArgs_loop_value f m cur val vs buf c rest last p :
  isAdvValueChar c = true ->
  ((vs =? p) && (isQuote c || (c =? SymJSONStart))) = false ->
  parseAdvArgs_loop (S f) m true cur val vs buf (mkReader (c :: rest) last p)
  = parseAdvArgs_loop f m true cur (val ++ [c]) vs (buf ++ [c])
      (mkReader rest (Some c) (p + 1)).
Proof.
  intros Hc Hs.
  destruct (isAdvValueChar_cases c Hc) as (H0 & H1 & H2 & H3 & H4).
  cbn [parseAdvArgs_loop read unread_buf pos lastRune].
  replace (p + 1 - 1) with p by lia.
  rewrite H0.
  assert (Hq : ((vs =? p) && isQuote c) = false).
  { destruct (vs =? p); [|reflexivity]. cbn in Hs |- *.
    apply orb_false_iff in Hs. tauto. }
  assert (Hj : ((c =? SymJSONStart) && (vs =? p)) = false).
  { destruct (vs =? p); [|apply andb_false_r]. cbn in Hs.
    apply orb_false_iff in Hs. destruct Hs as [_ ->]. reflexivity. }
  rewrite Hq, Hj, H1, (checkEndOfCmd_other _ _ H2), H3, H4.
  rewrite andb_false_r. reflexivity.
Qed.

Lemma parseAdvArgs_loop_value_run v :
  forall f m cur val vs buf rest last p result,
  forallb isAdvValueChar v = true -> vs < p ->
  (forall f' last', (f <= f')%nat ->
     parseAdvArgs_loop f' m true cur (val ++ v) vs (buf ++ v)
       (mkReader rest last' (p + Z.of_nat (length v))) = result) ->
  forall F, (length v + f <= F)%nat ->
  parseAdvArgs_loop F m true cur val vs buf (mkReader (v ++ rest) last p)
  = result.
Proof.
  induction v as [|c v IH];
    intros f m cur val vs buf rest last p result Hv Hp Hr F HF.
  - cbn [app length] in *. rewrite <- (Hr F last HF).
    rewrite !app_nil_r. replace (p + Z.of_nat 0) with p by lia. reflexivity.
  - cbn [forallb] in Hv. apply andb_true_iff in Hv. destruct Hv as [Hc Hv].
    destruct F as [|F]; [cbn [length] in HF; exfalso; clear -HF; lia|].
    cbn [app]. rewrite parseAdvArgs_loop_value;
      [|exact Hc | replace (vs =? p) with false by (symmetry; apply Z.eqb_neq; lia);
                   reflexivity].
    apply (IH f); [exact Hv | lia | | cbn [length] in HF; lia].
    intros f' last' Hf'. rewrite <- (Hr f' last' Hf').
    rewrite <- !app_assoc. cbn [app length].
    replace (p + 1 + Z.of_nat (length v)) with (p + Z.of_nat (S (length v))) by lia.
    reflexivity.
Qed.

(** A whole value, from its first character on. *)
Lemma parseAdvArgs_loop_whole_value v :
  forall f m cur buf rest last p result,
  forallb isAdvValueChar v = true -> startsPlain v = true ->
  (forall f' last', (f <= f')%nat ->
     parseAdvArgs_loop f' m true cur v p (buf ++ v)
       (mkReader rest last' (p + Z.of_nat (length v))) = result) ->
  forall F, (length v + f <= F)%nat ->
  parseAdvArgs_loop F m true cur [] p buf (mkReader (v ++ rest) last p)
  = result.
Proof.
  intros f m cur buf rest last p result Hv Hs Hr F HF.
  destruct v as [|c v].
  - cbn [app length] in *. rewrite <- (Hr F last HF).
    rewrite !app_nil_r. replace (p + Z.of_nat 0) with p by lia. reflexivity.
  - cbn [forallb] in Hv. apply andb_true_iff in Hv. destruct Hv as [Hc Hv].
    destruct F as [|F]; [cbn [length] in HF; exfalso; clear -HF; lia|].
    cbn [app]. rewrite parseAdvArgs_loop_value; [|exact Hc|].
    2:{ rewrite Z.eqb_refl. cbn [startsPlain andb] in Hs |- *.
        apply andb_true_iff in Hs. destruct Hs as [H1 H2].
        apply negb_true_iff in H1, H2. rewrite H1, H2. reflexivity. }
    apply (parseAdvArgs_loop_value_run v f); [exact Hv | lia | | cbn [length] in HF; lia].
    intros f' last' Hf'. rewrite <- (Hr f' last' Hf').
    rewrite <- !app_assoc. cbn [app length].
    replace (p + 1 + Z.of_nat (length v)) with (p + Z.of_nat (S (length v))) by lia.
    reflexivity.
Qed.

(** [&] stores the pair and opens the next key. *)
Lemma parseAdvArgs_loop_amp f m cur val vs buf rest last p :
  parseAdvArgs_loop (S f) m true cur val vs buf
    (mkReader (SymAdvArgSep :: rest) last p)
  = parseAdvArgs_loop f (storeArg m cur val) false [] [] vs
      (buf ++ [SymAdvArgSep]) (mkReader rest (Some SymAdvArgSep) (p + 1)).
Proof.
  cbn [parseAdvArgs_loop read unread_buf pos lastRune].
  change (SymAdvArgSep =? eof) with false.
  change (isQuote SymAdvArgSep) with false. rewrite andb_false_r.
  change (SymAdvArgSep =? SymJSONStart) with false.
  change (SymAdvArgSep =? SymEscapeSeq) with false.
  reflexivity.
Qed.

(** The end of the segment stores the last pair. *)
Lemma parseAdvArgs_loop_end e f m cur val vs buf last p :
  parseAdvArgs_loop (S f) m true cur val vs buf (mkReader (tailText e) last p)
  = Some (storeArg m cur val, buf ++ tailMark e, None, tailReader e p).
Proof.
  destruct e as [|more]; cbn [tailText tailMark tailReader].
  - rewrite app_nil_r. reflexivity.
  - cbn [parseAdvArgs_loop read unread_buf pos lastRune].
    change (SymCmdSep =? eof) with false.
    change (isQuote SymCmdSep) with false. rewrite andb_false_r.
    change (SymCmdSep =? SymJSONStart) with false.
    change (SymCmdSep =? SymEscapeSeq) with false.
    cbv beta iota. cbn [andb]. rewrite checkEndOfCmd_chain.
    replace (p + 1 + 1) with (p + 2) by lia. reflexivity.
Qed.

Lemma joinAdvs_cons a b l :
  joinAdvs (a :: b :: l) = a ++ SymAdvArgSep :: joinAdvs (b :: l).
Proof. reflexivity. Qed.

Lemma storeArg_pair m kv :
  gostring_eqb (fst kv) [] = false ->
  storeArg m (fst kv) (snd kv) = storePair m kv.
Proof. intros H. unfold storeArg, storePair. rewrite H. reflexivity. Qed.

(** One pair [key=value], up to what follows the value. *)
Lemma parseAdvArgs_loop_pair kv : forall f m vs buf rest last p result,
  pairOk kv = true ->
  (forall f' last', (f <= f')%nat ->
     parseAdvArgs_loop f' m true (fst kv) (snd kv)
       (p + Z.of_nat (length (fst kv)) + 1) (buf ++ renderPair kv)
       (mkReader rest last' (p + Z.of_nat (length (renderPair kv)))) = result) ->
  forall F, (length (renderPair kv) + f <= F)%nat ->
  parseAdvArgs_loop F m false [] [] vs buf
    (mkReader (renderPair kv ++ rest) last p) = result.
Proof.
  intros f m vs buf rest last p result Hkv Hr F HF.
  unfold pairOk in Hkv.
  repeat (apply andb_true_iff in Hkv; destruct Hkv as [Hkv ?]).
  unfold renderPair in *. rewrite <- app_assoc.
  rewrite length_app in HF, Hr. cbn [app length] in HF, Hr |- *.
  apply (parseAdvArgs_loop_key (fst kv) (S (length (snd kv) + f)));
    [exact H1 | | lia].
  intros f1 last1 Hf1. destruct f1 as [|f1]; [exfalso; clear -Hf1; lia|].
  cbn [app]. rewrite parseAdvArgs_loop_eq.
  apply (parseAdvArgs_loop_whole_value (snd kv) f); [exact H0 | exact H | | lia].
  intros f2 last2 Hf2. rewrite <- (Hr f2 last2 Hf2).
  rewrite <- !app_assoc. cbn [app].
  match goal with
  | |- parseAdvArgs_loop _ _ _ _ _ _ _ (mkReader _ _ ?x)
       = parseAdvArgs_loop _ _ _ _ _ _ _ (mkReader _ _ ?y) =>
      replace y with x by lia
  end.
  reflexivity.
Qed.

Lemma pairOk_key kv : pairOk kv = true -> gostring_eqb (fst kv) [] = false.
Proof.
  unfold pairOk. intros H.
  repeat (apply andb_true_iff in H; destruct H as [H ?]).
  apply negb_true_iff in H. exact H.
Qed.

Lemma joinAdvs_map_cons kv kv' l :
  joinAdvs (map renderPair (kv :: kv' :: l))
  = renderPair kv ++ SymAdvArgSep :: joinAdvs (map renderPair (kv' :: l)).
Proof. reflexivity. Qed.

(** A list of [key=value] pairs up to the end of the segment. *)
Lemma parseAdvArgs_loop_pairs l : forall kv e m vs buf last p F,
  forallb pairOk (kv :: l) = true ->
  (length (joinAdvs (map renderPair (kv :: l))) + 1 <= F)%nat ->
  parseAdvArgs_loop F m false [] [] vs buf
    (mkReader (joinAdvs (map renderPair (kv :: l)) ++ tailText e) last p)
  = Some (fold_left storePair (kv :: l) m,
          buf ++ joinAdvs (map renderPair (kv :: l)) ++ tailMark e, None,
          tailReader e
            (p + Z.of_nat (length (joinAdvs (map renderPair (kv :: l)))))).
Proof.
  induction l as [|kv' l IH]; intros kv e m vs buf last p F Hok HF;
    cbn [forallb] in Hok; apply andb_true_iff in Hok; destruct Hok as [Hkv Hl];
    pose proof (pairOk_key kv Hkv) as Hkey.
  - cbn [map joinAdvs fold_left] in *.
    apply (parseAdvArgs_loop_pair kv 1); [exact Hkv | | exact HF].
    intros f' last' Hf'. destruct f' as [|f']; [exfalso; clear -Hf'; lia|].
    rewrite parseAdvArgs_loop_end, (storeArg_pair _ _ Hkey).
    rewrite <- app_assoc. reflexivity.
  - rewrite joinAdvs_map_cons in *.
    set (r := joinAdvs (map renderPair (kv' :: l))) in *.
    rewrite <- app_assoc. rewrite length_app in HF |- *.
    cbn [app length] in HF |- *.
    apply (parseAdvArgs_loop_pair kv (S (length r + 1))); [exact Hkv | | lia].
    intros f' last' Hf'. destruct f' as [|f']; [exfalso; clear -Hf'; lia|].
    rewrite parseAdvArgs_loop_amp, (storeArg_pair _ _ Hkey).
    subst r. rewrite IH; [|exact Hl | lia].
    cbn [fold_left]. rewrite <- !app_assoc. cbn [app].
    match goal with
    | |- Some (_, _, _, tailReader _ ?x) = Some (_, _, _, tailReader _ ?y) =>
        replace y with x by lia
    end.
    reflexivity.
Qed.

(** ** The end of a segment: advanced arguments, then the terminator *)

Lemma parseAdvArgs_pairs kv l e last p :
  forallb pairOk (kv :: l) = true ->
  parseAdvArgs
    (mkReader (joinAdvs (map renderPair (kv :: l)) ++ tailText e) last p)
  = Some (advMap (kv :: l),
          joinAdvs (map renderPair (kv :: l)) ++ tailMark e, None,
          tailReader e
            (p + Z.of_nat (length (joinAdvs (map renderPair (kv :: l)))))).
Proof.
  intros Hok. unfold parseAdvArgs.
  rewrite (parseAdvArgs_loop_pairs l kv e ∅ (-1) [] last p _ Hok);
    [reflexivity|].
  unfold fuel_of. cbn [unread_buf]. rewrite length_app. lia.
Qed.

Lemma nonempty_map_empty : nonempty_map (∅ : gmap (list Z) (list Z)) = false.
Proof. reflexivity. Qed.

Lemma nonempty_map_true (m : gmap (list Z) (list Z)) :
  m <> ∅ -> nonempty_map m = true.
Proof.
  intros H. unfold nonempty_map. apply negb_true_iff, Nat.eqb_neq.
  intros Hs. apply H, map_size_empty_iff. exact Hs.
Qed.

Lemma fold_storePair_nonempty l : forall m : gmap (list Z) (list Z),
  m <> ∅ -> fold_left storePair l m <> ∅.
Proof.
  induction l as [|kv l IH]; intros m Hm; cbn [fold_left]; [exact Hm|].
  apply IH. unfold storePair. apply insert_non_empty.
Qed.

(** The [AdvArgs] field that [ParseScript] and [parseCommand] set. *)
Lemma advField_spec (advs : list (list Z * list Z))
    (a : option (gmap (list Z) (list Z))) :
  a = None ->
  (if nonempty_map (advMap advs) then NewAdvArgs (advMap advs) else a)
  = advField advs.
Proof.
  intros ->. destruct advs as [|kv l]; [reflexivity|].
  cbn [advField]. rewrite nonempty_map_true; [reflexivity|].
  unfold advMap. cbn [fold_left]. apply fold_storePair_nonempty.
  unfold storePair. apply insert_non_empty.
Qed.

(** What ends the positional arguments of a segment. *)
Lemma parseArgs_loop_tail advs e f oa oo args cur aS last p :
  forallb pairOk advs = true ->
  parseArgs_loop (S f) oa oo args cur aS
    (mkReader (renderAdvs advs ++ tailText e) last p)
  = Some (parseArgs_finish oa args cur, advMap advs, None,
          tailReader e (p + Z.of_nat (length (renderAdvs advs)))).
Proof.
  intros Hok. destruct advs as [|kv l].
  - cbn [renderAdvs app length]. rewrite parseArgs_loop_end.
    replace (p + Z.of_nat 0) with p by lia. reflexivity.
  - cbn [renderAdvs app]. cbn [parseArgs_loop read unread_buf pos lastRune].
    change (SymAdvArgStart =? eof) with false.
    change (isQuote SymAdvArgStart) with false. rewrite andb_false_r.
    change (SymAdvArgStart =? SymJSONStart) with false. rewrite andb_false_r.
    change (SymAdvArgStart =? SymEscapeSeq) with false. cbv beta iota.
    rewrite checkEndOfCmd_other by reflexivity.
    change (SymAdvArgStart =? SymArgSep) with false. rewrite andb_false_r.
    change (SymAdvArgStart =? SymAdvArgStart) with true. cbv beta iota.
    rewrite (parseAdvArgs_pairs kv l e _ _ Hok). cbn [mbind option_bind].
    cbn [length].
    match goal with
    | |- Some (_, _, _, tailReader _ ?x) = Some (_, _, _, tailReader _ ?y) =>
        replace y with x by lia
    end.
    reflexivity.
Qed.

(** A list of arguments up to the end of the segment. *)
Lemma joinArgs_map_cons a b l :
  joinArgs (map renderArg (a :: b :: l))
  = renderArg a ++ SymArgSep :: joinArgs (map renderArg (b :: l)).
Proof. reflexivity. Qed.

Lemma parseArgs_loop_args l : forall a advs e args last p F,
  forallb (argOk false) (a :: l) = true -> forallb pairOk advs = true ->
  (length (joinArgs (map renderArg (a :: l))) + 1 <= F)%nat ->
  parseArgs_loop F false false args [] p
    (mkReader (joinArgs (map renderArg (a :: l)) ++ renderAdvs advs ++ tailText e)
       last p)
  = Some (args ++ map argValue (a :: l), advMap advs, None,
          tailReader e
            (p + Z.of_nat (length (joinArgs (map renderArg (a :: l))))
             + Z.of_nat (length (renderAdvs advs)))).
Proof.
  induction l as [|b l IH]; intros a advs e args last p F Hok Hadv HF;
    cbn [forallb] in Hok; apply andb_true_iff in Hok; destruct Hok as [Ha Hl].
  - cbn [map joinArgs] in *.
    apply (parseArgs_loop_arg a 1); [exact Ha | | exact HF].
    intros f' last' Hf'. destruct f' as [|f']; [exfalso; clear -Hf'; lia|].
    rewrite (parseArgs_loop_tail _ _ _ _ _ _ _ _ _ _ Hadv). reflexivity.
  - rewrite joinArgs_map_cons in *.
    set (r := joinArgs (map renderArg (b :: l))) in *.
    rewrite <- app_assoc. rewrite length_app in HF |- *. cbn [length] in HF |- *.
    apply (parseArgs_loop_arg a (S (length r + 1)));
      [exact Ha | | lia].
    intros f' last' Hf'. destruct f' as [|f']; [exfalso; clear -Hf'; lia|].
    cbn [app]. rewrite parseArgs_loop_sep.
    subst r. rewrite IH; [|exact Hl | exact Hadv | lia].
    rewrite <- app_assoc.
    match goal with
    | |- Some (_, _, _, tailReader _ ?x) = Some (_, _, _, tailReader _ ?y) =>
        replace y with x by lia
    end.
    reflexivity.
Qed.

(** The characters of a command name. *)
Lemma parseCommand_loop_run n : forall f oo a nm ar buf rest last p result,
  forallb isCmdName n = true ->
  (forall f' last', (f <= f')%nat ->
     parseCommand_loop f' oo (mkCommand a (nm ++ n) ar) (buf ++ n)
       (mkReader rest last' (p + Z.of_nat (length n))) = result) ->
  forall F, (length n + f <= F)%nat ->
  parseCommand_loop F oo (mkCommand a nm ar) buf (mkReader (n ++ rest) last p)
  = result.
Proof.
  induction n as [|c n IH]; intros f oo a nm ar buf rest last p result Hn Hk F HF.
  - cbn [app length] in *. rewrite <- (Hk F last HF).
    rewrite !app_nil_r. replace (p + Z.of_nat 0) with p by lia. reflexivity.
  - cbn [forallb] in Hn. apply andb_true_iff in Hn. destruct Hn as [Hc Hn].
    destruct F as [|F]; [cbn [length] in HF; exfalso; clear -HF; lia|].
    cbn [app]. rewrite (parseCommand_loop_name _ _ _ _ _ _ _ _ Hc).
    cbn [AdvArgs Name Args].
    apply (IH f); [exact Hn | | cbn [length] in HF; lia].
    intros f' last' Hf'. rewrite <- (Hk f' last' Hf').
    rewrite <- !app_assoc. cbn [app length].
    replace (p + 1 + Z.of_nat (length n)) with (p + Z.of_nat (S (length n))) by lia.
    reflexivity.
Qed.

(** A name followed by the end of the segment. *)
Lemma parseCommand_loop_end e f oo a nm ar buf last p :
  nm <> [] ->
  parseCommand_loop (S f) oo (mkCommand a nm ar) buf
    (mkReader (tailText e) last p)
  = Some (mkCommand a (ToLower nm) ar, buf ++ tailMark e, None, tailReader e p).
Proof.
  intros Hnm. apply gostring_eqb_neq in Hnm.
  destruct e as [|more]; cbn [tailText tailReader tailMark].
  - cbn [parseCommand_loop read unread_buf pos lastRune].
    change (eof =? eof) with true. cbv beta iota.
    unfold parseCommand_finish. cbn [Name AdvArgs Args]. rewrite Hnm.
    rewrite app_nil_r. reflexivity.
  - cbn [parseCommand_loop read unread_buf pos lastRune].
    change (SymCmdSep =? eof) with false. cbv beta iota.
    rewrite checkEndOfCmd_chain.
    unfold parseCommand_finish. cbn [Name AdvArgs Args]. rewrite Hnm.
    replace (p + 1 + 1) with (p + 2) by lia. reflexivity.
Qed.

(** After the name, [?] is pushed back and [parseArgs] reads the advanced
    arguments only. *)
Lemma parseCommand_loop_advs fuel onlyOneArg cmd buf rest last p
    args advArgs sr' :
  gostring_eqb (Name cmd) [] = false ->
  isInputMacroCmd (Name cmd) = false ->
  parseArgs [] true onlyOneArg
    {| unread_buf := SymAdvArgStart :: rest; lastRune := None; pos := p |}
    = Some (args, advArgs, None, sr') ->
  parseCommand_loop (S fuel) onlyOneArg cmd buf
    {| unread_buf := SymAdvArgStart :: rest; lastRune := last; pos := p |}
  = Some ({| AdvArgs := AdvArgs (with_args cmd args advArgs);
             Name := ToLower (Name cmd);
             Args := Args (with_args cmd args advArgs) |},
          buf ++ [SymAdvArgStart], None, sr').
Proof.
  intros Hname Hmacro Hargs.
  cbn [parseCommand_loop read unread_buf pos lastRune].
  change (SymAdvArgStart =? eof) with false.
  rewrite checkEndOfCmd_other by reflexivity.
  change (isCmdName SymAdvArgStart) with false.
  change (SymAdvArgStart =? SymArgStart) with false.
  change (SymAdvArgStart =? SymAdvArgStart) with true.
  cbn [orb]. rewrite Hname. cbv beta iota.
  cbn [unread lastRune unread_buf pos].
  replace (p + 1 - 1) with p by lia.
  rewrite Hmacro, Hargs. cbn [mbind option_bind].
  unfold parseCommand_finish. cbn [Name with_args]. rewrite Hname. reflexivity.
Qed.

(** [**] is consumed by [ParseScript]; [parseCommand] reads the rest of an
    explicit command. *)
Lemma parseCommand_segment n args advs e last p :
  segOk (CmdSeg n args advs) = true ->
  exists buf',
    parseCommand false
      (mkReader ((n ++ renderArgs args ++ renderAdvs advs) ++ tailText e) last p)
    = Some (segCmd (CmdSeg n args advs), buf', None,
            tailReader e
              (p + Z.of_nat (length (n ++ renderArgs args ++ renderAdvs advs)))).
Proof.
  intros Hok. cbn [segOk] in Hok.
  repeat (apply andb_true_iff in Hok; destruct Hok as [Hok ?]).
  apply negb_true_iff in Hok, H1.
  assert (Hnm : n <> []) by (apply gostring_eqb_neq; exact Hok).
  unfold parseCommand. rewrite <- !app_assoc, length_app.
  assert (HF : (length n + 1
                <= fuel_of (mkReader (n ++ renderArgs args ++ renderAdvs advs
                                      ++ tailText e) last p))%nat).
  { unfold fuel_of. cbn [unread_buf]. rewrite length_app. lia. }
  destruct args as [|a l]; [destruct advs as [|kv advs]|].
  - cbn [renderArgs renderAdvs segCmd map app length advField]. eexists.
    apply (parseCommand_loop_run n 1 false None [] [] []); [exact H2 | | exact HF].
    intros f' last' Hf'. destruct f' as [|f']; [exfalso; clear -Hf'; lia|].
    cbn [app]. rewrite (parseCommand_loop_end e _ _ _ _ _ _ _ _ Hnm).
    replace (p + Z.of_nat (length n + 0)) with (p + Z.of_nat (length n)) by lia.
    reflexivity.
  - cbn [renderArgs segCmd map app].
    exists (n ++ [SymAdvArgStart]).
    apply (parseCommand_loop_run n 1 false None [] [] []); [exact H2 | | exact HF].
    intros f' last' Hf'. destruct f' as [|f']; [exfalso; clear -Hf'; lia|].
    cbn [app].
    change (renderAdvs (kv :: advs) ++ tailText e)
      with (SymAdvArgStart
            :: (joinAdvs (map renderPair (kv :: advs)) ++ tailText e)).
    rewrite (parseCommand_loop_advs f' false (mkCommand None n []) n
               (joinAdvs (map renderPair (kv :: advs)) ++ tailText e) last'
               (p + Z.of_nat (length n)) [] (advMap (kv :: advs))
               (tailReader e (p + Z.of_nat (length n)
                              + Z.of_nat (length (renderAdvs (kv :: advs))))));
      [|exact Hok | exact H1 |].
    + unfold with_args. cbn [AdvArgs Name Args].
      rewrite (advField_spec (kv :: advs) None eq_refl).
      match goal with
      | |- Some (_, _, _, tailReader _ ?x) = Some (_, _, _, tailReader _ ?y) =>
          replace y with x by lia
      end.
      reflexivity.
    + unfold parseArgs. cbn [pos].
      change (SymAdvArgStart
              :: joinAdvs (map renderPair (kv :: advs)) ++ tailText e)
        with (renderAdvs (kv :: advs) ++ tailText e).
      unfold fuel_of. cbn [unread_buf].
      rewrite (parseArgs_loop_tail (kv :: advs) e _ true false [] [] _ _ _ H).
      reflexivity.
  - cbn [renderArgs segCmd].
    set (joined := joinArgs (map renderArg (a :: l))) in *.
    exists (n ++ [SymArgStart]). cbn [app length].
    apply (parseCommand_loop_run n 1 false None [] [] []); [exact H2 | | exact HF].
    intros f' last' Hf'. destruct f' as [|f']; [exfalso; clear -Hf'; lia|].
    cbn [app].
    rewrite (parseCommand_loop_args f' false (mkCommand None n []) n
               (joined ++ renderAdvs advs ++ tailText e) last'
               (p + Z.of_nat (length n))
               (map argValue (a :: l)) (advMap advs)
               (tailReader e (p + Z.of_nat (length n) + 1
                              + Z.of_nat (length joined)
                              + Z.of_nat (length (renderAdvs advs)))));
      [|exact Hok | exact H1 |].
    + unfold with_args. cbn [AdvArgs Name Args map].
      rewrite (advField_spec advs None eq_refl).
      rewrite length_app.
      match goal with
      | |- Some (_, _, _, tailReader _ ?x) = Some (_, _, _, tailReader _ ?y) =>
          replace y with x by lia
      end.
      reflexivity.
    + unfold parseArgs. cbn [pos]. subst joined.
      rewrite (parseArgs_loop_args l a advs e [] _ _ _ H0 H).
      * reflexivity.
      * unfold fuel_of. cbn [unread_buf]. rewrite length_app. lia.
Qed.

(** What ends a media title. *)
Lemma parseMediaTitleSyntax_loop_tail advs e f content last p :
  forallb pairOk advs = true ->
  parseMediaTitleSyntax_loop (S f) content
    (mkReader (renderAdvs advs ++ tailText e) last p)
  = Some (Some (mediaTitle_finish (advMap advs) content), None,
          tailReader e (p + Z.of_nat (length (renderAdvs advs)))).
Proof.
  intros Hok. destruct advs as [|kv l].
  - cbn [renderAdvs app length]. replace (p + Z.of_nat 0) with p by lia.
    destruct e as [|more]; cbn [tailText tailReader].
    + reflexivity.
    + cbn [parseMediaTitleSyntax_loop read unread_buf pos lastRune].
      change (SymCmdSep =? eof) with false.
      change (SymCmdSep =? SymEscapeSeq) with false. cbv beta iota.
      rewrite checkEndOfCmd_chain.
      replace (p + 1 + 1) with (p + 2) by lia. reflexivity.
  - cbn [renderAdvs app].
    cbn [parseMediaTitleSyntax_loop read unread_buf pos lastRune].
    change (SymAdvArgStart =? eof) with false.
    change (SymAdvArgStart =? SymEscapeSeq) with false. cbv beta iota.
    rewrite checkEndOfCmd_other by reflexivity.
    change (SymAdvArgStart =? SymAdvArgStart) with true. cbv beta iota.
    rewrite (parseAdvArgs_pairs kv l e _ _ Hok). cbn [mbind option_bind].
    cbn [length].
    match goal with
    | |- Some (_, _, tailReader _ ?x) = Some (_, _, tailReader _ ?y) =>
        replace y with x by lia
    end.
    reflexivity.
Qed.

(** The media-title scanner copies title characters up to there. *)
Lemma parseMediaTitleSyntax_loop_run t : forall content advs e last p F,
  forallb isTitleChar t = true -> forallb pairOk advs = true ->
  (length t + 1 <= F)%nat ->
  parseMediaTitleSyntax_loop F content
    (mkReader (t ++ renderAdvs advs ++ tailText e) last p)
  = Some (Some (mediaTitle_finish (advMap advs) (content ++ t)), None,
          tailReader e
            (p + Z.of_nat (length t) + Z.of_nat (length (renderAdvs advs)))).
Proof.
  induction t as [|c t IH]; intros content advs e last p F Ht Hadv HF;
    (destruct F as [|F]; [exfalso; clear -HF; cbn [length] in HF; lia|]).
  - cbn [app length]. rewrite app_nil_r.
    rewrite (parseMediaTitleSyntax_loop_tail _ _ _ _ _ _ Hadv).
    replace (p + Z.of_nat 0) with p by lia. reflexivity.
  - cbn [forallb] in Ht. apply andb_true_iff in Ht. destruct Ht as [Hc Ht].
    unfold isTitleChar in Hc. apply negb_true_iff in Hc.
    repeat (apply orb_false_iff in Hc; destruct Hc as [Hc ?]).
    cbn [app parseMediaTitleSyntax_loop read unread_buf pos lastRune].
    rewrite Hc, H1, (checkEndOfCmd_other _ _ H0), H.
    rewrite IH; [|exact Ht | exact Hadv | cbn [length] in HF; lia].
    rewrite <- app_assoc. cbn [app length].
    match goal with
    | |- Some (_, _, tailReader _ ?x) = Some (_, _, tailReader _ ?y) =>
        replace y with x by lia
    end.
    reflexivity.
Qed.

(** [ParseScript] on one segment and what ends it. *)
Lemma ParseScript_loop_segment s e f script last p :
  segOk s = true ->
  ParseScript_loop (S f) script (mkReader (renderSeg s ++ tailText e) last p)
  = ParseScript_loop f (appendCmd script (segCmd s))
      (tailReader e (p + Z.of_nat (length (renderSeg s)))).
Proof.
  intros Hok. destruct s as [t advs|n args advs|c advs].
  - cbn [segOk] in Hok. apply andb_true_iff in Hok. destruct Hok as [Hok Hadv].
    apply andb_true_iff in Hok. destruct Hok as [Hc Ha].
    destruct t as [|c t]; [discriminate|].
    repeat (apply andb_true_iff in Hc; destruct Hc as [Hc ?]).
    apply negb_true_iff in Hc, H, H0.
    pose proof Ha as Ha'. cbn [argOk forallb] in Ha'.
    repeat (apply andb_true_iff in Ha'; destruct Ha' as [Ha' ?]).
    destruct (isPlainChar_cases c Ha') as (H0' & _).
    cbn [startsPlain] in H1. apply andb_true_iff in H1. destruct H1 as [_ Hj].
    apply negb_true_iff in Hj.
    cbn [renderSeg]. rewrite <- app_assoc.
    cbn [app ParseScript_loop read unread_buf pos lastRune].
    rewrite H0', Hc, Hj, andb_false_r, H, H0.
    cbn [unread lastRune unread_buf pos].
    replace (p + 1 - 1) with p by lia.
    unfold parseAutoLaunchCmd, parseArgs. cbn [pos].
    rewrite (parseArgs_loop_arg (Bare (c :: t)) 1 false true []
               (renderAdvs advs ++ tailText e) None p
               (Some ([TrimSpace (c :: t)], advMap advs, None,
                      tailReader e (p + Z.of_nat (length (c :: t))
                                    + Z.of_nat (length (renderAdvs advs))))) Ha).
    + cbn [mbind option_bind].
      rewrite (advField_spec advs None eq_refl).
      cbn [length]. rewrite length_app.
      match goal with
      | |- ParseScript_loop _ _ (tailReader _ ?x)
           = ParseScript_loop _ _ (tailReader _ ?y) =>
          replace y with x by lia
      end.
      reflexivity.
    + intros f' last' Hf'. destruct f' as [|f']; [exfalso; clear -Hf'; lia|].
      cbn [argText renderArg].
      rewrite (parseArgs_loop_tail _ _ _ _ _ _ _ _ _ _ Hadv). reflexivity.
    + unfold fuel_of. cbn [unread_buf renderArg].
      change (c :: t ++ renderAdvs advs ++ tailText e)
        with ((c :: t) ++ renderAdvs advs ++ tailText e).
      rewrite length_app. lia.
  - destruct (parseCommand_segment n args advs e (Some SymCmdStart) (p + 1 + 1) Hok)
      as [buf' Hcmd].
    cbn [renderSeg app].
    rewrite (ParseScript_loop_command _ _ _ _ _ _ _ _ Hcmd).
    cbn [length].
    match goal with
    | |- ParseScript_loop _ _ (tailReader _ ?x)
         = ParseScript_loop _ _ (tailReader _ ?y) =>
        replace y with x by lia
    end.
    reflexivity.
  - cbn [segOk] in Hok. apply andb_true_iff in Hok. destruct Hok as [Hok Hadv].
    apply andb_true_iff in Hok. destruct Hok as [Hc Hv].
    cbn [renderSeg app]. rewrite <- app_assoc.
    cbn [ParseScript_loop read unread_buf pos lastRune].
    change (SymMediaTitleStart =? eof) with false.
    change (isWhitespace SymMediaTitleStart) with false.
    change (SymMediaTitleStart =? SymJSONStart) with false.
    rewrite andb_false_r.
    change (SymMediaTitleStart =? SymMediaTitleStart) with true.
    cbv beta iota. unfold parseMediaTitleSyntax.
    rewrite (parseMediaTitleSyntax_loop_run c [] advs e _ _ _ Hc Hadv);
      [|unfold fuel_of; cbn [unread_buf]; rewrite length_app; lia].
    cbn [mbind option_bind app]. unfold mediaTitle_finish at 1.
    cbn [mt_valid]. rewrite Hv. cbn [negb].
    unfold mediaTitle_finish. cbn [mt_advArgs mt_rawContent].
    rewrite (advField_spec advs None eq_refl). cbn [length segCmd].
    rewrite length_app.
    match goal with
    | |- ParseScript_loop _ _ (tailReader _ ?x)
         = ParseScript_loop _ _ (tailReader _ ?y) =>
        replace y with x by lia
    end.
    reflexivity.
Qed.

Lemma noLead_rev_TrimSpace c : noLead (rev (TrimSpace c)).
Proof. unfold TrimSpace. rewrite rev_involutive. apply trimLeft_noLead. Qed.

Lemma trimLeft_app_noLead u v :
  u <> [] -> noLead u -> trimLeft (u ++ v) = u ++ v.
Proof.
  destruct u as [|a u]; [congruence|]. intros _ Ha. cbn in Ha |- *.
  rewrite Ha. reflexivity.
Qed.

(** A character that is not white space in front of a trimmed string
    gives a trimmed string. *)
Lemma TrimSpace_cons a c :
  unicode_IsSpace a = false -> TrimSpace (a :: TrimSpace c) = a :: TrimSpace c.
Proof.
  intros Ha. set (u := TrimSpace c).
  unfold TrimSpace at 1. cbn [trimLeft]. rewrite Ha. cbn [rev].
  destruct (rev u) as [|b r] eqn:E.
  - cbn [app trimLeft]. rewrite Ha. cbn [rev app].
    apply (f_equal (@rev Z)) in E. rewrite rev_involutive in E.
    rewrite E. reflexivity.
  - rewrite trimLeft_app_noLead; [|discriminate|].
    + rewrite <- E. rewrite rev_app_distr, rev_involutive. reflexivity.
    + pose proof (noLead_rev_TrimSpace c) as H. fold u in H. rewrite E in H.
      exact H.
Qed.

(** A media title that fails validation and is the whole input. *)
Lemma ParseScript_loop_title_fallback c last p F :
  forallb isTitleChar c = true -> mediaTitle_valid (TrimSpace c) = false ->
  (length c + 2 <= F)%nat ->
  ParseScript_loop F emptyScript (mkReader (SymMediaTitleStart :: c) last p)
  = Some (scriptOf [launchCmd (SymMediaTitleStart :: TrimSpace c)], None,
          atEnd (p + 1 + Z.of_nat (length c))).
Proof.
  intros Hc Hv HF.
  destruct F as [|[|F]]; [exfalso; clear -HF; lia | exfalso; clear -HF; lia|].
  cbn [ParseScript_loop read unread_buf pos lastRune].
  change (SymMediaTitleStart =? eof) with false.
  change (isWhitespace SymMediaTitleStart) with false.
  change (SymMediaTitleStart =? SymJSONStart) with false.
  rewrite andb_false_r.
  change (SymMediaTitleStart =? SymMediaTitleStart) with true.
  cbv beta iota. unfold parseMediaTitleSyntax.
  pose proof (parseMediaTitleSyntax_loop_run c [] [] AtEof
                (Some SymMediaTitleStart) (p + 1) (S (length c)) Hc eq_refl)
    as Hm.
  cbn [renderAdvs tailText app] in Hm. rewrite app_nil_r in Hm.
  unfold fuel_of. cbn [unread_buf]. rewrite Hm by lia. clear Hm.
  cbn [mbind option_bind app]. unfold mediaTitle_finish at 1.
  cbn [mt_valid]. rewrite Hv. cbn [negb].
  unfold mediaTitle_finish. cbn [mt_advArgs mt_rawContent tailReader renderAdvs length].
  unfold parseAutoLaunchCmd, parseArgs, fuel_of, atEnd.
  cbn [unread_buf pos length].
  rewrite parseArgs_loop_eof. cbn [mbind option_bind].
  rewrite nonempty_map_empty.
  unfold parseArgs_finish. cbn [negb app].
  rewrite TrimSpace_cons by reflexivity.
  unfold atEnd. cbn [emptyScript Cmds Traits app ParseScript_loop read unread_buf pos lastRune].
  change (eof =? eof) with true. cbv beta iota.
  unfold scriptOf, launchCmd, namedCmd, atEnd.
  replace (p + 1 + Z.of_nat (length c) + Z.of_nat 0)
    with (p + 1 + Z.of_nat (length c)) by lia.
  reflexivity.
Qed.

Lemma renderChain_cons s s' segs :
  renderChain (s :: s' :: segs)
  = renderSeg s ++ tailText (AtChain (renderChain (s' :: segs))).
Proof. reflexivity. Qed.

Lemma renderSeg_length s : segOk s = true -> (1 <= length (renderSeg s))%nat.
Proof.
  destruct s as [[|c t] advs|n args advs|c advs]; cbn; try discriminate;
    intros _; lia.
Qed.

(** A chain of segments is parsed segment by segment. *)
Lemma ParseScript_loop_chain segs : forall s script last p F,
  forallb segOk (s :: segs) = true ->
  (length (renderChain (s :: segs)) + 1 <= F)%nat ->
  ParseScript_loop F script (mkReader (renderChain (s :: segs)) last p)
  = Some ({| Traits := Traits script;
             Cmds := Cmds script ++ map segCmd (s :: segs) |}, None,
          atEnd (p + Z.of_nat (length (renderChain (s :: segs))))).
Proof.
  induction segs as [|s' segs IH]; intros s script last p F Hok HF;
    cbn [forallb] in Hok; apply andb_true_iff in Hok; destruct Hok as [Hs Hl].
  - cbn [renderChain map] in *. pose proof (renderSeg_length s Hs) as Hlen.
    destruct F as [|[|F]]; [exfalso; clear -HF; lia | exfalso; clear -HF Hlen; lia|].
    rewrite <- (app_nil_r (renderSeg s)) at 1.
    rewrite (ParseScript_loop_segment s AtEof _ _ _ _ Hs).
    unfold appendCmd, atEnd.
    cbn [tailReader ParseScript_loop read atEnd unread_buf pos lastRune Cmds].
    change (eof =? eof) with true. cbv beta iota.
    destruct (Cmds script ++ [segCmd s]) eqn:E;
      [apply app_eq_nil in E; destruct E; discriminate|].
    rewrite <- E. reflexivity.
  - rewrite renderChain_cons in *.
    set (rest := renderChain (s' :: segs)) in *.
    rewrite length_app in HF |- *. cbn [tailText length] in HF |- *.
    destruct F as [|F]; [exfalso; clear -HF; lia|].
    rewrite (ParseScript_loop_segment s (AtChain rest) _ _ _ _ Hs).
    cbn [tailReader]. subst rest. rewrite IH; [|exact Hl | lia].
    cbn [appendCmd Traits Cmds map]. rewrite <- app_assoc. cbn [app].
    match goal with
    | |- Some (_, _, atEnd ?x) = Some (_, _, atEnd ?y) =>
        replace y with x by lia
    end.
    reflexivity.
Qed.

End Written.

Section WrittenTheorems.

Context {codec : JSONCodec}.

(** A chain of bare paths, explicit commands with plain and quoted
    arguments, and valid media titles, each with or without advanced
    arguments, joined by [||], parses to exactly the commands it spells,
    in order: names lower-cased, arguments and values trimmed, a quoted
    argument keeping its commas, pipes and question marks, a later
    advanced argument replacing an earlier one with the same key. *)
Theorem ParseScript_chain (segs : list segment) :
  segs <> [] -> forallb segOk segs = true ->
  ParseScript (NewParser (renderChain segs)) =
    Some (scriptOf (map segCmd segs), None,
          atEnd (Z.of_nat (length (renderChain segs)))).
Proof.
  intros Hne Hok. destruct segs as [|s segs]; [contradiction|].
  unfold ParseScript, NewParser.
  rewrite (ParseScript_loop_chain segs s emptyScript None 0 _ Hok);
    [reflexivity|].
  unfold fuel_of. cbn [unread_buf]. lia.
Qed.

(** An input of white space only, the empty input included, is the empty
    script error. *)
Theorem ParseScript_blank (ws : list Z) :
  forallb isWhitespace ws = true ->
  ParseScript (NewParser ws) =
    Some (emptyScript, Some ErrEmptyZapScript,
          atEnd (Z.of_nat (length ws))).
Proof.
  intros Hws. unfold ParseScript, NewParser, fuel_of. cbn [unread_buf].
  assert (H : forall last p F, (length ws < F)%nat ->
            ParseScript_loop F emptyScript (mkReader ws last p)
            = Some (emptyScript, Some ErrEmptyZapScript,
                    atEnd (p + Z.of_nat (length ws)))).
  { induction ws as [|c ws IH]; intros last p F HF;
      (destruct F as [|F]; [exfalso; clear -HF; lia|]).
    - cbn [length]. replace (p + Z.of_nat 0) with p by lia. reflexivity.
    - cbn [forallb] in Hws. apply andb_true_iff in Hws. destruct Hws as [Hc Hws].
      cbn [ParseScript_loop read unread_buf pos lastRune].
      assert (H0 : (c =? eof) = false).
      { unfold isWhitespace in Hc. unfold eof.
        destruct (Z.eqb_spec c 0); [subst; discriminate | reflexivity]. }
      rewrite H0, Hc. rewrite (IH Hws); [|cbn [length] in HF; lia].
      cbn [length].
      replace (p + 1 + Z.of_nat (length ws)) with (p + Z.of_nat (S (length ws)))
        by lia.
      reflexivity. }
  rewrite H; [reflexivity | lia].
Qed.

(** A media title that fails validation and is the whole input becomes
    an auto-launch of [@] and the trimmed content; [[] and [,] are ordinary
    characters in it. *)
Theorem ParseScript_title_fallback (c : list Z) :
  forallb isTitleChar c = true -> mediaTitle_valid (TrimSpace c) = false ->
  ParseScript (NewParser (SymMediaTitleStart :: c)) =
    Some (scriptOf [launchCmd (SymMediaTitleStart :: TrimSpace c)], None,
          atEnd (1 + Z.of_nat (length c))).
Proof.
  intros Hc Hv. unfold ParseScript, NewParser.
  rewrite (ParseScript_loop_title_fallback c None 0 _ Hc Hv); [reflexivity|].
  unfold fuel_of. cbn [unread_buf length]. lia.
Qed.

End WrittenTheorems.

Lemma ParseScript_chain_witness :
  renderChain [CmdSeg (runes "Launch.System")
                 [Bare (runes "snes"); Quoted 39 (runes " a,b|? ")]
                 [(runes "when", runes " x=1 "); (runes "when", runes "2")];
               PathSeg (runes "/roms/game.bin") [];
               TitleSeg (runes "snes/Mario [USA]") [(runes "tags", runes "a,b")];
               CmdSeg (runes "stop") [] []]
    = runes "**Launch.System:snes,' a,b|? '?when= x=1 &when=2||/roms/game.bin||@snes/Mario [USA]?tags=a,b||**stop"
  /\ @ParseScript tableCodec
       (NewParser (runes "**Launch.System:snes,' a,b|? '?when= x=1 &when=2||/roms/game.bin||@snes/Mario [USA]?tags=a,b||**stop"))
     = Some (scriptOf
               [ {| AdvArgs := Some (<[runes "when" := runes "2"]> ∅);
                    Name := runes "launch.system";
                    Args := [runes "snes"; runes "a,b|?"] |};
                 launchCmd (runes "/roms/game.bin");
                 {| AdvArgs := Some (<[runes "tags" := runes "a,b"]> ∅);
                    Name := ZapScriptCmdLaunchTitle;
                    Args := [runes "snes/Mario [USA]"] |};
                 namedCmd (runes "stop") [] ],
             None, atEnd 100).
Proof.
  split; [reflexivity|].
  pose proof (@ParseScript_chain tableCodec
           [CmdSeg (runes "Launch.System")
              [Bare (runes "snes"); Quoted 39 (runes " a,b|? ")]
              [(runes "when", runes " x=1 "); (runes "when", runes "2")];
            PathSeg (runes "/roms/game.bin") [];
            TitleSeg (runes "snes/Mario [USA]") [(runes "tags", runes "a,b")];
            CmdSeg (runes "stop") [] []]
           ltac:(discriminate) eq_refl) as H.
  vm_compute in H. vm_compute. exact H.
Defined.

Lemma ParseScript_blank_witness :
  @ParseScript tableCodec (NewParser [32; 9; 10; 13]) =
    Some (emptyScript, Some ErrEmptyZapScript, atEnd 4).
Proof. exact (@ParseScript_blank tableCodec [32; 9; 10; 13] eq_refl). Defined.

Lemma ParseScript_title_fallback_witness :
  @ParseScript tableCodec (NewParser (runes "@ system [x], 1 ")) =
    Some (scriptOf [launchCmd (runes "@system [x], 1")], None, atEnd 16).
Proof.
  exact (@ParseScript_title_fallback tableCodec (runes " system [x], 1 ")
           eq_refl eq_refl).
Defined.

(** * Expressions: conversion and evaluation *)

Lemma isTextChar_cases c :
  isTextChar c = true ->
  (c =? eof) = false /\ (c =? SymEscapeSeq) = false
  /\ (c =? SymExpressionStart) = false.
Proof.
  unfold isTextChar. intros H. apply negb_true_iff in H.
  repeat (apply orb_false_iff in H; destruct H as [H ?]). auto.
Qed.

Lemma isTokenExprChar_cases c :
  isTokenExprChar c = true -> (c =? eof) = false /\ (c =? exprEndToken) = false.
Proof.
  unfold isTokenExprChar. intros H. apply negb_true_iff in H.
  apply orb_false_iff in H. exact H.
Qed.

(** The source of an expression up to its closing []]]; a single []] in
    it is copied. *)
Lemma parseExpression_loop_expr e : forall rawExpr rest last p F,
  exprSourceOk e = true -> (length e + 1 <= F)%nat ->
  parseExpression_loop F rawExpr
    (mkReader (e ++ SymExpressionEnd :: SymExpressionEnd :: rest) last p)
  = Some (rawExpr ++ e ++ TokExprEnd, None,
          mkReader rest (Some SymExpressionEnd) (p + Z.of_nat (length e) + 2)).
Proof.
  induction e as [|c e IH]; intros rawExpr rest last p F He HF;
    (destruct F as [|F]; [exfalso; clear -HF; cbn [length] in HF; lia|]).
  - cbn [app length parseExpression_loop read unread_buf pos lastRune].
    change (SymExpressionEnd =? eof) with false.
    change (SymExpressionEnd =? SymExpressionEnd) with true. cbv beta iota.
    cbn [peek unread_buf pos lastRune].
    change (SymExpressionEnd =? RuneError) with false.
    change (SymExpressionEnd =? SymExpressionEnd) with true. cbv beta iota.
    cbn [skip read snd unread_buf pos lastRune].
    replace (p + 1 + 1) with (p + Z.of_nat 0 + 2) by lia. reflexivity.
  - cbn [exprSourceOk] in He. apply andb_true_iff in He. destruct He as [Hc He].
    apply andb_true_iff in Hc. destruct Hc as [H0 H1].
    apply negb_true_iff in H0.
    assert (Hgo :
      parseExpression_loop (S F) rawExpr
        (mkReader ((c :: e) ++ SymExpressionEnd :: SymExpressionEnd :: rest)
           last p)
      = parseExpression_loop F (rawExpr ++ [c])
          (mkReader (e ++ SymExpressionEnd :: SymExpressionEnd :: rest)
             (if c =? SymExpressionEnd then None else Some c) (p + 1))).
    { cbn [app parseExpression_loop read unread_buf pos lastRune]. rewrite H0.
      destruct (c =? SymExpressionEnd); [|reflexivity].
      destruct e as [|d e]; [discriminate|].
      apply andb_true_iff in H1. destruct H1 as [Hd Hr].
      apply negb_true_iff in Hd. apply negb_true_iff in Hr.
      cbn [app]. unfold peek. cbn [unread_buf pos]. rewrite Hr, Hd.
      reflexivity. }
    rewrite Hgo, IH; [|exact He | cbn [length] in HF; lia].
    rewrite <- app_assoc. cbn [app length].
    replace (p + 1 + Z.of_nat (length e) + 2)
      with (p + Z.of_nat (S (length e)) + 2) by lia.
    reflexivity.
Qed.

(** After the first [[]: a second one opens an expression. *)
Lemma parseExpression_expr e rest last p :
  exprSourceOk e = true ->
  parseExpression
    (mkReader (SymExpressionStart :: e
               ++ SymExpressionEnd :: SymExpressionEnd :: rest) last p)
  = Some (tokenPiece (Expr e), None,
          mkReader rest (Some SymExpressionEnd)
            (p + 1 + Z.of_nat (length e) + 2)).
Proof.
  intros He. unfold parseExpression.
  cbn [read unread_buf pos lastRune].
  change (negb (SymExpressionStart =? SymExpressionStart)) with false.
  cbv beta iota.
  rewrite parseExpression_loop_expr;
    [reflexivity | exact He
     | unfold fuel_of; cbn [unread_buf]; rewrite length_app; lia].
Qed.

Lemma ParseExpressions_loop_text t : forall result rest last p res,
  forallb isTextChar t = true ->
  forall f,
  (forall f' last', (f <= f')%nat ->
     ParseExpressions_loop f' (result ++ t)
       (mkReader rest last' (p + Z.of_nat (length t))) = res) ->
  forall F, (length t + f <= F)%nat ->
  ParseExpressions_loop F result (mkReader (t ++ rest) last p) = res.
Proof.
  induction t as [|c t IH]; intros result rest last p res Ht f Hk F HF.
  - cbn [app length] in *. rewrite <- (Hk F last HF).
    rewrite app_nil_r. replace (p + Z.of_nat 0) with p by lia. reflexivity.
  - cbn [forallb] in Ht. apply andb_true_iff in Ht. destruct Ht as [Hc Ht].
    destruct (isTextChar_cases c Hc) as (H0 & H1 & H2).
    destruct F as [|F]; [exfalso; clear -HF; cbn [length] in HF; lia|].
    cbn [app ParseExpressions_loop read unread_buf pos lastRune].
    rewrite H0, H1, H2.
    apply (IH _ _ _ _ _ Ht f); [|cbn [length] in HF; lia].
    intros f' last' Hf'. rewrite <- (Hk f' last' Hf').
    rewrite <- app_assoc. cbn [app length].
    replace (p + 1 + Z.of_nat (length t)) with (p + Z.of_nat (S (length t))) by lia.
    reflexivity.
Qed.

(** [ParseExpressions] on written pieces. *)
Lemma ParseExpressions_loop_pieces ps : forall result last p F,
  forallb exprPieceOk ps = true ->
  (length (flat_map writtenPiece ps) + 1 <= F)%nat ->
  ParseExpressions_loop F result (mkReader (flat_map writtenPiece ps) last p)
  = Some (result ++ flat_map tokenPiece ps, None,
          atEnd (p + Z.of_nat (length (flat_map writtenPiece ps)))).
Proof.
  induction ps as [|pc ps IH]; intros result last p F Hok HF.
  - destruct F as [|F]; [exfalso; clear -HF; lia|].
    cbn [flat_map length]. rewrite app_nil_r.
    replace (p + Z.of_nat 0) with p by lia. reflexivity.
  - cbn [forallb] in Hok. apply andb_true_iff in Hok. destruct Hok as [Hpc Hps].
    cbn [flat_map] in *. rewrite length_app in HF |- *.
    set (r := flat_map writtenPiece ps) in *.
    destruct pc as [t|e]; cbn [exprPieceOk writtenPiece tokenPiece] in *.
    + apply (ParseExpressions_loop_text t _ _ _ _ _ Hpc (length r + 1)); [|lia].
      intros f' last' Hf'. subst r. rewrite IH; [|exact Hps | lia].
      rewrite <- app_assoc.
      match goal with
      | |- Some (_, _, atEnd ?x) = Some (_, _, atEnd ?y) =>
          replace y with x by lia
      end.
      reflexivity.
    + destruct F as [|F]; [exfalso; clear -HF; lia|].
      cbn [app ParseExpressions_loop read unread_buf pos lastRune].
      change (SymExpressionStart =? eof) with false.
      change (SymExpressionStart =? SymEscapeSeq) with false.
      change (SymExpressionStart =? SymExpressionStart) with true.
      cbv beta iota. rewrite <- app_assoc. cbn [app].
      rewrite (parseExpression_expr e r _ _ Hpc). cbn [mbind option_bind].
      cbn [length] in HF. rewrite length_app in HF. cbn [length] in HF.
      subst r. rewrite IH; [|exact Hps | lia].
      rewrite <- app_assoc. cbn [length]. rewrite length_app. cbn [length app].
      match goal with
      | |- Some (_, _, atEnd ?x) = Some (_, _, atEnd ?y) =>
          replace y with x by lia
      end.
      reflexivity.
Qed.

(** ** Evaluation *)

(** The source of an expression up to the end token. *)
Lemma parsePostExpression_loop_expr e : forall rawExpr rest last p F,
  forallb isTokenExprChar e = true -> (length e + 1 <= F)%nat ->
  parsePostExpression_loop F rawExpr
    (mkReader (e ++ exprEndToken :: rest) last p)
  = Some (rawExpr ++ e, None,
          mkReader rest (Some exprEndToken) (p + Z.of_nat (length e) + 1)).
Proof.
  induction e as [|c e IH]; intros rawExpr rest last p F He HF;
    (destruct F as [|F]; [exfalso; clear -HF; cbn [length] in HF; lia|]).
  - cbn [app length]. rewrite app_nil_r.
    replace (p + Z.of_nat 0 + 1) with (p + 1) by lia. reflexivity.
  - cbn [forallb] in He. apply andb_true_iff in He. destruct He as [Hc He].
    destruct (isTokenExprChar_cases c Hc) as (H0 & H2).
    cbn [app parsePostExpression_loop read unread_buf pos lastRune].
    rewrite H0, H2. rewrite IH; [|exact He | cbn [length] in HF; lia].
    rewrite <- app_assoc. cbn [app length].
    replace (p + 1 + Z.of_nat (length e) + 1)
      with (p + Z.of_nat (S (length e)) + 1) by lia.
    reflexivity.
Qed.

Lemma parsePostExpression_loop_open e : forall rawExpr last p F,
  forallb isTokenExprChar e = true -> (length e + 1 <= F)%nat ->
  parsePostExpression_loop F rawExpr (mkReader e last p)
  = Some (rawExpr ++ e, Some ErrUnmatchedExpression,
          atEnd (p + Z.of_nat (length e))).
Proof.
  induction e as [|c e IH]; intros rawExpr last p F He HF;
    (destruct F as [|F]; [exfalso; clear -HF; cbn [length] in HF; lia|]).
  - cbn [length]. rewrite app_nil_r. replace (p + Z.of_nat 0) with p by lia.
    reflexivity.
  - cbn [forallb] in He. apply andb_true_iff in He. destruct He as [Hc He].
    destruct (isTokenExprChar_cases c Hc) as (H0 & H2).
    cbn [parsePostExpression_loop read unread_buf pos lastRune].
    rewrite H0, H2. rewrite IH; [|exact He | cbn [length] in HF; lia].
    rewrite <- app_assoc. cbn [app length].
    replace (p + 1 + Z.of_nat (length e)) with (p + Z.of_nat (S (length e))) by lia.
    reflexivity.
Qed.

Section EvaluationProofs.

Context {engine : ExprEngine}.

Lemma write_pieces env parts : forall acc,
  EvalExpressions_write env parts acc
  = evalPieces env (map pieceOfPart parts) acc.
Proof.
  induction parts as [|part parts IH]; intros acc; [reflexivity|].
  cbn [EvalExpressions_write map evalPieces]. unfold pieceOfPart at 1.
  destruct (Type_ part); cbn [evalPieces]; try apply IH.
  destruct (expr_Eval (Value part) env) as [[s|b|i|f|]|];
    cbn [formatOutput]; try apply IH; reflexivity.
Qed.

Lemma evalPieces_app env l1 : forall l2 acc,
  evalPieces env (l1 ++ l2) acc
  = match evalPieces env l1 acc with
    | (r, None) => evalPieces env l2 r
    | (r, Some e) => (r, Some e)
    end.
Proof.
  induction l1 as [|[t|e] l1 IH]; intros l2 acc; cbn [app evalPieces];
    [reflexivity | apply IH|].
  destruct (expr_Eval e env) as [o|]; [|reflexivity].
  destruct (formatOutput o); [apply IH | reflexivity].
Qed.

Lemma evalPieces_prefix env pre l1 l2 :
  (forall acc, evalPieces env l1 acc = evalPieces env l2 acc) ->
  forall acc, evalPieces env (pre ++ l1) acc = evalPieces env (pre ++ l2) acc.
Proof.
  intros H acc. rewrite !evalPieces_app.
  destruct (evalPieces env pre acc) as [r [e|]]; [reflexivity | apply H].
Qed.

(** Text that follows the current part joins it. *)
Lemma flushPart_text env parts cur t l :
  currentPartOk cur ->
  forall acc,
  evalPieces env
    (map pieceOfPart
       (flushPart parts
          (match t with
           | [] => cur
           | _ => mkPart (Value cur ++ t) ArgPartTypeString
           end)) ++ l) acc
  = evalPieces env (map pieceOfPart (flushPart parts cur) ++ Text t :: l) acc.
Proof.
  intros Hcur acc. destruct t as [|c t].
  - apply evalPieces_prefix. intros a. cbn [evalPieces].
    rewrite app_nil_r. reflexivity.
  - destruct Hcur as [->|Hs].
    + unfold flushPart. cbn [isUnknownPart Type_ Value emptyPart negb app].
      rewrite map_app, <- app_assoc. reflexivity.
    + unfold flushPart, isUnknownPart. rewrite Hs. cbn [Type_ negb].
      rewrite !map_app, <- !app_assoc. apply evalPieces_prefix. intros a.
      cbn [map app]. unfold pieceOfPart. rewrite Hs. cbn [Type_ Value evalPieces].
      rewrite app_assoc. reflexivity.
Qed.

Lemma scan_text {R : Type} (P : option R -> Prop)
    (k : option (list PostArgPart * option error * ScriptReader) -> option R) t :
  forall parts cur rest last p f,
  forallb isEvalTextChar t = true ->
  (forall f' last', (f <= f')%nat ->
     P (k (EvalExpressions_scan f' parts
             (match t with
              | [] => cur
              | _ => mkPart (Value cur ++ t) ArgPartTypeString
              end)
             (mkReader rest last' (p + Z.of_nat (length t)))))) ->
  forall F, (length t + f <= F)%nat ->
  P (k (EvalExpressions_scan F parts cur (mkReader (t ++ rest) last p))).
Proof.
  induction t as [|c t IH]; intros parts cur rest last p f Ht Hk F HF.
  - cbn [app length] in *. specialize (Hk F last HF).
    replace (p + Z.of_nat 0) with p in Hk by lia. exact Hk.
  - cbn [forallb] in Ht. apply andb_true_iff in Ht. destruct Ht as [Hc Ht].
    unfold isEvalTextChar in Hc. apply negb_true_iff, orb_false_iff in Hc.
    destruct Hc as [H0 H3].
    destruct F as [|F]; [exfalso; clear -HF; cbn [length] in HF; lia|].
    cbn [app EvalExpressions_scan read unread_buf pos lastRune].
    rewrite H0, H3.
    apply (IH _ _ _ _ _ f); [exact Ht | | cbn [length] in HF; lia].
    intros f' last' Hf'. specialize (Hk f' last' Hf'). cbn [Value length] in Hk |- *.
    replace (p + 1 + Z.of_nat (length t)) with (p + Z.of_nat (S (length t))) by lia.
    destruct t as [|c' t]; [exact Hk|].
    rewrite <- app_assoc. exact Hk.
Qed.

Lemma currentPartOk_text cur t :
  currentPartOk cur ->
  currentPartOk (match t with
                 | [] => cur
                 | _ => mkPart (Value cur ++ t) ArgPartTypeString
                 end).
Proof. intros H. destruct t; [exact H | right; reflexivity]. Qed.

(** The scan over the tokens of a list of pieces. *)
Lemma scan_pieces {R : Type} (P : option R -> Prop)
    (k : option (list PostArgPart * option error * ScriptReader) -> option R)
    env ps :
  forall parts cur rest last p f,
  currentPartOk cur -> forallb evalPieceOk ps = true ->
  (forall f' last' parts' cur', (f <= f')%nat -> currentPartOk cur' ->
     (forall l acc,
        evalPieces env (map pieceOfPart (flushPart parts' cur') ++ l) acc
        = evalPieces env (map pieceOfPart (flushPart parts cur) ++ ps ++ l) acc) ->
     P (k (EvalExpressions_scan f' parts' cur'
             (mkReader rest last'
                (p + Z.of_nat (length (flat_map tokenPiece ps))))))) ->
  forall F, (length (flat_map tokenPiece ps) + f <= F)%nat ->
  P (k (EvalExpressions_scan F parts cur
          (mkReader (flat_map tokenPiece ps ++ rest) last p))).
Proof.
  induction ps as [|pc ps IH]; intros parts cur rest last p f Hcur Hok Hk F HF.
  - cbn [flat_map app length] in *.
    specialize (Hk F last parts cur HF Hcur (fun l acc => eq_refl)).
    replace (p + Z.of_nat 0) with p in Hk by lia. exact Hk.
  - cbn [forallb] in Hok. apply andb_true_iff in Hok. destruct Hok as [Hpc Hps].
    cbn [flat_map] in *. rewrite length_app in HF, Hk. rewrite <- app_assoc.
    set (r := flat_map tokenPiece ps) in *.
    destruct pc as [t|e]; cbn [evalPieceOk tokenPiece] in *.
    + apply (scan_text P k t _ _ _ _ _ (length r + f)); [exact Hpc | | lia].
      intros f1 last1 Hf1. subst r.
      apply (IH _ _ _ _ _ f);
        [apply currentPartOk_text; exact Hcur | exact Hps | | lia].
      intros f' last' parts' cur' Hf' Hcur' Heq.
      assert (Hq : forall l acc,
                evalPieces env (map pieceOfPart (flushPart parts' cur') ++ l) acc
                = evalPieces env
                    (map pieceOfPart (flushPart parts cur) ++ (Text t :: ps) ++ l)
                    acc).
      { intros l acc. rewrite Heq. cbn [app].
        apply flushPart_text. exact Hcur. }
      specialize (Hk f' last' parts' cur' Hf' Hcur' Hq).
      match goal with
      | |- P (k (EvalExpressions_scan _ _ _ (mkReader _ _ ?x))) =>
          match type of Hk with
          | P (k (EvalExpressions_scan _ _ _ (mkReader _ _ ?y))) =>
              replace x with y by lia
          end
      end.
      exact Hk.
    + destruct F as [|F]; [exfalso; clear -HF; cbn [length] in HF; lia|].
      cbn [app EvalExpressions_scan read unread_buf pos lastRune].
      change (exprStartToken =? eof) with false.
      change (exprStartToken =? exprStartToken) with true. cbv beta iota.
      unfold parsePostExpression. rewrite <- app_assoc. cbn [app].
      rewrite parsePostExpression_loop_expr;
        [|exact Hpc | unfold fuel_of; cbn [unread_buf]; rewrite length_app; lia].
      cbn [mbind option_bind app]. fold (flushPart parts cur).
      cbn [length] in HF, Hk. rewrite length_app in HF, Hk. cbn [length] in HF, Hk.
      subst r.
      apply (IH _ _ _ _ _ f); [left; reflexivity | exact Hps | | lia].
      intros f' last' parts' cur' Hf' Hcur' Heq.
      assert (Hq : forall l acc,
                evalPieces env (map pieceOfPart (flushPart parts' cur') ++ l) acc
                = evalPieces env
                    (map pieceOfPart (flushPart parts cur) ++ (Expr e :: ps) ++ l)
                    acc).
      { intros l acc. rewrite Heq.
        unfold flushPart at 1. cbn [isUnknownPart emptyPart Type_ negb].
        rewrite map_app, <- app_assoc. reflexivity. }
      specialize (Hk f' last' parts' cur' Hf' Hcur' Hq).
      match goal with
      | |- P (k (EvalExpressions_scan _ _ _ (mkReader _ _ ?x))) =>
          match type of Hk with
          | P (k (EvalExpressions_scan _ _ _ (mkReader _ _ ?y))) =>
              replace x with y by lia
          end
      end.
      exact Hk.
Qed.

End EvaluationProofs.

(** [ParseExpressions] copies literal text (free of the end marker, [^]
    and [[]) and turns every [[[...]]] into the expression between the
    two private-use tokens, in order; the expression is any text that the
    first []]] after it closes, single []] and [[] in it included. *)
Theorem ParseExpressions_pieces (ps : list exprPiece) :
  forallb exprPieceOk ps = true ->
  ParseExpressions (NewParser (flat_map writtenPiece ps)) =
    Some (flat_map tokenPiece ps, None,
          atEnd (Z.of_nat (length (flat_map writtenPiece ps)))).
Proof.
  intros Hok. unfold ParseExpressions, NewParser.
  rewrite ParseExpressions_loop_pieces; [reflexivity | exact Hok|].
  unfold fuel_of. cbn [unread_buf]. lia.
Qed.

Section EvaluationTheorems.

Context {engine : ExprEngine}.

(** [EvalExpressions] writes literal text as it is and every expression
    (any text without the end marker and the end token) as the formatted
    value the engine gives for it, from left to right; the first
    expression the engine rejects, or whose value has an unsupported type,
    ends the evaluation with that error and no text. *)
Theorem EvalExpressions_pieces (env : exprEnv) (ps : list exprPiece) :
  forallb evalPieceOk ps = true ->
  EvalExpressions env (NewParser (flat_map tokenPiece ps)) =
    Some (evalPieces env ps [],
          atEnd (Z.of_nat (length (flat_map tokenPiece ps)))).
Proof.
  intros Hok. unfold EvalExpressions, NewParser.
  set (F := fuel_of _).
  assert (HF : (length (flat_map tokenPiece ps) + 1 <= F)%nat)
    by (subst F; unfold fuel_of; cbn [unread_buf]; lia).
  clearbody F. revert F HF.
  replace (mkReader (flat_map tokenPiece ps) None 0)
    with (mkReader (flat_map tokenPiece ps ++ []) None 0)
    by (rewrite app_nil_r; reflexivity).
  apply (scan_pieces
           (fun r => r = Some (evalPieces env ps [],
                               atEnd (Z.of_nat (length (flat_map tokenPiece ps)))))
           (fun r => '(parts, err, sr) ← r;
                     match err with
                     | Some e => Some ([], Some (EvalScanError e), sr)
                     | None =>
                         let '(result, err) := EvalExpressions_write env parts [] in
                         Some (result, err, sr)
                     end)
           env ps [] emptyPart [] None 0 1);
    [left; reflexivity | exact Hok |].
  intros f' last' parts' cur' Hf' Hcur' Heq.
  destruct f' as [|f']; [exfalso; clear -Hf'; lia|].
  cbn [EvalExpressions_scan read unread_buf pos lastRune].
  change (eof =? eof) with true. cbv beta iota.
  fold (flushPart parts' cur'). cbn [mbind option_bind].
  rewrite write_pieces. specialize (Heq [] []).
  rewrite !app_nil_r in Heq. rewrite Heq.
  change (map pieceOfPart (flushPart [] emptyPart) ++ ps) with ps.
  destruct (evalPieces env ps []) as [r e]. cbn [Z.add]. reflexivity.
Qed.

(** An expression whose end token is missing fails the evaluation as a
    whole, with the unmatched-expression error and no text, whatever the
    engine makes of the expressions before it. *)
Theorem EvalExpressions_unclosed (env : exprEnv) (ps : list exprPiece)
    (e : list Z) :
  forallb evalPieceOk ps = true -> forallb isTokenExprChar e = true ->
  EvalExpressions env
    (NewParser (flat_map tokenPiece ps ++ exprStartToken :: e)) =
    Some ([], Some (EvalScanError ErrUnmatchedExpression),
          atEnd (Z.of_nat (length (flat_map tokenPiece ps ++ exprStartToken :: e)))).
Proof.
  intros Hok He. unfold EvalExpressions, NewParser.
  set (F := fuel_of _).
  assert (HF : (length (flat_map tokenPiece ps) + S (length e) <= F)%nat)
    by (subst F; unfold fuel_of; cbn [unread_buf]; rewrite length_app;
        cbn [length]; lia).
  clearbody F. revert F HF.
  apply (scan_pieces
           (fun r => r = Some ([], Some (EvalScanError ErrUnmatchedExpression),
                               atEnd (Z.of_nat (length (flat_map tokenPiece ps
                                                        ++ exprStartToken :: e)))))
           (fun r => '(parts, err, sr) ← r;
                     match err with
                     | Some e => Some ([], Some (EvalScanError e), sr)
                     | None =>
                         let '(result, err) := EvalExpressions_write env parts [] in
                         Some (result, err, sr)
                     end)
           env ps [] emptyPart (exprStartToken :: e) None 0 (S (length e)));
    [left; reflexivity | exact Hok |].
  intros f' last' parts' cur' Hf' _ _.
  destruct f' as [|f']; [exfalso; clear -Hf'; lia|].
  cbn [EvalExpressions_scan read unread_buf pos lastRune].
  change (exprStartToken =? eof) with false.
  change (exprStartToken =? exprStartToken) with true. cbv beta iota.
  unfold parsePostExpression.
  rewrite parsePostExpression_loop_open;
    [|exact He | unfold fuel_of; cbn [unread_buf]; lia].
  cbn [mbind option_bind]. rewrite length_app. cbn [length].
  match goal with
  | |- Some (_, _, atEnd ?x) = Some (_, _, atEnd ?y) =>
      replace y with x by lia
  end.
  reflexivity.
Qed.

End EvaluationTheorems.

Lemma ParseExpressions_pieces_witness :
  ParseExpressions (NewParser (runes "id=[[xs[0] ]], [[name]]!")) =
    Some (runes "id=" ++ [0xE000] ++ runes "xs[0] " ++ [0xE001] ++ runes ", "
          ++ [0xE000] ++ runes "name" ++ [0xE001] ++ runes "!", None,
          atEnd 24).
Proof.
  exact (ParseExpressions_pieces
           [Text (runes "id="); Expr (runes "xs[0] "); Text (runes ", ");
            Expr (runes "name"); Text (runes "!")] eq_refl).
Defined.

Lemma EvalExpressions_pieces_witness :
  @EvalExpressions tableEngine tt
    (NewParser (runes "id=" ++ [0xE000] ++ runes "xs[0]" ++ [0xE001]
                ++ runes ", " ++ [0xE000] ++ runes "name" ++ [0xE001]
                ++ [0xE000] ++ runes "ok" ++ [0xE001])) =
    Some (runes "id=7, Mariotrue", None, atEnd 22)
  /\ @EvalExpressions tableEngine tt
       (NewParser (runes "a" ++ [0xE000] ++ runes "bad" ++ [0xE001]
                   ++ [0xE000] ++ runes "1+1" ++ [0xE001])) =
     Some ([], Some (EvalFailed (runes "bad")), atEnd 11).
Proof.
  split.
  - exact (@EvalExpressions_pieces tableEngine tt
             [Text (runes "id="); Expr (runes "xs[0]"); Text (runes ", ");
              Expr (runes "name"); Expr (runes "ok")] eq_refl).
  - exact (@EvalExpressions_pieces tableEngine tt
             [Text (runes "a"); Expr (runes "bad"); Expr (runes "1+1")]
             eq_refl).
Defined.

Lemma EvalExpressions_unclosed_witness :
  @EvalExpressions tableEngine tt
    (NewParser (runes "a" ++ [0xE000] ++ runes "bad" ++ [0xE001]
                ++ [0xE000] ++ runes "xs[0]")) =
    Some ([], Some (EvalScanError ErrUnmatchedExpression), atEnd 12).
Proof.
  exact (@EvalExpressions_unclosed tableEngine tt
           [Text (runes "a"); Expr (runes "bad")] (runes "xs[0]")
           eq_refl eq_refl).
Defined.

(** * Tag filters *)

(** Boolean tests on runes as arithmetic. *)
Ltac rune_arith :=
  repeat rewrite ?orb_true_iff, ?andb_true_iff, ?orb_false_iff,
    ?andb_false_iff, ?negb_true_iff, ?negb_false_iff, ?Z.leb_le, ?Z.eqb_eq,
    ?Z.leb_gt, ?Z.eqb_neq in *.

Lemma isTagChar_spec c :
  isTagChar c = true
  <-> (97 <= c <= 122 \/ 48 <= c <= 57 \/ c = 58 \/ c = 44 \/ c = 43 \/ c = 45).
Proof.
  unfold isTagChar, in_range.
  change (chr "a") with 97. change (chr "z") with 122.
  change (chr "0") with 48. change (chr "9") with 57.
  change (chr ":") with 58. change (chr ",") with 44.
  change (chr "+") with 43. change (chr "-") with 45.
  rune_arith. lia.
Qed.

Lemma isTagChar_IsSpace c : isTagChar c = true -> unicode_IsSpace c = false.
Proof.
  intros H. apply isTagChar_spec in H.
  destruct (unicode_IsSpace c) eqn:E; [exfalso|reflexivity].
  unfold unicode_IsSpace, in_range in E. rune_arith. lia.
Qed.

Lemma IsSpace_isRegexpSpace c :
  unicode_IsSpace c = false -> isRegexpSpace c = false.
Proof.
  intros H. destruct (isRegexpSpace c) eqn:E; [exfalso|reflexivity].
  unfold unicode_IsSpace, in_range in H. unfold isRegexpSpace in E.
  rune_arith. lia.
Qed.

Section TagFilterProofs.

Context {tables : UnicodeTables}.

Lemma isTagChar_ToLower c : isTagChar c = true -> unicode_ToLower c = c.
Proof.
  intros H. apply isTagChar_spec in H.
  unfold unicode_ToLower, toLowerRune, in_range.
  change (chr "A") with 65. change (chr "Z") with 90.
  destruct (Z.leb_spec c 127); [|lia].
  destruct (Z.leb_spec 65 c); destruct (Z.leb_spec c 90); cbn; lia.
Qed.

Lemma isTagChar_replace c :
  isTagChar c = true -> (c =? chr " ") = false /\ (c =? chr ".") = false.
Proof.
  intros H. apply isTagChar_spec in H.
  change (chr " ") with 32. change (chr ".") with 46. rune_arith. lia.
Qed.

(** A string that neither starts nor ends with white space is its own
    [TrimSpace]. *)
Lemma TrimSpace_noLead s : noLead s -> noLead (rev s) -> TrimSpace s = s.
Proof.
  intros H1 H2. unfold TrimSpace.
  rewrite (noLead_trimLeft s H1), (noLead_trimLeft (rev s) H2).
  apply rev_involutive.
Qed.

Lemma noLead_Forall s :
  Forall (fun c => unicode_IsSpace c = false) s -> noLead s.
Proof. intros [|c s' Hc _]; [exact I | exact Hc]. Qed.

Lemma TrimSpace_Forall s :
  Forall (fun c => unicode_IsSpace c = false) s -> TrimSpace s = s.
Proof.
  intros H. apply TrimSpace_noLead; apply noLead_Forall; [exact H|].
  apply List.Forall_forall. intros c Hc. apply in_rev in Hc.
  rewrite List.Forall_forall in H. exact (H c Hc).
Qed.

Lemma replaceColonSpacing_fixed s :
  Forall (fun c => isRegexpSpace c = false) s ->
  forall b, replaceColonSpacing b [] s = s.
Proof.
  induction 1 as [|c s Hc _ IH]; intros b; cbn [replaceColonSpacing];
    [reflexivity|].
  rewrite Hc. destruct (Z.eqb_spec c (chr ":")) as [->|_].
  - rewrite IH. reflexivity.
  - rewrite IH. reflexivity.
Qed.

Lemma tagChars_Forall s :
  forallb isTagChar s = true -> Forall (fun c => isTagChar c = true) s.
Proof. intros H. apply List.Forall_forall. apply forallb_forall. exact H. Qed.

Lemma tagChars_TrimSpace s : forallb isTagChar s = true -> TrimSpace s = s.
Proof.
  intros H. apply TrimSpace_Forall.
  eapply Forall_impl; [exact (tagChars_Forall s H)|].
  intros c Hc. exact (isTagChar_IsSpace c Hc).
Qed.

(** Every step of [NormalizeTag] leaves a string over the tag alphabet as
    it is. *)
Lemma NormalizeTag_fixed s : forallb isTagChar s = true -> NormalizeTag s = s.
Proof.
  intros H. unfold NormalizeTag. rewrite (tagChars_TrimSpace s H).
  rewrite replaceColonSpacing_fixed.
  2:{ eapply Forall_impl; [exact (tagChars_Forall s H)|].
      intros c Hc. apply IsSpace_isRegexpSpace, isTagChar_IsSpace, Hc. }
  unfold strings_ToLower, ReplaceAll. rewrite !map_map.
  induction s as [|c s IH]; [reflexivity|].
  cbn [forallb] in H. apply andb_true_iff in H. destruct H as [Hc Hs].
  cbn [map List.filter]. rewrite (isTagChar_ToLower c Hc).
  destruct (isTagChar_replace c Hc) as [-> ->]. rewrite Hc.
  f_equal. exact (IH Hs).
Qed.

Lemma NormalizeTag_tagChars s : forallb isTagChar (NormalizeTag s) = true.
Proof.
  unfold NormalizeTag. apply forallb_forall. intros c Hc.
  apply filter_In in Hc. exact (proj2 Hc).
Qed.

(** ** The parts of the input *)

Lemma Split_run sep s : forall cur rest,
  Forall (fun c => (c =? sep) = false) s ->
  Split sep cur (s ++ rest) = Split sep (cur ++ s) rest.
Proof.
  induction s as [|c s IH]; intros cur rest H; cbn [app Split].
  - rewrite app_nil_r. reflexivity.
  - inversion H as [|? ? Hc Hs]; subst. rewrite Hc.
    rewrite (IH _ _ Hs), <- app_assoc. reflexivity.
Qed.

Lemma Split_last sep s :
  Forall (fun c => (c =? sep) = false) s -> Split sep [] s = [s].
Proof.
  intros H. rewrite <- (app_nil_r s) at 1. rewrite (Split_run _ _ _ _ H).
  reflexivity.
Qed.

Lemma Split_part sep s rest :
  Forall (fun c => (c =? sep) = false) s ->
  Split sep [] (s ++ sep :: rest) = s :: Split sep [] rest.
Proof.
  intros H. rewrite (Split_run _ _ _ _ H). cbn [Split app].
  rewrite Z.eqb_refl. reflexivity.
Qed.

(** ** One part *)

Lemma In_trimLeft c s : In c (trimLeft s) -> In c s.
Proof.
  destruct (trimLeft_split s) as [ws Hws]. intros H.
  rewrite Hws. apply in_or_app. right. exact H.
Qed.

Lemma In_TrimSpace c s : In c (TrimSpace s) -> In c s.
Proof.
  unfold TrimSpace. intros H. apply in_rev in H. apply In_trimLeft in H.
  apply in_rev in H. apply In_trimLeft in H. exact H.
Qed.

Lemma In_splitOperator c s : In c (snd (splitOperator s)) -> In c s.
Proof.
  destruct s as [|a s]; cbn [splitOperator]; [intros []|].
  destruct (a =? SymTagAnd); [cbn; auto|].
  destruct (a =? SymTagNot); [cbn; auto|].
  destruct (a =? SymTagOr); cbn; auto.
Qed.

Lemma splitOperator_operator s :
  isTagOperator (fst (splitOperator s)) = true.
Proof.
  destruct s as [|a s]; cbn [splitOperator]; [reflexivity|].
  destruct (a =? SymTagAnd); [reflexivity|].
  destruct (a =? SymTagNot); [reflexivity|].
  destruct (a =? SymTagOr); reflexivity.
Qed.

Lemma IndexRune_none s sep : ~ In sep s -> IndexRune s sep = None.
Proof.
  induction s as [|c s IH]; intros H; cbn [IndexRune]; [reflexivity|].
  destruct (Z.eqb_spec c sep) as [->|_].
  - exfalso. apply H. left. reflexivity.
  - rewrite IH; [reflexivity|]. intros Hin. apply H. right. exact Hin.
Qed.

Lemma IndexRune_app s sep rest :
  Forall (fun c => (c =? sep) = false) s ->
  IndexRune (s ++ sep :: rest) sep = Some (length s).
Proof.
  induction 1 as [|c s Hc _ IH]; cbn [app IndexRune length].
  - rewrite Z.eqb_refl. reflexivity.
  - rewrite Hc, IH. reflexivity.
Qed.

Lemma firstn_length_app (s rest : list Z) : firstn (length s) (s ++ rest) = s.
Proof.
  induction s as [|c s IH]; cbn [length firstn app];
    [destruct rest; reflexivity | f_equal; exact IH].
Qed.

Lemma skipn_length_app (s : list Z) c rest :
  skipn (S (length s)) (s ++ c :: rest) = rest.
Proof. induction s as [|a s IH]; cbn in *; [reflexivity | exact IH]. Qed.

Lemma nonempty_eqb (s : list Z) : s <> [] -> gostring_eqb s [] = false.
Proof. destruct s; [congruence | reflexivity]. Qed.

(** ** The loop *)

Lemma filterKey_inj f g : filterKey f = filterKey g -> f = g.
Proof. destruct f, g. unfold filterKey. cbn. congruence. Qed.

Lemma ParseTagFilters_loop_post parts : forall seen result,
  loopInv seen result -> loopPost (ParseTagFilters_loop parts seen result).
Proof.
  induction parts as [|tagStr parts IH]; intros seen result Hinv;
    cbn [ParseTagFilters_loop].
  - destruct Hinv as (Hw & Hn & _). split; assumption.
  - destruct (gostring_eqb (TrimSpace tagStr) []); [exact (IH _ _ Hinv)|].
    pose proof (splitOperator_operator (TrimSpace tagStr)) as Hop.
    destruct (splitOperator (TrimSpace tagStr)) as [operator rest].
    cbn [fst] in Hop.
    destruct (IndexRune rest (chr ":")) as [colonIdx|]; [|reflexivity].
    set (ty := NormalizeTag (TrimSpace (firstn colonIdx rest))).
    set (va := NormalizeTag (TrimSpace (skipn (S colonIdx) rest))).
    destruct (gostring_eqb ty []) eqn:Ety; [reflexivity|].
    destruct (gostring_eqb va []) eqn:Eva; [reflexivity|].
    cbn [orb].
    destruct (bool_decide ((ty, va, operator) ∈ seen)) eqn:Eseen;
      [exact (IH _ _ Hinv)|].
    apply bool_decide_eq_false in Eseen.
    apply IH. destruct Hinv as (Hw & Hn & Hs). repeat split.
    + apply Forall_app. split; [exact Hw|]. constructor; [|constructor].
      unfold filterWell. cbn.
      apply gostring_eqb_neq in Ety. apply gostring_eqb_neq in Eva.
      repeat split; try assumption; apply NormalizeTag_tagChars.
    + apply NoDup_app. repeat split; [exact Hn| |apply NoDup_singleton].
      intros f Hf Hf'. apply list_elem_of_singleton in Hf'. subst f.
      apply list_elem_of_In in Hf. apply Hs in Hf. exact (Eseen Hf).
    + intros f Hf. apply in_app_or in Hf. destruct Hf as [Hf|[<-|[]]].
      * apply elem_of_union_r. exact (Hs f Hf).
      * apply elem_of_union_l, elem_of_singleton. reflexivity.
Qed.

(** A part with text but no colon stops the loop wherever it stands. *)
Lemma ParseTagFilters_loop_no_colon part parts :
  In part parts -> TrimSpace part <> [] -> ~ In (chr ":") part ->
  forall seen result,
    exists e, ParseTagFilters_loop parts seen result = ([], Some e).
Proof.
  intros Hin Hne Hcolon.
  induction parts as [|tagStr parts IH]; [destruct Hin|].
  intros seen result. cbn [ParseTagFilters_loop].
  destruct Hin as [->|Hin].
  - rewrite (nonempty_eqb _ Hne).
    pose proof (In_splitOperator (chr ":") (TrimSpace part)) as Hso.
    destruct (splitOperator (TrimSpace part)) as [operator rest].
    cbn [snd] in Hso. rewrite IndexRune_none; [eauto|].
    intros H. apply Hcolon, In_TrimSpace, Hso, H.
  - specialize (IH Hin).
    destruct (gostring_eqb (TrimSpace tagStr) []); [apply IH|].
    destruct (splitOperator (TrimSpace tagStr)) as [operator rest].
    destruct (IndexRune rest (chr ":")) as [colonIdx|]; [|eauto].
    destruct (_ || _); [eauto|].
    destruct (bool_decide _); apply IH.
Qed.

(** ** Filters that were written down *)

Lemma isTagOperator_cases op :
  isTagOperator op = true ->
  op = TagOperatorAND \/ op = TagOperatorNOT \/ op = TagOperatorOR.
Proof.
  unfold isTagOperator. intros H.
  apply orb_true_iff in H. destruct H as [H|H];
    [apply orb_true_iff in H; destruct H as [H|H]|];
    apply gostring_eqb_eq in H; auto.
Qed.

Lemma splitOperator_operatorSym op rest :
  isTagOperator op = true ->
  splitOperator (operatorSym op :: rest) = (op, rest).
Proof.
  intros H. destruct (isTagOperator_cases op H) as [-> | [-> | ->] ]; reflexivity.
Qed.

Lemma operatorSym_cases op :
  operatorSym op = 43 \/ operatorSym op = 45 \/ operatorSym op = 126.
Proof.
  unfold operatorSym.
  destruct (gostring_eqb op TagOperatorAND); [auto|].
  destruct (gostring_eqb op TagOperatorNOT); auto.
Qed.

Lemma isTypeChar_cases c :
  isTypeChar c = true ->
  isTagChar c = true /\ (c =? chr ":") = false /\ (c =? chr ",") = false.
Proof.
  unfold isTypeChar. intros H.
  apply andb_true_iff in H. destruct H as [H H2].
  apply andb_true_iff in H. destruct H as [H H1].
  apply negb_true_iff in H1. apply negb_true_iff in H2. auto.
Qed.

Lemma isValueChar_cases c :
  isValueChar c = true -> isTagChar c = true /\ (c =? chr ",") = false.
Proof.
  unfold isValueChar. intros H.
  apply andb_true_iff in H. destruct H as [H H1].
  apply negb_true_iff in H1. auto.
Qed.

Lemma canonicalFilter_cases f :
  canonicalFilter f = true ->
  FilterType f <> [] /\ forallb isTypeChar (FilterType f) = true
  /\ FilterValue f <> [] /\ forallb isValueChar (FilterValue f) = true
  /\ isTagOperator (FilterOperator f) = true.
Proof.
  unfold canonicalFilter. intros H.
  repeat (apply andb_true_iff in H; destruct H as [H ?]).
  apply negb_true_iff, gostring_eqb_neq in H.
  match goal with
  | Hv : negb (gostring_eqb (FilterValue f) []) = true |- _ =>
      apply negb_true_iff, gostring_eqb_neq in Hv
  end.
  auto.
Qed.

Lemma forallb_Forall_impl (p : Z -> bool) (Q : Z -> Prop) s :
  (forall c, p c = true -> Q c) -> forallb p s = true -> Forall Q s.
Proof.
  intros Hpq H. apply List.Forall_forall. intros c Hc. apply Hpq.
  rewrite forallb_forall in H. exact (H c Hc).
Qed.

Lemma forallb_impl (p q : Z -> bool) s :
  (forall c, p c = true -> q c = true) ->
  forallb p s = true -> forallb q s = true.
Proof.
  intros Hpq H. apply forallb_forall. intros c Hc. apply Hpq.
  rewrite forallb_forall in H. exact (H c Hc).
Qed.

(** No character of a written filter is a comma or white space. *)
Lemma renderFilter_chars f :
  canonicalFilter f = true ->
  Forall (fun c => (c =? chr ",") = false /\ unicode_IsSpace c = false)
    (renderFilter f).
Proof.
  intros H. destruct (canonicalFilter_cases f H) as (_ & Ht & _ & Hv & _).
  unfold renderFilter. constructor.
  - change (chr ",") with 44.
    destruct (operatorSym_cases (FilterOperator f)) as [-> | [-> | ->] ];
      split; reflexivity.
  - apply Forall_app. split.
    + revert Ht. apply forallb_Forall_impl. intros c Hc.
      destruct (isTypeChar_cases c Hc) as (Hc1 & _ & Hc2).
      split; [exact Hc2 | exact (isTagChar_IsSpace c Hc1)].
    + constructor; [split; reflexivity|].
      revert Hv. apply forallb_Forall_impl. intros c Hc.
      destruct (isValueChar_cases c Hc) as (Hc1 & Hc2).
      split; [exact Hc2 | exact (isTagChar_IsSpace c Hc1)].
Qed.

Lemma Split_renderFilters fs :
  Forall (fun f => canonicalFilter f = true) fs -> fs <> [] ->
  Split (chr ",") [] (renderFilters fs) = map renderFilter fs.
Proof.
  induction 1 as [|f fs Hf Hfs IH]; [congruence|]. intros _.
  assert (Hc : Forall (fun c => (c =? chr ",") = false) (renderFilter f)).
  { eapply Forall_impl; [exact (renderFilter_chars f Hf)|].
    intros c Hc. exact (proj1 Hc). }
  destruct fs as [|g fs].
  - cbn [renderFilters map]. apply Split_last. exact Hc.
  - change (renderFilters (f :: g :: fs))
      with (renderFilter f ++ chr "," :: renderFilters (g :: fs)).
    rewrite (Split_part _ _ _ Hc), IH by congruence. reflexivity.
Qed.

(** The loop on one written filter. *)
Lemma ParseTagFilters_loop_rendered f parts seen result :
  canonicalFilter f = true ->
  ParseTagFilters_loop (renderFilter f :: parts) seen result
  = if bool_decide (filterKey f ∈ seen)
    then ParseTagFilters_loop parts seen result
    else ParseTagFilters_loop parts ({[filterKey f]} ∪ seen) (result ++ [f]).
Proof.
  intros H. pose proof (renderFilter_chars f H) as Hchars.
  destruct (canonicalFilter_cases f H) as (Htne & Ht & Hvne & Hv & Hop).
  assert (Htt : forallb isTagChar (FilterType f) = true).
  { revert Ht. apply forallb_impl. intros c Hc.
    exact (proj1 (isTypeChar_cases c Hc)). }
  assert (Hvt : forallb isTagChar (FilterValue f) = true).
  { revert Hv. apply forallb_impl. intros c Hc.
    exact (proj1 (isValueChar_cases c Hc)). }
  cbn [ParseTagFilters_loop].
  rewrite TrimSpace_Forall.
  2:{ eapply Forall_impl; [exact Hchars|]. intros c Hc. exact (proj2 Hc). }
  unfold renderFilter at 1 2.
  cbn [gostring_eqb]. rewrite (splitOperator_operatorSym _ _ Hop).
  rewrite IndexRune_app.
  2:{ revert Ht. apply forallb_Forall_impl. intros c Hc.
      exact (proj1 (proj2 (isTypeChar_cases c Hc))). }
  rewrite firstn_length_app, skipn_length_app.
  rewrite (tagChars_TrimSpace _ Htt), (tagChars_TrimSpace _ Hvt).
  rewrite (NormalizeTag_fixed _ Htt), (NormalizeTag_fixed _ Hvt).
  rewrite (nonempty_eqb _ Htne), (nonempty_eqb _ Hvne). cbn [orb].
  destruct f as [ty va op]. reflexivity.
Qed.

Lemma ParseTagFilters_loop_render fs : forall seen result,
  Forall (fun f => canonicalFilter f = true) fs -> NoDup fs ->
  (forall f, In f fs -> filterKey f ∉ seen) ->
  ParseTagFilters_loop (map renderFilter fs) seen result
  = (result ++ fs, None).
Proof.
  induction fs as [|f fs IH]; intros seen result Hc Hn Hs.
  - cbn. rewrite app_nil_r. reflexivity.
  - inversion Hc as [|? ? Hf Hfs]; subst.
    apply NoDup_cons in Hn. destruct Hn as [Hnf Hn].
    cbn [map]. rewrite (ParseTagFilters_loop_rendered _ _ _ _ Hf).
    rewrite bool_decide_eq_false_2 by (apply Hs; left; reflexivity).
    rewrite (IH _ _ Hfs Hn).
    + rewrite <- app_assoc. reflexivity.
    + intros g Hg Hin. apply elem_of_union in Hin. destruct Hin as [Hin|Hin].
      * apply elem_of_singleton in Hin. apply filterKey_inj in Hin. subst g.
        apply Hnf. apply list_elem_of_In. exact Hg.
      * apply (Hs g); [right; exact Hg | exact Hin].
Qed.

Lemma renderFilters_nonempty fs : fs <> [] -> renderFilters fs <> [].
Proof.
  destruct fs as [|f [|g fs]]; [congruence| |]; intros _; discriminate.
Qed.

End TagFilterProofs.

(** ** Blank input *)

Lemma trimLeft_spaces s : forallb unicode_IsSpace s = true -> trimLeft s = [].
Proof.
  induction s as [|c s IH]; cbn [forallb trimLeft]; [reflexivity|].
  intros H. apply andb_true_iff in H. destruct H as [-> Hs]. exact (IH Hs).
Qed.

Lemma TrimSpace_spaces s : forallb unicode_IsSpace s = true -> TrimSpace s = [].
Proof. intros H. unfold TrimSpace. rewrite (trimLeft_spaces s H). reflexivity. Qed.

Lemma Split_blank s : forall cur,
  forallb unicode_IsSpace cur = true -> forallb isBlankChar s = true ->
  Forall (fun part => TrimSpace part = []) (Split (chr ",") cur s).
Proof.
  induction s as [|c s IH]; intros cur Hcur Hs; cbn [Split].
  - constructor; [exact (TrimSpace_spaces cur Hcur) | constructor].
  - cbn [forallb] in Hs. apply andb_true_iff in Hs. destruct Hs as [Hc Hs].
    destruct (c =? chr ",") eqn:E.
    + constructor; [exact (TrimSpace_spaces cur Hcur)|].
      apply IH; [reflexivity | exact Hs].
    + apply IH; [|exact Hs]. rewrite forallb_app, Hcur. cbn [forallb].
      unfold isBlankChar in Hc. rewrite E, orb_false_r in Hc. rewrite Hc.
      reflexivity.
Qed.

Section TagFilterBlank.

Context {tables : UnicodeTables}.

Lemma ParseTagFilters_loop_blank parts seen result :
  Forall (fun part => TrimSpace part = []) parts ->
  ParseTagFilters_loop parts seen result = (result, None).
Proof.
  induction 1 as [|part parts Hp _ IH]; cbn [ParseTagFilters_loop];
    [reflexivity|].
  rewrite Hp. exact IH.
Qed.

End TagFilterBlank.

Section TagFilterTheorems.

Context {tables : UnicodeTables}.

(** [NormalizeTag] only hands back characters of [a-z0-9:,+-], and
    normalising a second time changes nothing, whatever the lower-case
    table outside ASCII is. *)
Theorem NormalizeTag_idempotent (s : list Z) :
  forallb isTagChar (NormalizeTag s) = true
  /\ NormalizeTag (NormalizeTag s) = NormalizeTag s.
Proof.
  split; [apply NormalizeTag_tagChars|].
  apply NormalizeTag_fixed, NormalizeTag_tagChars.
Qed.

(** Whatever the input, [ParseTagFilters] either fails with no filter at
    all, or hands back filters none of which occurs twice, each with a
    non-empty type and value over [a-z0-9:,+-] and one of the three
    operators. *)
Theorem ParseTagFilters_wellformed (raw : list Z) :
  match ParseTagFilters raw with
  | (fs, None) => Forall filterWell fs /\ NoDup fs
  | (fs, Some _) => fs = []
  end.
Proof.
  unfold ParseTagFilters. destruct (gostring_eqb raw []).
  - split; constructor.
  - apply (ParseTagFilters_loop_post (Split (chr ",") [] raw) ∅ []).
    repeat split; [constructor | constructor | intros f []].
Qed.

(** Distinct filters in normal form, written as operator sign, type,
    colon and value and joined by commas, are read back exactly, in
    order. *)
Theorem ParseTagFilters_rendered (fs : list TagFilter) :
  forallb canonicalFilter fs = true -> NoDup fs ->
  ParseTagFilters (renderFilters fs) = (fs, None).
Proof.
  intros Hc Hn. unfold ParseTagFilters.
  destruct fs as [|f fs]; [reflexivity|].
  assert (Hc' : Forall (fun f => canonicalFilter f = true) (f :: fs)).
  { apply List.Forall_forall. apply forallb_forall. exact Hc. }
  rewrite nonempty_eqb by (apply renderFilters_nonempty; discriminate).
  rewrite (Split_renderFilters _ Hc') by discriminate.
  rewrite (ParseTagFilters_loop_render _ _ _ Hc' Hn); [reflexivity|].
  intros g _ Hin. exact (not_elem_of_empty _ Hin).
Qed.

(** One part with text but without a colon makes the whole input fail:
    no filter is handed back, also not those of the parts that are
    fine. *)
Theorem ParseTagFilters_missing_colon (raw part : list Z) :
  In part (Split (chr ",") [] raw) -> TrimSpace part <> [] ->
  ~ In (chr ":") part ->
  exists e, ParseTagFilters raw = ([], Some e).
Proof.
  intros Hin Hne Hcolon. unfold ParseTagFilters.
  destruct raw as [|c raw].
  - exfalso. destruct Hin as [<-|[]]. apply Hne. reflexivity.
  - cbn [gostring_eqb].
    exact (ParseTagFilters_loop_no_colon part _ Hin Hne Hcolon ∅ []).
Qed.

(** An input of commas and white space only holds no filter and is no
    error. *)
Theorem ParseTagFilters_blank (raw : list Z) :
  forallb isBlankChar raw = true -> ParseTagFilters raw = ([], None).
Proof.
  intros H. unfold ParseTagFilters. destruct (gostring_eqb raw []);
    [reflexivity|].
  apply ParseTagFilters_loop_blank. apply Split_blank; [reflexivity | exact H].
Qed.

End TagFilterTheorems.

Lemma ParseTagFilters_rendered_witness :
  @ParseTagFilters tableUnicode
    (runes "+region:usa,-unfinished:demo,~lang:en,~rev:1-2:a,-lang:en")
  = ([ mkTagFilter (runes "region") (runes "usa") TagOperatorAND;
       mkTagFilter (runes "unfinished") (runes "demo") TagOperatorNOT;
       mkTagFilter (runes "lang") (runes "en") TagOperatorOR;
       mkTagFilter (runes "rev") (runes "1-2:a") TagOperatorOR;
       mkTagFilter (runes "lang") (runes "en") TagOperatorNOT ], None).
Proof.
  apply (@ParseTagFilters_rendered tableUnicode
           [ mkTagFilter (runes "region") (runes "usa") TagOperatorAND;
             mkTagFilter (runes "unfinished") (runes "demo") TagOperatorNOT;
             mkTagFilter (runes "lang") (runes "en") TagOperatorOR;
             mkTagFilter (runes "rev") (runes "1-2:a") TagOperatorOR;
             mkTagFilter (runes "lang") (runes "en") TagOperatorNOT ]).
  - reflexivity.
  - repeat (apply NoDup_cons_2;
            [rewrite list_elem_of_In; simpl; intuition discriminate|]).
    apply NoDup_nil_2.
Defined.

Lemma ParseTagFilters_missing_colon_witness :
  exists e,
    @ParseTagFilters tableUnicode (runes "region:usa, demo ,lang:en")
    = ([], Some e).
Proof.
  apply (@ParseTagFilters_missing_colon tableUnicode
           (runes "region:usa, demo ,lang:en") (runes " demo ")).
  - simpl. auto.
  - vm_compute. discriminate.
  - simpl. intuition discriminate.
Defined.

Lemma ParseTagFilters_blank_witness :
  @ParseTagFilters tableUnicode (runes " , ,, ") = ([], None).
Proof. exact (@ParseTagFilters_blank tableUnicode (runes " , ,, ") eq_refl). Defined.

(** * The methods of [AdvArgs] *)

(** The copy loop of [With] makes the map it reads. *)
Lemma copy_loop (raw : gmap (list Z) (list Z)) :
  map_fold (fun k v (newMap : gmap (list Z) (list Z)) => <[k := v]> newMap)
    ∅ raw = raw.
Proof.
  apply (map_fold_weak_ind (fun r (m : gmap (list Z) (list Z)) => r = m)).
  - reflexivity.
  - intros i x m r _ ->. reflexivity.
Qed.

(** [With] sets the one key and leaves every other key as the receiver
    has it, also on the zero [AdvArgs] whose map is nil; what it hands
    back is never empty. *)
Theorem AdvArgs_With_Get (a : option (gmap (list Z) (list Z)))
    (key value k : list Z) :
  AdvArgs_Get (AdvArgs_With a key value) k
    = (if gostring_eqb k key then value else AdvArgs_Get a k)
  /\ AdvArgs_IsEmpty (AdvArgs_With a key value) = false.
Proof.
  unfold AdvArgs_With, AdvArgs_Get, AdvArgs_IsEmpty. rewrite copy_loop. split.
  - destruct (gostring_eqb k key) eqn:E.
    + apply gostring_eqb_eq in E. subst k. rewrite lookup_insert_eq.
      reflexivity.
    + apply gostring_eqb_neq in E. rewrite lookup_insert_ne by congruence.
      destruct a; [reflexivity|]. cbn. rewrite lookup_empty. reflexivity.
  - apply Nat.eqb_neq. intros H. apply map_size_empty_iff in H.
    exact (insert_non_empty _ _ _ H).
Qed.

(** * Traits *)

Lemma isLowerAdvArgName_toLower c :
  isAdvArgName c = true -> isLowerAdvArgName (toLowerRune c) = true.
Proof.
  unfold isAdvArgName, isLowerAdvArgName, toLowerRune, in_range.
  change (chr "a") with 97. change (chr "z") with 122.
  change (chr "A") with 65. change (chr "Z") with 90.
  change (chr "0") with 48. change (chr "9") with 57.
  change (chr "_") with 95.
  intros H.
  destruct (Z.leb_spec 65 c); destruct (Z.leb_spec c 90); cbn [andb]; lia.
Qed.

Lemma isAdvArgNameStart_toLower c :
  isAdvArgNameStart c = true ->
  in_range (chr "a") (chr "z") (toLowerRune c) = true.
Proof.
  unfold isAdvArgNameStart, toLowerRune, in_range.
  change (chr "a") with 97. change (chr "z") with 122.
  change (chr "A") with 65. change (chr "Z") with 90.
  intros H.
  destruct (Z.leb_spec 65 c); destruct (Z.leb_spec c 90); cbn [andb]; lia.
Qed.

Lemma traitKey_loop_lower fuel : forall fb ks sr fb' ks' err sr',
  forallb isLowerAdvArgName ks = true ->
  traitKey_loop fuel fb ks sr = Some (fb', ks', err, sr') ->
  forallb isLowerAdvArgName ks' = true.
Proof.
  induction fuel as [|fuel IH]; intros fb ks sr fb' ks' err sr' Hks H;
    [discriminate|].
  cbn [traitKey_loop] in H.
  destruct (peek sr) as [[next [e|]] sr1] eqn:Ep; [congruence|].
  destruct ((next =? eof) || negb (isAdvArgName next)) eqn:E; [congruence|].
  apply orb_false_iff in E. destruct E as [_ E]. apply negb_false_iff in E.
  destruct (read sr1) as [ch sr2] eqn:Er.
  pose proof (peek_read _ _ _ _ _ Ep Er) as ->.
  apply (IH _ _ _ _ _ _ _) in H; [exact H|].
  rewrite forallb_app, Hks. cbn.
  rewrite (isLowerAdvArgName_toLower _ E). reflexivity.
Qed.

Section TraitKeys.

Context {floats : FloatParser}.

Lemma traitKeysOk_insert traits ch keySb value :
  traitKeysOk traits -> isAdvArgNameStart ch = true ->
  forallb isLowerAdvArgName keySb = true ->
  traitKeysOk (<[ToLower [ch] ++ keySb := value]> traits).
Proof.
  intros Ht Hc Hk. apply map_Forall_insert_2; [|exact Ht].
  cbn. rewrite (isAdvArgNameStart_toLower _ Hc), Hk. reflexivity.
Qed.

(** One step of reading the result of a loop. *)
Ltac open_loop H :=
  lazymatch type of H with
  | (?e ≫= _) = _ =>
      destruct e as [?|] eqn:?; cbn [mbind option_bind] in H; [|discriminate H]
  | (match ?e with _ => _ end) = _ =>
      let x := scrutinee e in destruct x eqn:?
  | (if ?e then _ else _) = _ => destruct e eqn:?
  end.

Lemma parseTraitsSyntax_loop_keys fuel : forall traits fb sr res err sr',
  traitKeysOk traits ->
  parseTraitsSyntax_loop fuel traits fb sr = Some (Some res, err, sr') ->
  traitKeysOk (tr_traits res).
Proof.
  induction fuel as [|fuel IH]; intros traits fb sr res err sr' Ht H;
    [discriminate|].
  cbn [parseTraitsSyntax_loop] in H.
  repeat open_loop H.
  all: try discriminate.
  all: try (injection H as <- <- <-; cbn [tr_traits traits_ok]).
  all: try exact Ht.
  all: try (eapply IH in H; [exact H|]).
  all: apply traitKeysOk_insert;
    [ exact Ht
    | apply negb_false_iff; assumption
    | eapply traitKey_loop_lower; [|eassumption]; reflexivity ].
Qed.

End TraitKeys.

(** ** Traits as they are written *)

Lemma isAdvArgName_reads c :
  isAdvArgName c = true -> (c =? eof) = false /\ (c =? RuneError) = false.
Proof.
  unfold isAdvArgName, in_range, eof, RuneError.
  change (chr "a") with 97. change (chr "z") with 122.
  change (chr "A") with 65. change (chr "Z") with 90.
  change (chr "0") with 48. change (chr "9") with 57.
  change (chr "_") with 95. lia.
Qed.

Lemma traitKey_loop_run ks : forall F fb acc tail last p,
  forallb isAdvArgName ks = true -> endsKey tail = true ->
  (length ks < F)%nat ->
  traitKey_loop F fb acc (mkReader (ks ++ tail) last p)
  = Some (fb ++ ks, acc ++ ToLower ks, None,
          mkReader tail None (p + Z.of_nat (length ks))).
Proof.
  induction ks as [|c ks IH]; intros F fb acc tail last p Hks Ht HF;
    (destruct F as [|F]; [exfalso; cbn [length] in HF; lia|]).
  - cbn [app length ToLower map]. rewrite !app_nil_r, Z.add_0_r.
    cbn [traitKey_loop]. unfold peek. cbn [unread_buf pos].
    destruct tail as [|d tail]; [reflexivity|].
    cbn [endsKey] in Ht. apply andb_true_iff in Ht. destruct Ht as [Hd Hr].
    apply negb_true_iff in Hr. rewrite Hr, Hd, orb_true_r. reflexivity.
  - cbn [forallb] in Hks. apply andb_true_iff in Hks. destruct Hks as [Hc Hks].
    destruct (isAdvArgName_reads c Hc) as [He Hr].
    cbn [app traitKey_loop]. unfold peek. cbn [unread_buf pos].
    rewrite Hr, He, Hc. cbn [orb negb read unread_buf pos lastRune].
    rewrite (IH F _ _ tail _ _ Hks Ht) by (cbn [length] in HF; lia).
    cbn [length ToLower map]. rewrite <- !app_assoc. cbn [app].
    replace (p + 1 + Z.of_nat (length ks)) with (p + Z.of_nat (S (length ks)))
      by lia.
    reflexivity.
Qed.

Lemma renderTraits_cons t rest :
  renderTraits (t :: rest) = renderTrait t ++ traitTail rest.
Proof. destruct rest; cbn [renderTraits traitTail]; [rewrite app_nil_r|]; reflexivity. Qed.

Lemma renderTraits_tail_length rest :
  (length (renderTraits rest) <= length (traitTail rest))%nat.
Proof.
  destruct rest as [|t rest]; [cbn; lia|].
  set (r := renderTraits (t :: rest)). cbn [traitTail length]. fold r. lia.
Qed.

Lemma consumeToEndOfCmd_loop_rest t : forall F buf last p,
  forallb isRestChar t = true -> (length t < F)%nat ->
  consumeToEndOfCmd_loop F buf (mkReader t last p)
  = Some (buf ++ t, None, atEnd (p + Z.of_nat (length t))).
Proof.
  induction t as [|c t IH]; intros F buf last p Ht HF;
    (destruct F as [|F]; [exfalso; cbn [length] in HF; lia|]).
  - cbn. rewrite app_nil_r, Z.add_0_r. reflexivity.
  - cbn [forallb] in Ht. apply andb_true_iff in Ht. destruct Ht as [Hc Ht].
    unfold isRestChar in Hc. apply negb_true_iff, orb_false_iff in Hc.
    destruct Hc as [He Hs].
    cbn [consumeToEndOfCmd_loop read unread_buf pos lastRune]. rewrite He.
    unfold checkEndOfCmd. rewrite Hs. cbn [negb].
    rewrite (IH F _ _ _ Ht) by (cbn [length] in HF; lia).
    rewrite <- app_assoc. cbn [app length].
    replace (p + Z.of_nat (S (length t))) with (p + 1 + Z.of_nat (length t))
      by lia.
    reflexivity.
Qed.

Section TraitsWrittenProofs.

Context {floats : FloatParser}.

Lemma startsUnquoted_app s rest :
  startsUnquoted s = true -> endsUnquoted traitValueStop rest = true ->
  startsUnquoted (s ++ rest) = true.
Proof.
  destruct s as [|c s]; [|intros H _; exact H].
  intros _. destruct rest as [|c rest]; [reflexivity|].
  cbn [app startsUnquoted endsUnquoted].
  unfold traitValueStop, isWhitespace, isQuote, eof, RuneError, SymCmdSep,
    SymTraitsStart, SymArgDoubleQuote, SymArgSingleQuote, SymArrayStart.
  lia.
Qed.

Lemma traitTail_endsUnquoted rest : endsUnquoted traitValueStop (traitTail rest) = true.
Proof. destruct rest; reflexivity. Qed.

(** After a stored trait: the end of the input, or on to the next
    trait. *)
Lemma nextTrait_loop_tail rest fb last p :
  exists fb',
    nextTrait_loop (fuel_of (mkReader (traitTail rest) last p)) fb
      (mkReader (traitTail rest) last p)
    = Some (match rest with
            | [] => ReturnResult None
            | _ => NextTrait fb'
            end,
            match rest with
            | [] => atEnd p
            | _ => mkReader (renderTraits rest) (Some SymTraitsStart) (p + 1 + 1)
            end).
Proof.
  destruct rest as [|t rest]; [exists []; reflexivity|].
  exists ((fb ++ [32]) ++ [SymTraitsStart]). reflexivity.
Qed.

(** ** Arrays *)

Lemma elemWritten_head e :
  elemWritten e = true ->
  exists c s,
    renderElem e = c :: s /\ isWhitespace c = false
    /\ (c =? RuneError) = false /\ (c =? eof) = false
    /\ (c =? SymArrayEnd) = false.
Proof.
  destruct e as [ps|q ps]; cbn [elemWritten renderElem]; intros H;
    apply andb_true_iff in H; destruct H as [H1 H2].
  - destruct ps as [|[c|c] ps]; [discriminate| |].
    + exists c, (sourceText ps). cbn [forallb unquotedPiece] in H1.
      unfold arrayElementStop, isWhitespace, eof, RuneError, SymArrayEnd,
        SymArraySep, SymEscapeSeq in *.
      repeat split; lia.
    + exists SymEscapeSeq, (c :: sourceText ps). repeat split.
  - exists q, (sourceText ps ++ [q]).
    unfold isQuote, SymArgDoubleQuote, SymArgSingleQuote, isWhitespace, eof,
      RuneError, SymArrayEnd in *.
    repeat split; lia.
Qed.

Lemma skipArrayWhitespace_none c s last p raw f :
  isWhitespace c = false -> (c =? RuneError) = false ->
  skipArrayWhitespace (S f) raw (mkReader (c :: s) last p)
  = Some (raw, None, mkReader (c :: s) None p).
Proof.
  intros Hw Hr. cbn [skipArrayWhitespace]. unfold peek. cbn [unread_buf pos].
  rewrite Hr, Hw. reflexivity.
Qed.

Lemma afterElem_endsUnquoted tail :
  afterElem tail = true -> endsUnquoted arrayElementStop tail = true.
Proof.
  destruct tail as [|c tail]; [discriminate|]. cbn [afterElem endsUnquoted].
  unfold arrayElementStop, SymArraySep, SymArrayEnd, RuneError, eof, isWhitespace.
  lia.
Qed.

Lemma parseArrayElement_written e tail last p :
  elemWritten e = true -> afterElem tail = true ->
  exists last',
    parseArrayElement (mkReader (renderElem e ++ tail) last p)
    = Some (elemValueOf e, renderElem e, None,
            mkReader tail last' (p + Z.of_nat (length (renderElem e)))).
Proof.
  intros He Ht. destruct (elemWritten_head e He) as (c & s & Hcs & _ & Hr & _).
  unfold parseArrayElement.
  assert (Hpeek : peek (mkReader (renderElem e ++ tail) last p)
                  = (c, None, mkReader (renderElem e ++ tail) None p)).
  { rewrite Hcs. cbn [app]. apply peek_plain. exact Hr. }
  rewrite Hpeek. clear Hpeek.
  destruct e as [ps|q ps]; cbn [elemWritten renderElem elemValueOf] in *;
    apply andb_true_iff in He; destruct He as [H1 H2].
  - assert (Hq : isQuote c = false).
    { rewrite Hcs in H2. cbn [startsElem] in H2.
      apply negb_true_iff in H2. exact H2. }
    rewrite Hq.
    rewrite (unquotedValue_loop_pieces arrayElementStop tail eq_refl
               (afterElem_endsUnquoted _ Ht) ps _ [] [] None p).
    + cbn [mbind option_bind app]. eexists. reflexivity.
    + unfold fuel_of. cbn [unread_buf]. rewrite length_app.
      pose proof (sourceText_length ps). lia.
    + exact H1.
  - injection Hcs as <- <-. rewrite H1.
    destruct (isQuote_spec q H1) as (Heof & Hesc & _).
    cbn [app read unread_buf pos lastRune].
    rewrite <- (app_assoc (sourceText ps) [q] tail). cbn [app].
    rewrite (quotedValue_loop_pieces q tail ps _ [q] [] (Some q) (p + 1));
      [ | unfold fuel_of; cbn [unread_buf]; rewrite length_app;
          pose proof (sourceText_length ps); lia
        | exact H2 | exact Heof | exact Hesc ].
    cbn [mbind option_bind app]. eexists.
    cbn [length]. rewrite length_app. cbn [length].
    replace (p + Z.of_nat (S (length (sourceText ps) + 1)))
      with (p + 1 + Z.of_nat (length (sourceText ps)) + 1) by lia.
    reflexivity.
Qed.

Lemma joinElems_cons e rest :
  joinElems (e :: rest) = renderElem e ++ elemTail rest.
Proof.
  destruct rest; cbn [joinElems elemTail]; [rewrite app_nil_r|]; reflexivity.
Qed.

Lemma parseTraitArray_loop_written es : forall F rawBuf elements last p rest,
  forallb elemWritten es = true -> (length es < F)%nat ->
  exists raw,
    parseTraitArray_loop F rawBuf elements
      (mkReader (joinElems es ++ SymArrayEnd :: rest) last p)
    = Some (TArray (elements ++ map elemValueOf es), raw, None,
            mkReader rest (Some SymArrayEnd)
              (p + Z.of_nat (length (joinElems es)) + 1)).
Proof.
  induction es as [|e es IH]; intros F rawBuf elements last p rest Hes HF;
    (destruct F as [|F]; [exfalso; cbn [length] in HF; lia|]).
  - cbn [joinElems app map length]. rewrite app_nil_r, Z.add_0_r.
    eexists. reflexivity.
  - cbn [forallb] in Hes. apply andb_true_iff in Hes. destruct Hes as [He Hes].
    rewrite joinElems_cons, <- app_assoc.
    set (tail := elemTail es ++ SymArrayEnd :: rest).
    assert (Ht : afterElem tail = true).
    { subst tail. destruct es; reflexivity. }
    destruct (elemWritten_head e He) as (c & s & Hcs & Hw & Hr & Heof & Hend).
    destruct (parseArrayElement_written e tail None p He Ht) as [last' Helem].
    cbn [parseTraitArray_loop].
    assert (Hskip : forall raw,
      skipArrayWhitespace (fuel_of (mkReader (renderElem e ++ tail) last p)) raw
        (mkReader (renderElem e ++ tail) last p)
      = Some (raw, None, mkReader (renderElem e ++ tail) None p)).
    { intros raw. rewrite Hcs. cbn [app]. unfold fuel_of.
      apply skipArrayWhitespace_none; assumption. }
    rewrite Hskip. cbn [mbind option_bind].
    assert (Hpeek : peek (mkReader (renderElem e ++ tail) None p)
                    = (c, None, mkReader (renderElem e ++ tail) None p)).
    { rewrite Hcs. cbn [app]. apply peek_plain. exact Hr. }
    rewrite Hpeek, Heof, Hend, Helem. cbn [mbind option_bind].
    subst tail. destruct es as [|e' es'].
    + cbn [elemTail app map length]. eexists.
      unfold fuel_of. cbn [unread_buf length skipArrayWhitespace].
      unfold peek. cbn [unread_buf pos]. cbn.
      rewrite length_app. cbn [length]. rewrite Nat.add_0_r.
      reflexivity.
    + set (r := joinElems (e' :: es')) in *.
      cbn [elemTail app]. fold r.
      unfold fuel_of. cbn [unread_buf length].
      rewrite (skipArrayWhitespace_none SymArraySep _ _ _ _ _ eq_refl eq_refl).
      cbn [mbind option_bind].
      rewrite (peek_plain SymArraySep _ _ _ eq_refl).
      change (SymArraySep =? eof) with false.
      change (SymArraySep =? SymArrayEnd) with false.
      change (SymArraySep =? SymArraySep) with true.
      cbv iota. cbn [read unread_buf pos lastRune].
      destruct (IH F ((rawBuf ++ renderElem e) ++ [SymArraySep])
                  (elements ++ [elemValueOf e]) (Some SymArraySep)
                  (p + Z.of_nat (length (renderElem e)) + 1) rest Hes
                  ltac:(cbn [length] in *; lia)) as [raw Hloop].
      fold r in Hloop. rewrite Hloop. exists raw.
      cbn [map]. rewrite <- app_assoc. cbn [app].
      rewrite length_app. cbn [length].
      replace (p + Z.of_nat (length (renderElem e) + S (length r)) + 1)
        with (p + Z.of_nat (length (renderElem e)) + 1 + Z.of_nat (length r) + 1)
        by lia.
      reflexivity.
Qed.

Lemma joinElems_length es :
  forallb elemWritten es = true -> (length es <= S (length (joinElems es)))%nat.
Proof.
  induction es as [|e es IH]; intros Hes; [cbn [length]; lia|].
  cbn [forallb] in Hes. apply andb_true_iff in Hes. destruct Hes as [He Hes].
  specialize (IH Hes). rewrite joinElems_cons, length_app.
  destruct (elemWritten_head e He) as (c & s & -> & _).
  destruct es as [|e' es'].
  - cbn [length elemTail]. lia.
  - set (r := joinElems (e' :: es')) in *.
    cbn [elemTail]. fold r. cbn [length] in *. lia.
Qed.

(** A written array as a trait value. *)
Lemma parseTraitValue_array es rest last p :
  forallb elemWritten es = true ->
  exists raw,
    parseTraitValue
      (mkReader (SymArrayStart :: joinElems es ++ SymArrayEnd :: rest) last p)
    = Some (TArray (map elemValueOf es), raw, None,
            mkReader rest (Some SymArrayEnd)
              (p + 1 + Z.of_nat (length (joinElems es)) + 1)).
Proof.
  intros Hes. unfold parseTraitValue.
  rewrite (peek_plain SymArrayStart _ _ _ eq_refl).
  change (isQuote SymArrayStart) with false.
  change (SymArrayStart =? SymArrayStart) with true. cbv iota.
  unfold parseTraitArray. cbn [read unread_buf pos lastRune].
  destruct (parseTraitArray_loop_written es
              (fuel_of (mkReader (joinElems es ++ SymArrayEnd :: rest)
                          (Some SymArrayStart) (p + 1)))
              [SymArrayStart] [] (Some SymArrayStart) (p + 1) rest Hes)
    as [raw Hloop].
  - unfold fuel_of. cbn [unread_buf]. rewrite length_app.
    pose proof (joinElems_length es Hes).
    cbn [length]. lia.
  - exists raw. exact Hloop.
Qed.

(** Two results that differ in how the position is written. *)
Ltac same_pos :=
  match goal with
  | |- Some (_, _, mkReader _ _ ?a) = Some (_, _, mkReader _ _ ?b) =>
      replace a with b by lia; reflexivity
  end.

Lemma parseTraitsSyntax_loop_written ts : forall traits fb last p F,
  forallb traitWritten ts = true ->
  (length (renderTraits ts) < F)%nat ->
  parseTraitsSyntax_loop F traits fb (mkReader (renderTraits ts) last p)
  = Some (Some (traits_ok (fold_left storeTrait ts traits)), None,
          atEnd (p + Z.of_nat (length (renderTraits ts)))).
Proof.
  induction ts as [|[k v] rest IH]; intros traits fb last p F Hts HF;
    (destruct F as [|F]; [exfalso; clear -HF; lia|]).
  - cbn. rewrite Z.add_0_r. reflexivity.
  - cbn [forallb] in Hts. apply andb_true_iff in Hts. destruct Hts as [Ht Hrest].
    unfold traitWritten in Ht. cbn [fst snd] in Ht.
    apply andb_true_iff in Ht. destruct Ht as [Hk Hv].
    destruct k as [|c ks]; [discriminate|]. cbn [traitKeyWritten] in Hk.
    apply andb_true_iff in Hk. destruct Hk as [Hc Hks].
    rewrite renderTraits_cons in *. unfold renderTrait in *. cbn [fst snd] in *.
    rewrite <- app_assoc in *. cbn [app] in *.
    set (tail := renderTraitValue v ++ traitTail rest) in *.
    assert (Hce : (c =? eof) = false).
    { unfold isAdvArgNameStart, in_range, eof in *. 
      change (chr "a") with 97 in Hc. change (chr "z") with 122 in Hc.
      change (chr "A") with 65 in Hc. change (chr "Z") with 90 in Hc. lia. }
    assert (Hend : endsKey tail = true).
    { subst tail. destruct v; [destruct rest| | |]; reflexivity. }
    cbn [parseTraitsSyntax_loop read unread_buf pos lastRune].
    rewrite Hce, Hc. cbn [negb].
    rewrite (traitKey_loop_run ks _ _ _ tail _ _ Hks Hend)
      by (unfold fuel_of; cbn [unread_buf]; rewrite length_app; lia).
    cbn [mbind option_bind].
    assert (Hstore : forall traits' fb' last' p',
      ('(outcome, sr) ←
         nextTrait_loop (fuel_of (mkReader (traitTail rest) last' p')) fb'
           (mkReader (traitTail rest) last' p');
       match outcome with
       | ReturnResult (Some e) => Some (None, Some e, sr)
       | ReturnResult None => Some (Some (traits_ok traits'), None, sr)
       | NextTrait fallbackBuf =>
           parseTraitsSyntax_loop F traits' fallbackBuf sr
       end)
      = Some (Some (traits_ok (fold_left storeTrait rest traits')), None,
              atEnd (p' + Z.of_nat (length (traitTail rest))))).
    { intros traits' fb' last' p'.
      destruct (nextTrait_loop_tail rest fb' last' p') as [fb2 ->].
      cbn [mbind option_bind].
      destruct rest as [|t rest'].
      - cbn. rewrite Z.add_0_r. reflexivity.
      - rewrite (IH _ _ _ _ _ Hrest).
        + unfold atEnd. set (r := renderTraits (t :: rest')).
          cbn [traitTail length]. fold r.
          replace (p' + Z.of_nat (S (S (length r))))
            with (p' + 1 + 1 + Z.of_nat (length r)) by lia.
          reflexivity.
        + subst tail. cbn [length] in HF. rewrite !length_app in HF.
          pose proof (renderTraits_tail_length (t :: rest')). lia. }
    assert (Hkey : fold_left storeTrait ((c :: ks, v) :: rest) traits
                   = fold_left storeTrait rest
                       (<[ToLower [c] ++ [] ++ ToLower ks := traitValueOf v]>
                          traits)).
    { reflexivity. }
    rewrite Hkey. clear Hkey.
    assert (Hlen : forall n,
      length tail = n ->
      atEnd (p + Z.of_nat (length (c :: ks ++ tail)))
      = atEnd (p + 1 + Z.of_nat (length ks) + Z.of_nat n)).
    { intros n <-. cbn [length]. rewrite length_app. f_equal. lia. }
    destruct v as [|ps|q ps|es]; subst tail;
      cbn [renderTraitValue app traitValueOf traitValueWritten] in *.
    + rewrite (Hlen _ eq_refl).
      assert (Hpeek : exists next,
        peek (mkReader (traitTail rest) None (p + 1 + Z.of_nat (length ks)))
        = (next, None,
           mkReader (traitTail rest) None (p + 1 + Z.of_nat (length ks)))
        /\ (next =? SymAdvArgEq) = false
        /\ (next =? eof) || (next =? SymCmdSep) || (next =? SymTraitsStart)
            || isWhitespace next = true).
      { destruct rest; [exists eof | exists 32]; repeat split. }
      destruct Hpeek as (next & -> & -> & ->). apply Hstore.
    + apply andb_true_iff in Hv. destruct Hv as [Hps Hstart].
      rewrite (peek_plain SymAdvArgEq _ _ _ eq_refl), Z.eqb_refl.
      cbn [read unread_buf pos lastRune].
      rewrite (parseTraitValue_unquoted ps (traitTail rest) _ _ Hps
                 (traitTail_endsUnquoted rest)
                 (startsUnquoted_app _ _ Hstart (traitTail_endsUnquoted rest))).
      cbn [mbind option_bind]. rewrite Hstore.
      rewrite (Hlen _ eq_refl). cbn [length]. rewrite length_app.
      unfold atEnd. same_pos.
    + apply andb_true_iff in Hv. destruct Hv as [Hq Hps].
      rewrite (peek_plain SymAdvArgEq _ _ _ eq_refl), Z.eqb_refl.
      cbn [read unread_buf pos lastRune].
      rewrite <- (app_assoc (sourceText ps) [q] (traitTail rest)) in *.
      cbn [app] in *.
      rewrite (parseTraitValue_quoted q ps (traitTail rest) _ _ Hq Hps).
      cbn [mbind option_bind]. rewrite Hstore.
      rewrite (Hlen _ eq_refl). cbn [length]. rewrite length_app. cbn [length].
      unfold atEnd. same_pos.
    + rewrite (peek_plain SymAdvArgEq _ _ _ eq_refl), Z.eqb_refl.
      cbn [read unread_buf pos lastRune].
      rewrite <- (app_assoc (joinElems es) [SymArrayEnd] (traitTail rest)) in *.
      cbn [app] in *.
      destruct (parseTraitValue_array es (traitTail rest) (Some SymAdvArgEq)
                  (p + 1 + Z.of_nat (length ks) + 1) Hv) as [raw ->].
      cbn [mbind option_bind]. rewrite Hstore.
      rewrite (Hlen _ eq_refl). cbn [length]. rewrite length_app. cbn [length].
      unfold atEnd. same_pos.
Qed.

End TraitsWrittenProofs.

Section TraitTheorems.

Context {floats : FloatParser}.

(** On every input [parseTraitsSyntax] returns either an error and no
    result, or a result without error; every key of the traits in a
    result, also of one that falls back to auto-launch, is a lower-case
    letter followed by lower-case letters, digits and underscores. *)
Theorem parseTraitsSyntax_keys (sr : ScriptReader) :
  exists res err sr',
    parseTraitsSyntax sr = Some (res, err, sr')
    /\ match res with
       | Some r =>
           err = None
           /\ map_Forall (fun key _ => traitKeyOk key = true) (tr_traits r)
       | None => err <> None
       end.
Proof.
  destruct (post_returns _ _ _ (parseTraitsSyntax_post sr))
    as ([res err] & sr' & E & Hok).
  exists res, err, sr'. split; [exact E|].
  destruct res as [r|]; destruct err as [e|]; cbn in Hok; try contradiction.
  - split; [reflexivity|].
    unfold parseTraitsSyntax in E.
    apply (parseTraitsSyntax_loop_keys _ _ _ _ _ _ _ (map_Forall_empty _) E).
  - discriminate.
Qed.

(** Traits written one after the other, each a key alone, a key with
    plain text, a key with quoted text or a key with an array, are read
    without error into the map they spell: keys lower-cased, a key alone
    standing for [true], plain text type-inferred, quoted text kept as a
    string, the elements of an array type-inferred one by one, a later
    trait replacing an earlier one with the same key. *)
Theorem parseTraitsSyntax_written (ts : list (list Z * traitValueSyntax)) :
  forallb traitWritten ts = true ->
  parseTraitsSyntax (NewParser (renderTraits ts)) =
    Some (Some (traits_ok (traitsMap ts)), None,
          atEnd (Z.of_nat (length (renderTraits ts)))).
Proof.
  intros Hts. unfold parseTraitsSyntax, NewParser, traitsMap.
  rewrite (parseTraitsSyntax_loop_written ts ∅ _ None 0 _ Hts); [reflexivity|].
  unfold fuel_of. cbn [unread_buf]. lia.
Qed.

(** A key followed by a character that cannot follow a key (as the dash
    of [#my-trait]) is no error: the result is marked as an invalid key
    with the lower-cased key as its name, holds no trait, and its fallback
    is the sigil and the whole text. *)
Theorem parseTraitsSyntax_invalid_key (key : list Z) (d : Z) (t : list Z) :
  traitKeyWritten key = true -> breaksKey d = true ->
  forallb isRestChar t = true ->
  parseTraitsSyntax (NewParser (key ++ d :: t)) =
    Some (Some {| tr_traits := ∅;
                  tr_fallback := SymTraitsStart :: key ++ d :: t;
                  tr_invalidKeyName := ToLower key;
                  tr_invalidKey := true |},
          None, atEnd (Z.of_nat (length (key ++ d :: t)))).
Proof.
  intros Hk Hd Ht. destruct key as [|c ks]; [discriminate|].
  cbn [traitKeyWritten] in Hk. apply andb_true_iff in Hk. destruct Hk as [Hc Hks].
  unfold breaksKey in Hd. apply negb_true_iff in Hd.
  do 6 (apply orb_false_iff in Hd; destruct Hd as [Hd ?]).
  assert (Hce : (c =? eof) = false).
  { unfold isAdvArgNameStart, in_range, eof in *.
    change (chr "a") with 97 in Hc. change (chr "z") with 122 in Hc.
    change (chr "A") with 65 in Hc. change (chr "Z") with 90 in Hc. lia. }
  unfold parseTraitsSyntax, NewParser, fuel_of. cbn [unread_buf app length].
  cbn [parseTraitsSyntax_loop read unread_buf pos lastRune].
  rewrite Hce, Hc. cbn [negb].
  rewrite (traitKey_loop_run ks _ _ _ (d :: t) _ _ Hks).
  - cbn [mbind option_bind].
    match goal with
    | H : (d =? RuneError) = false |- _ => rewrite (peek_plain d _ _ _ H)
    end.
    repeat match goal with
           | H : _ = false |- _ => rewrite H
           end.
    cbn [orb]. unfold consumeToEndOfCmd.
    rewrite (consumeToEndOfCmd_loop_rest (d :: t));
      [ | cbn [forallb]; unfold isRestChar at 1;
          repeat match goal with
                 | H : _ = false |- _ => rewrite H
                 end; exact Ht
        | unfold fuel_of; cbn [unread_buf]; lia ].
    cbn [mbind option_bind ToLower map app].
    rewrite length_app. cbn [length].
    replace (0 + 1 + Z.of_nat (length ks) + Z.of_nat (S (length t)))
      with (Z.of_nat (S (length ks + S (length t)))) by lia.
    reflexivity.
  - cbn [endsKey]. rewrite Hd.
    match goal with
    | H : (d =? RuneError) = false |- _ => rewrite H
    end. reflexivity.
  - unfold fuel_of. cbn [unread_buf]. rewrite length_app. lia.
Qed.

End TraitTheorems.

Lemma parseTraitsSyntax_invalid_key_witness :
  @parseTraitsSyntax tableFloats (NewParser (runes "My-trait=1 #b")) =
    Some (Some {| tr_traits := ∅;
                  tr_fallback := runes "#My-trait=1 #b";
                  tr_invalidKeyName := runes "my";
                  tr_invalidKey := true |},
          None, atEnd 13).
Proof.
  exact (@parseTraitsSyntax_invalid_key tableFloats (runes "My") 45
           (runes "trait=1 #b") eq_refl eq_refl eq_refl).
Defined.

Lemma parseTraitsSyntax_written_witness :
  renderTraits
           [ (runes "Flag", FlagValue);
             (runes "n", UnquotedValue (map Plain (runes "42")));
             (runes "name", QuotedValue 39 (map Plain (runes "a b")));
             (runes "f", UnquotedValue (map Plain (runes "3.14")));
             (runes "tags",
              ArrayValue [ PlainElem (map Plain (runes "a"));
                           QuotedElem 39 (map Plain (runes "b c"));
                           PlainElem (map Plain (runes "7")) ]);
             (runes "flag", UnquotedValue (map Plain (runes "false"))) ]
    = runes "Flag #n=42 #name='a b' #f=3.14 #tags=[a,'b c',7] #flag=false"
  /\ @parseTraitsSyntax tableFloats
       (NewParser (runes "Flag #n=42 #name='a b' #f=3.14 #tags=[a,'b c',7] #flag=false"))
     = Some (Some (traits_ok
                     (<[runes "flag" := TBool false]>
                        (<[runes "tags" :=
                             TArray [TString (runes "a"); TString (runes "b c");
                                     TInt 7]]>
                           (<[runes "f" := TFloat float_3_14]>
                              (<[runes "name" := TString (runes "a b")]>
                                 (<[runes "n" := TInt 42]>
                                    (<[runes "flag" := TBool true]> ∅))))))),
             None, atEnd 60).
Proof.
  split; [reflexivity|].
  pose proof (@parseTraitsSyntax_written tableFloats
           [ (runes "Flag", FlagValue);
             (runes "n", UnquotedValue (map Plain (runes "42")));
             (runes "name", QuotedValue 39 (map Plain (runes "a b")));
             (runes "f", UnquotedValue (map Plain (runes "3.14")));
             (runes "tags",
              ArrayValue [ PlainElem (map Plain (runes "a"));
                           QuotedElem 39 (map Plain (runes "b c"));
                           PlainElem (map Plain (runes "7")) ]);
             (runes "flag", UnquotedValue (map Plain (runes "false"))) ]
           eq_refl) as H.
  vm_compute in H. vm_compute. exact H.
Defined.

(** * JSON values and escapes in their callers *)

(** ** The brace-balanced span *)

Section JSONCallers.

Context {codec : JSONCodec}.





(** ** The two callers *)



(** ** From the script to the stored value *)








(** ** The value of an advanced argument *)








End JSONCallers.

(** ** Escapes in their callers *)

(** The decoder's table, the end marker included. *)
Lemma escapeValue_cases c :
  escapeValue c
  = if c =? eof then []
    else if c =? chr "n" then [10]
    else if c =? chr "r" then [13]
    else if c =? chr "t" then [9]
    else [c].
Proof.
  unfold escapeValue, parseEscapeSeq, NewParser, read. simpl.
  repeat match goal with
         | |- context [if ?b =? ?x then _ else _] =>
             destruct (Z.eqb_spec b x); try (subst; reflexivity)
         end; reflexivity.
Qed.

Lemma escapeKept_cases c :
  escapeKept c = if c =? eof then [SymEscapeSeq] else escapeValue c.
Proof.
  unfold escapeKept. destruct (c =? eof) eqn:Hc.
  - apply Z.eqb_eq in Hc. subst c. reflexivity.
  - rewrite (escapeValue_nonempty c Hc). reflexivity.
Qed.

(** [ParseExpressions] appends what the decoder returns, the empty string
    too. *)
Lemma ParseExpressions_loop_escape F result c rest last p :
  ParseExpressions_loop (S F) result
    (mkReader (SymEscapeSeq :: c :: rest) last p)
  = ParseExpressions_loop F (result ++ escapeValue c)
      (mkReader rest (Some c) (p + 1 + 1)).
Proof.
  cbn [ParseExpressions_loop read unread_buf pos lastRune].
  change (SymEscapeSeq =? eof) with false.
  change (SymEscapeSeq =? SymEscapeSeq) with true. cbv beta iota.
  rewrite parseEscapeSeq_cons. reflexivity.
Qed.

Lemma ParseExpressions_loop_escape_end F result last p :
  ParseExpressions_loop (S (S F)) result (mkReader [SymEscapeSeq] last p)
  = Some (result, None, atEnd (p + 1)).
Proof.
  cbn [ParseExpressions_loop parseEscapeSeq read unread_buf pos lastRune].
  change (SymEscapeSeq =? eof) with false.
  change (SymEscapeSeq =? SymEscapeSeq) with true.
  change (eof =? eof) with true. cbv beta iota.
  rewrite app_nil_r. reflexivity.
Qed.

(** Literal text and a trailing [^]: the text alone comes back. *)
Lemma ParseExpressions_trailing t :
  forallb isTextChar t = true ->
  ParseExpressions (NewParser (t ++ [SymEscapeSeq]))
  = Some (t, None, atEnd (Z.of_nat (length t) + 1)).
Proof.
  intros Ht. unfold ParseExpressions, NewParser, fuel_of. cbn [unread_buf].
  apply (ParseExpressions_loop_text t [] [SymEscapeSeq] None 0 _ Ht 2);
    [|rewrite length_app; cbn [length]; lia].
  intros f' last' Hf'.
  destruct f' as [|[|f']]; try (exfalso; clear -Hf'; lia).
  rewrite ParseExpressions_loop_escape_end. reflexivity.
Qed.

Section EscapeCallers.

Context {codec : JSONCodec}.

(** [parseArgs] appends what the decoder returns, and the bare [^] when
    that is the empty string. *)
Lemma parseArgs_loop_escape F oa oo args cur aS c rest last p :
  parseArgs_loop (S F) oa oo args cur aS
    (mkReader (SymEscapeSeq :: c :: rest) last p)
  = parseArgs_loop F oa oo args (cur ++ escapeKept c) aS
      (mkReader rest (Some c) (p + 1 + 1)).
Proof.
  cbn [parseArgs_loop read unread_buf pos lastRune].
  change (SymEscapeSeq =? eof) with false.
  change (isQuote SymEscapeSeq) with false.
  change (SymEscapeSeq =? SymJSONStart) with false.
  rewrite !andb_false_r.
  change (SymEscapeSeq =? SymEscapeSeq) with true. cbv beta iota.
  rewrite parseEscapeSeq_cons. unfold escapeKept.
  destruct (gostring_eqb (escapeValue c) []); reflexivity.
Qed.

Lemma parseArgs_loop_escape_end F oa oo args cur aS last p :
  parseArgs_loop (S (S F)) oa oo args cur aS (mkReader [SymEscapeSeq] last p)
  = Some (parseArgs_finish oa args (cur ++ [SymEscapeSeq]), ∅, None,
          atEnd (p + 1)).
Proof.
  cbn [parseArgs_loop read unread_buf pos lastRune].
  change (SymEscapeSeq =? eof) with false.
  change (isQuote SymEscapeSeq) with false.
  change (SymEscapeSeq =? SymJSONStart) with false.
  rewrite !andb_false_r.
  change (SymEscapeSeq =? SymEscapeSeq) with true.
  reflexivity.
Qed.

(** So does [parseAdvArgs] inside a value. *)
Lemma parseAdvArgs_loop_escape_end F m cur val vs buf last p :
  parseAdvArgs_loop (S (S F)) m true cur val vs buf
    (mkReader [SymEscapeSeq] last p)
  = Some (storeArg m cur (val ++ [SymEscapeSeq]), buf ++ [SymEscapeSeq], None,
          atEnd (p + 1)).
Proof.
  cbn [parseAdvArgs_loop read unread_buf pos lastRune].
  change (SymEscapeSeq =? eof) with false.
  change (isQuote SymEscapeSeq) with false.
  change (SymEscapeSeq =? SymJSONStart) with false.
  rewrite !andb_false_r. cbn [andb].
  change (SymEscapeSeq =? SymEscapeSeq) with true.
  reflexivity.
Qed.

End EscapeCallers.

Section JSONTheorem.

Context {codec : JSONCodec}.


(** C9 (fails on the code): the escape decoder reads one code point and
    maps it as the table says; the end marker and the end of the input
    give the empty string.  The argument scanners then put the bare [^]
    into the argument, as the claim says.  [ParseExpressions] appends the
    empty string instead, and a trailing [^] is lost there: [test^] gives
    [test]. *)
Theorem C9_expressions_drop_trailing_escape :
  (forall c rest last p,
     parseEscapeSeq {| unread_buf := c :: rest; lastRune := last; pos := p |} =
     (escapeValue c, {| unread_buf := rest; lastRune := Some c; pos := p + 1 |}))
  /\ (forall c,
        escapeValue c
        = if c =? eof then []
          else if c =? chr "n" then [10]
          else if c =? chr "r" then [13]
          else if c =? chr "t" then [9]
          else [c])
  /\ (forall last p,
        parseEscapeSeq {| unread_buf := []; lastRune := last; pos := p |} =
        ([], atEnd p))
  /\ (forall c, escapeKept c = if c =? eof then [SymEscapeSeq] else escapeValue c)
  /\ (forall fuel onlyAdvArgs onlyOneArg args currentArg argStart c rest last p,
        parseArgs_loop (S fuel) onlyAdvArgs onlyOneArg args currentArg argStart
          (mkReader (SymEscapeSeq :: c :: rest) last p)
        = parseArgs_loop fuel onlyAdvArgs onlyOneArg args
            (currentArg ++ escapeKept c) argStart
            (mkReader rest (Some c) (p + 1 + 1)))
  /\ (forall fuel onlyAdvArgs onlyOneArg args currentArg argStart last p,
        parseArgs_loop (S (S fuel)) onlyAdvArgs onlyOneArg args currentArg argStart
          {| unread_buf := [SymEscapeSeq]; lastRune := last; pos := p |} =
        Some (parseArgs_finish onlyAdvArgs args (currentArg ++ [SymEscapeSeq]),
              ∅, None, atEnd (p + 1)))
  /\ (forall fuel advArgs currentArg currentValue valueStart buf last p,
        parseAdvArgs_loop (S (S fuel)) advArgs true currentArg currentValue
          valueStart buf (mkReader [SymEscapeSeq] last p)
        = Some (storeArg advArgs currentArg (currentValue ++ [SymEscapeSeq]),
                buf ++ [SymEscapeSeq], None, atEnd (p + 1)))
  /\ ParseScript (NewParser (runes "**cmd:a^nb^rc^td^^e^'f^xg")) =
       Some (scriptOf [namedCmd (runes "cmd")
                         [[97; 10; 98; 13; 99; 9; 100; 94; 101; 39; 102; 120; 103]]],
             None, atEnd 25)
  /\ ParseScript (NewParser (runes "**cmd:test^")) =
       Some (scriptOf [namedCmd (runes "cmd") [runes "test^"]], None, atEnd 11)
  /\ ParseScript (NewParser (runes "**cmd:t^" ++ [eof] ++ runes "x")) =
       Some (scriptOf [namedCmd (runes "cmd") [runes "t^x"]], None, atEnd 10)
  /\ ParseScript (NewParser (runes "**cmd:" ++ dq ++ runes "a^nb^" ++ dq ++ dq)) =
       Some (scriptOf [namedCmd (runes "cmd") [[97; 10; 98; 34]]], None, atEnd 14)
  /\ ParseScript (NewParser (runes "**cmd:" ++ dq ++ runes "a^")) =
       Some (emptyScript, Some (ParseErrorAt 9 ErrUnmatchedQuote), atEnd 9)
  /\ ParseScript (NewParser (runes "**cmd?k=a^nb&j=x^")) =
       Some (scriptOf
               [ {| AdvArgs := Some (<[runes "j" := runes "x^"]>
                                       (<[runes "k" := [97; 10; 98] ]> ∅));
                    Name := runes "cmd"; Args := [] |} ],
             None, atEnd 17)
  /\ ParseScript (NewParser (runes "@s/a^nb")) =
       Some (scriptOf [namedCmd ZapScriptCmdLaunchTitle [[115; 47; 97; 10; 98]]],
             None, atEnd 7)
  /\ ParseScript (NewParser (runes "@s/t^")) =
       Some (scriptOf [namedCmd ZapScriptCmdLaunchTitle [runes "s/t^"]],
             None, atEnd 5)
  /\ ParseScript (NewParser (runes "a^nb^")) =
       Some (scriptOf [launchCmd [97; 10; 98; 94]], None, atEnd 5)
  /\ (forall fuel result c rest last p,
        ParseExpressions_loop (S fuel) result
          (mkReader (SymEscapeSeq :: c :: rest) last p)
        = ParseExpressions_loop fuel (result ++ escapeValue c)
            (mkReader rest (Some c) (p + 1 + 1)))
  /\ (forall t,
        forallb isTextChar t = true ->
        ParseExpressions (NewParser (t ++ [SymEscapeSeq]))
        = Some (t, None, atEnd (Z.of_nat (length t) + 1)))
  /\ ParseExpressions (NewParser (runes "test^")) =
       Some (runes "test", None, atEnd 5)
  /\ ParseExpressions (NewParser (runes "t^" ++ [eof] ++ runes "x")) =
       Some (runes "tx", None, atEnd 4)
  /\ ParseExpressions (NewParser (runes "a^nb^^c^xd")) =
       Some ([97; 10; 98; 94; 99; 120; 100], None, atEnd 10).
Proof.
  split; [exact parseEscapeSeq_cons|].
  split; [exact escapeValue_cases|].
  split; [reflexivity|].
  split; [exact escapeKept_cases|].
  split; [exact parseArgs_loop_escape|].
  split; [exact parseArgs_loop_escape_end|].
  split; [exact parseAdvArgs_loop_escape_end|].
  do 9 (split; [vm_compute; reflexivity|]).
  split; [exact ParseExpressions_loop_escape|].
  split; [exact ParseExpressions_trailing|].
  repeat split; vm_compute; reflexivity.
Qed.

End JSONTheorem.

